(** * docs-crawler-mcp: crawl frontier, chunker, chunk index and retrieval

    A shallow embedding of the TypeScript sources of the repository
    (src/data.ts, src/utils.ts, src/crawling.ts, src/tools.ts, the two
    revisions of crawler.ts and of index-db.ts) together with the
    properties the specification states about them.

    Conventions.
    - A JavaScript string is the list of its UTF-16 code units.
    - An [await] on an external service (page fetch, embedding call, file
      system, vector database) is a call to an oracle that is a variable
      of the enclosing section; a rejected promise or a thrown exception
      is an explicit error value.
    - A [for]/[while] loop whose bound is not structural takes a fuel
      argument; each such loop comes with the lemma that the fuel the
      caller passes is enough. *)

From Stdlib Require Import List Arith Lia ZArith NArith Bool QArith Qround Sorted.
From Stdlib Require Import Reals Lra.
From Stdlib Require PrimFloat FloatOps.
From Stdlib Require Import String Ascii DecimalString DecimalNat.
From stdpp Require Import base option list gmap.

Local Open Scope nat_scope.

(* ================================================================== *)
(** ** JavaScript strings *)
(* ================================================================== *)

Module JS.

(** UTF-16 code units. *)
Definition jsstring := list N.

(** The code units of an ASCII literal. *)
Definition js (s : string) : jsstring :=
  map N_of_ascii (list_ascii_of_string s).

(** The characters matched by [\s] in a JavaScript regular expression:
    WhiteSpace and LineTerminator of ECMA-262. *)
Definition is_space (c : N) : bool :=
  existsb (N.eqb c)
    [9; 10; 11; 12; 13; 32; 160; 5760; 8232; 8233; 8239; 8287; 12288; 65279]%N
  || ((8192 <=? c)%N && (c <=? 8202)%N).

(** [s.split(/\s+/)]: the pieces of [s] between maximal runs of white
    space.  The flag tells that the previous code unit was white space,
    so that a run closes one piece only.  A string that begins (ends)
    with white space has an empty first (last) piece; the empty string
    has the single piece [""]. *)
Fixpoint split_go (insp : bool) (s : jsstring) : list jsstring :=
  match s with
  | [] => [[]]
  | c :: s' =>
      if is_space c then
        if insp then split_go true s' else [] :: split_go true s'
      else
        match split_go false s' with
        | w :: ws => (c :: w) :: ws
        | [] => [[c]]
        end
  end.

Definition split_ws (s : jsstring) : list jsstring := split_go false s.

(** [arr.join(" ")]. *)
Fixpoint join_space (ws : list jsstring) : jsstring :=
  match ws with
  | [] => []
  | [w] => w
  | w :: rest => w ++ 32%N :: join_space rest
  end.

(** [arr.slice(start, end)] for indices [0 <= start], [0 <= end]. *)
Definition slice {A} (start end_ : nat) (l : list A) : list A :=
  take (end_ - start) (drop start l).

(** [s.startsWith(p)]. *)
Fixpoint startsWith (s p : jsstring) : bool :=
  match p, s with
  | [], _ => true
  | _ :: _, [] => false
  | a :: p', b :: s' => (a =? b)%N && startsWith s' p'
  end.

(** [s.trim()]: white space removed at both ends. *)
Fixpoint trimStart (s : jsstring) : jsstring :=
  match s with
  | c :: s' => if is_space c then trimStart s' else s
  | [] => []
  end.

Definition trim (s : jsstring) : jsstring :=
  rev (trimStart (rev (trimStart s))).

(** The outcome of evaluating an expression or awaiting a promise: a
    value, or the exception thrown (the reason of the rejection). *)
Inductive completion (E A : Type) : Type :=
| Normal (a : A)
| Throw (e : E).
Arguments Normal {E A} a.
Arguments Throw {E A} e.

Definition bind {E A B} (c : completion E A) (k : A -> completion E B)
  : completion E B :=
  match c with
  | Normal a => k a
  | Throw e => Throw e
  end.

(** [try { body } catch (e) { handler }]. *)
Definition try_catch {E A} (body : completion E A) (handler : E -> completion E A)
  : completion E A :=
  match body with
  | Normal a => Normal a
  | Throw e => handler e
  end.

(** [s.endsWith(p)]. *)
Definition endsWith (s p : jsstring) : bool := startsWith (rev s) (rev p).

(** The longest prefix whose code units satisfy [p], and the rest. *)
Fixpoint span (p : N -> bool) (s : jsstring) : jsstring * jsstring :=
  match s with
  | [] => ([], [])
  | c :: s' =>
      if p c then let '(a, b) := span p s' in (c :: a, b) else ([], s)
  end.

(** [String(n)] for an array index [n]. *)
Definition decimal (n : nat) : jsstring := js (NilZero.string_of_uint (Nat.to_uint n)).

(** [s.replace(pat, by)] with a string pattern: the first occurrence only. *)
Fixpoint replace_first (pat by_ s : jsstring) : jsstring :=
  match s with
  | [] => if pat is [] then by_ else []
  | c :: s' =>
      if startsWith s pat then by_ ++ drop (length pat) s
      else c :: replace_first pat by_ s'
  end.

(** [Promise.all(xs.map(f))], and a loop that awaits [f] on each element:
    the values in order, or the first rejection. *)
Fixpoint mapC {E A B} (f : A -> completion E B) (xs : list A)
  : completion E (list B) :=
  match xs with
  | [] => Normal []
  | x :: xs' =>
      bind (f x) (fun y => bind (mapC f xs') (fun ys => Normal (y :: ys)))
  end.

End JS.
Import JS.

(* ================================================================== *)
(** ** The chunker (src/data.ts, chunkMarkdownSlidingWindow) *)
(* ================================================================== *)

Module Chunker.

Section SlidingWindow.
(** [chunkSize] and [overlap] of the source. *)
Variables (chunkSize overlap : nat).

(** The body of
    [for (let start = 0; start < words.length; start += chunkSize - overlap)]
    with its [break] when the window reaches the end of [words]; the
    windows are kept as word lists, [fuel] bounds the iterations. *)
Fixpoint window_loop (fuel : nat) (words : list jsstring) (start : nat)
  : list (list jsstring) :=
  match fuel with
  | 0 => []
  | S fuel' =>
      if start <? length words then
        let end_ := Nat.min (start + chunkSize) (length words) in
        let chunk := slice start end_ words in
        chunk ::
          (if end_ =? length words then []
           else window_loop fuel' words (start + (chunkSize - overlap)))
      else []
  end.

(** One iteration per word is always enough ([window_loop_fuel]). *)
Definition windows (words : list jsstring) : list (list jsstring) :=
  window_loop (length words) words 0.

(** [chunks.push(words.slice(start, end).join(" "))]. *)
Definition chunk_words (words : list jsstring) : list jsstring :=
  map join_space (windows words).
End SlidingWindow.

Definition chunkSize : nat := 500.
Definition overlap : nat := 65.

Definition chunkMarkdownSlidingWindow (markdown : jsstring) : list jsstring :=
  chunk_words chunkSize overlap (split_ws markdown).

(** What the specification calls "concatenating the windows with each
    O-word overlap removed": the first window whole, then every later
    window without its first [O] words. *)
Definition remove_overlap (O : nat) (ws : list (list jsstring)) : list jsstring :=
  match ws with
  | [] => []
  | w :: rest => w ++ concat (map (drop O) rest)
  end.

End Chunker.

(* ================================================================== *)
(** ** URL normalisation (src/utils.ts, normalizeUrl) *)
(* ================================================================== *)

Module Url.

(** [s.replace(/\/$/, "")]: one "/" removed when it is the last code unit. *)
Definition replace_trailing_slash (s : jsstring) : jsstring :=
  match rev s with
  | 47%N :: r => rev r
  | _ => s
  end.

(** [s.split("#")[0]]: the code units before the first "#". *)
Fixpoint split_hash_0 (s : jsstring) : jsstring :=
  match s with
  | [] => []
  | c :: s' => if (c =? 35)%N then [] else c :: split_hash_0 s'
  end.

Section NormalizeUrl.
(** [new URL(url, baseUrl).href]: the URL parser and serialiser of the
    platform (WHATWG URL Standard); [baseUrl] is given by its href.  It
    throws a TypeError, kept as its message, on a string that does not
    parse. *)
Variable URL_href : jsstring -> jsstring -> completion jsstring jsstring.

Definition normalizeUrl (url baseUrl : jsstring) : completion jsstring jsstring :=
  try_catch
    (bind (URL_href url baseUrl) (fun href =>
       Normal (split_hash_0 (replace_trailing_slash href))))
    (fun _ => Normal []).

(** The string a caller of [normalizeUrl] receives. *)
Definition normalizeUrl_value (url baseUrl : jsstring) : jsstring :=
  match normalizeUrl url baseUrl with
  | Normal s => s
  | Throw _ => []
  end.
End NormalizeUrl.

(** *** A model of the platform's parser on plain absolute URLs

    [href_model] answers for the strings
    [http(s)://host[/path][?query][#fragment]] whose host is made of
    lower-case letters, digits and dots with a last label that starts
    with a letter, whose path has no "." or ".." segment, and whose
    path, query and fragment hold unreserved characters only.  On those
    the WHATWG serialisation is the input, with "/" for an empty path.
    It also answers the empty host, on which the platform throws.  Every
    other string is outside the model (answered [Throw] as well); the
    statements below evaluate the model inside it only. *)
Definition in_range (lo hi c : N) : bool := ((lo <=? c) && (c <=? hi))%N.
Definition is_lower (c : N) : bool := in_range 97 122 c.
Definition is_alnum (c : N) : bool :=
  is_lower c || in_range 65 90 c || in_range 48 57 c.
Definition one_of (cs : list N) (c : N) : bool := existsb (N.eqb c) cs.

Definition host_char (c : N) : bool := is_lower c || in_range 48 57 c || (c =? 46)%N.
Definition path_char (c : N) : bool := is_alnum c || one_of [45; 95; 126; 46; 47]%N c.
Definition query_char (c : N) : bool :=
  is_alnum c || one_of [45; 95; 126; 46; 47; 61; 38]%N c.

(** The pieces of [s] between the occurrences of the code unit [sep]. *)
Fixpoint split_on (sep : N) (s : jsstring) : list jsstring :=
  match s with
  | [] => [[]]
  | c :: s' =>
      if (c =? sep)%N then [] :: split_on sep s'
      else match split_on sep s' with
           | w :: ws => (c :: w) :: ws
           | [] => [[c]]
           end
  end.

Definition after_prefix (p s : jsstring) : option jsstring :=
  if startsWith s p then Some (drop (length p) s) else None.

Definition host_ok (host : jsstring) : bool :=
  forallb host_char host
  && match last (split_on 46 host) with
     | Some (c :: _) => is_lower c
     | _ => false
     end.

Definition path_ok (path : jsstring) : bool :=
  forallb path_char path
  && forallb (fun seg => negb (bool_decide (seg = js ".") || bool_decide (seg = js "..")))
       (split_on 47 path).

Definition rest_ok (p : N -> bool) (s : jsstring) : bool :=
  match s with
  | [] => true
  | _ :: s' => forallb p s'
  end.

Definition invalid_url : jsstring := js "Invalid URL".

Definition href_model (url baseUrl : jsstring) : completion jsstring jsstring :=
  let scheme_rest :=
    match after_prefix (js "https://") url with
    | Some rest => Some (js "https://", rest)
    | None =>
        match after_prefix (js "http://") url with
        | Some rest => Some (js "http://", rest)
        | None => None
        end
    end in
  match scheme_rest with
  | None => Throw invalid_url
  | Some (scheme, rest) =>
      let '(host, r1) := span (fun c => negb (one_of [47; 63; 35]%N c)) rest in
      let '(path, r2) := span (fun c => negb (one_of [63; 35]%N c)) r1 in
      let '(query, fragment) := span (fun c => negb (c =? 35)%N) r2 in
      if host_ok host && path_ok path
         && rest_ok query_char query && rest_ok query_char fragment
      then Normal (scheme ++ host ++ (if path is [] then [47%N] else path)
                     ++ query ++ fragment)
      else Throw invalid_url
  end.

End Url.

(* ================================================================== *)
(** ** Cosine similarity (index-db.ts, IndexDatabase.computeCosineSimilarity) *)
(* ================================================================== *)

Module Cosine.
Local Open Scope R_scope.

(** The function over exact reals: the quotient the specification
    writes, without the rounding, overflow and NaN of IEEE doubles.  The
    search below ranks by it; the function on doubles is [Cosine64]. *)

(** The [for] loop over [i < vec1.length && i < vec2.length] with its
    three accumulators [dotProduct], [mag1], [mag2]. *)
Fixpoint cosine_loop (vec1 vec2 : list R) (acc : R * R * R) : R * R * R :=
  match vec1, vec2 with
  | x :: vec1', y :: vec2' =>
      let '(dotProduct, mag1, mag2) := acc in
      cosine_loop vec1' vec2' (dotProduct + x * y, mag1 + x * x, mag2 + y * y)
  | _, _ => acc
  end.

Definition computeCosineSimilarity (vec1 vec2 : list R) : R :=
  let '(dotProduct, mag1, mag2) := cosine_loop vec1 vec2 (0, 0, 0) in
  let mag1 := sqrt mag1 in
  let mag2 := sqrt mag2 in
  if Req_dec_T mag1 0 then 0
  else if Req_dec_T mag2 0 then 0
  else dotProduct / (mag1 * mag2).

(** The specification's [dot(a,b)] and [||a||]. *)
Fixpoint dot (a b : list R) : R :=
  match a, b with
  | x :: a', y :: b' => x * y + dot a' b'
  | _, _ => 0
  end.

Definition norm (a : list R) : R := sqrt (dot a a).

End Cosine.

(* ================================================================== *)
(** ** Cosine similarity on doubles *)
(* ================================================================== *)

Module Cosine64.
Import PrimFloat FloatOps.
Local Open Scope float_scope.

(** A JavaScript number is an IEEE 754 binary64 value: [float], with
    [+], [*], [/] rounded to nearest, ties to even, and one NaN.
    [Math.sqrt] is the correctly rounded square root, as V8 computes it;
    [===] on numbers is [=?]: [-0 === 0] holds, [NaN === 0] does not. *)

(** The [for] loop over [i < vec1.length && i < vec2.length] with its
    three accumulators [dotProduct], [mag1], [mag2]. *)
Fixpoint cosine_loop (vec1 vec2 : list float) (acc : float * float * float)
  : float * float * float :=
  match vec1, vec2 with
  | x :: vec1', y :: vec2' =>
      let '(dotProduct, mag1, mag2) := acc in
      cosine_loop vec1' vec2' (dotProduct + x * y, mag1 + x * x, mag2 + y * y)
  | _, _ => acc
  end.

Definition computeCosineSimilarity (vec1 vec2 : list float) : float :=
  let '(dotProduct, mag1, mag2) := cosine_loop vec1 vec2 (0, 0, 0) in
  let mag1 := sqrt mag1 in
  let mag2 := sqrt mag2 in
  if (mag1 =? 0) || (mag2 =? 0) then 0
  else dotProduct / (mag1 * mag2).

(** The specification's [dot(a,b)] and [||a||] computed in doubles, the
    sum taken from the first component on. *)
Definition dot (a b : list float) : float :=
  fold_left (fun sum xy => sum + fst xy * snd xy) (combine a b) 0.

Definition norm (a : list float) : float := sqrt (dot a a).



End Cosine64.

(* ================================================================== *)
(** ** Arrays and Maps of the JavaScript runtime *)
(* ================================================================== *)

Module Runtime.

Section Arrays.
Context {A : Type}.

(** [arr.sort(cmp)] is stable: of two elements that compare equal the
    one that came first stays first.  [before x y] is [cmp(x, y) <= 0]. *)
Fixpoint insert_sorted (before : A -> A -> bool) (x : A) (l : list A) : list A :=
  match l with
  | [] => [x]
  | y :: l' => if before x y then x :: y :: l' else y :: insert_sorted before x l'
  end.

Definition stable_sort (before : A -> A -> bool) (l : list A) : list A :=
  foldr (insert_sorted before) [] l.

(** [arr.slice(0, n)] for an integer [n]: a negative [n] counts from the
    end of the array. *)
Definition slice0 (n : Z) (l : list A) : list A :=
  take (Z.to_nat (if (n <? 0)%Z then Z.max 0 (Z.of_nat (length l) + n) else n)) l.
End Arrays.

Section Maps.
Context {K V : Type} `{EqDecision K}.

(** A [Map]: its entries in insertion order. *)
Fixpoint map_get (k : K) (m : list (K * V)) : option V :=
  match m with
  | [] => None
  | (k', v) :: m' => if decide (k' = k) then Some v else map_get k m'
  end.

(** [map.set(k, v)]: an existing key keeps its place. *)
Fixpoint map_set (k : K) (v : V) (m : list (K * V)) : list (K * V) :=
  match m with
  | [] => [(k, v)]
  | (k', v') :: m' =>
      if decide (k' = k) then (k, v) :: m' else (k', v') :: map_set k v m'
  end.

(** [Array.from(map.values())]. *)
Definition map_values (m : list (K * V)) : list V := map snd m.
End Maps.

(** [arr.indexOf(q)], and the array's length when [q] is absent (the
    source tests it against positions of the array only). *)
Fixpoint indexOf (q : jsstring) (arr : list jsstring) : nat :=
  match arr with
  | [] => 0
  | x :: arr' => if decide (x = q) then 0 else S (indexOf q arr')
  end.

(** [arr.filter((q, i, arr) => arr.indexOf(q) === i)]. *)
Definition filter_first_occurrence (arr : list jsstring) : list jsstring :=
  map snd (filter (fun iq => bool_decide (indexOf iq.2 arr = iq.1)) (imap pair arr)).

(** [x.toFixed(4)] read as a number, in ten-thousandths: the nearest
    multiple of 0.0001, a tie going away from zero. *)
Definition toFixed4 (x : Q) : Z :=
  if Qle_bool 0%Q x then Qfloor (x * 10000 + (1 # 2))%Q
  else (- Qfloor (- x * 10000 + (1 # 2))%Q)%Z.

End Runtime.
Import Runtime.

(* ================================================================== *)
(** ** The tool handlers (src/tools.ts) and formatSearchResult (src/utils.ts) *)
(* ================================================================== *)

Module Tools.

(** [ErrorCode] of the MCP SDK. *)
Inductive ErrorCode := InvalidParams | InternalError | MethodNotFound.

Definition error_code_text (c : ErrorCode) : jsstring :=
  match c with
  | InvalidParams => js "-32602"
  | InternalError => js "-32603"
  | MethodNotFound => js "-32601"
  end.

(** What a handler can throw: an [McpError] with its code and the
    message it stores, or any other value, kept as its message (the
    [error.message] or [String(error)] that a [catch] reads). *)
Inductive exn :=
| McpError (code : ErrorCode) (message : jsstring)
| OtherError (message : jsstring).

(** [new McpError(code, message)]: the SDK stores
    ["MCP error " + code + ": " + message]. *)
Definition new_McpError (code : ErrorCode) (message : jsstring) : exn :=
  McpError code (js "MCP error " ++ error_code_text code ++ js ": " ++ message).

Definition error_message (e : exn) : jsstring :=
  match e with
  | McpError _ m => m
  | OtherError m => m
  end.

(** A result of [db.search]. *)
Record SearchResult := {
  sr_url : jsstring;
  sr_title : jsstring;
  sr_content : jsstring;
  sr_distance : Q
}.

(** [SearchResultWithRelevance]; [relevance] is in ten-thousandths. *)
Record RankedResult := {
  url : jsstring;
  title : jsstring;
  content : jsstring;
  distance : Q;
  relevance : Z;
  matchedQueries : list jsstring
}.

(** What [formatSearchResult] returns; [f_relevance] is the string of
    four decimals, read in ten-thousandths. *)
Record FormattedResult := {
  f_url : jsstring;
  f_title : jsstring;
  f_content : jsstring;
  f_relevance : Z;
  f_matchedQueries : list jsstring
}.

(** [parseFloat((1 - r.distance).toFixed(4))]. *)
Definition relevance_of (distance : Q) : Z := toFixed4 (1 - distance)%Q.

(** [{ ...r, relevance: ..., matchedQueries: [q] }]. *)
Definition with_relevance (q : jsstring) (r : SearchResult) : RankedResult :=
  {| url := sr_url r; title := sr_title r; content := sr_content r;
     distance := sr_distance r; relevance := relevance_of (sr_distance r);
     matchedQueries := [q] |}.

(** The callback of the [reduce] that deduplicates by URL. *)
Definition dedupe_step (map : list (jsstring * RankedResult)) (result : RankedResult)
  : list (jsstring * RankedResult) :=
  match map_get (url result) map with
  | None => map_set (url result) result map
  | Some existing =>
      let relevance' :=
        if (relevance existing <? relevance result)%Z then relevance result
        else relevance existing in
      let existing' :=
        {| url := url existing; title := title existing;
           content := content existing; distance := distance existing;
           relevance := relevance';
           matchedQueries :=
             filter_first_occurrence
               (matchedQueries existing ++ matchedQueries result) |} in
      map_set (url result) existing' map
  end.

(** [if (url)]: a string that is present and not empty. *)
Definition truthy (s : option jsstring) : option jsstring :=
  match s with
  | Some (c :: s') => Some (c :: s')
  | _ => None
  end.

Section Handlers.
(** [getWebsiteDirectory(url)]: the directory of a crawled site, [None]
    when the file system has none. *)
Variable getWebsiteDirectory : jsstring -> option jsstring.
(** [await listCrawledWebsites()]; its value is only logged. *)
Variable listCrawledWebsites : completion exn unit.
(** [await IndexDatabase.getInstance()]. *)
Variable getInstance : completion exn unit.
(** [await db.search(q, limit)]; it catches its own errors. *)
Variable search : jsstring -> Z -> list SearchResult.
(** The excerpt [formatSearchResult] cuts from the content
    (findNaturalBreakpoint); no statement below reads it. *)
Variable limitContent : jsstring -> jsstring.

Definition formatSearchResult (result : RankedResult) : FormattedResult :=
  {| f_url := url result; f_title := title result;
     f_content := limitContent (content result);
     f_relevance := toFixed4 (1 - distance result)%Q;
     f_matchedQueries := matchedQueries result |}.

(** The loop [for (const q of queries)] that fills [allResults]. *)
Definition allResults (queries : list jsstring) (limit : Z) : list RankedResult :=
  flat_map (fun q => map (with_relevance q) (search q limit)) queries.

Definition filteredResults (queries : list jsstring) (url_ : option jsstring)
    (limit : Z) : list RankedResult :=
  match truthy url_ with
  | Some u => filter (fun result => startsWith (url result) u) (allResults queries limit)
  | None => allResults queries limit
  end.

(** [uniqueResults]: the reduce into a Map, its values sorted by
    descending relevance, the first [limit] of them. *)
Definition uniqueResults (queries : list jsstring) (url_ : option jsstring)
    (limit : Z) : list RankedResult :=
  slice0 limit
    (stable_sort (fun a b => (relevance b <=? relevance a)%Z)
       (map_values (fold_left dedupe_step (filteredResults queries url_ limit) []))).

Record SearchExistingArgs := {
  arg_queries : option (list jsstring);
  arg_url : option jsstring;
  arg_limit : option Z
}.

Definition not_crawled_message (u : jsstring) : jsstring :=
  js "Website " ++ u ++ js " has not been crawled yet. Use search_website tool first.".

Definition handleSearchExistingData (args : SearchExistingArgs)
  : completion exn (list FormattedResult) :=
  let limit := default 5%Z (arg_limit args) in
  match arg_queries args with
  | None | Some [] =>
      Throw (new_McpError InvalidParams (js "At least one search query is required"))
  | Some queries =>
      try_catch
        (bind
           (match truthy (arg_url args) with
            | Some u =>
                match getWebsiteDirectory u with
                | Some _ => Normal tt
                | None =>
                    bind listCrawledWebsites (fun _ =>
                      Throw (new_McpError InvalidParams (not_crawled_message u)))
                end
            | None => Normal tt
            end) (fun _ =>
         bind getInstance (fun _ =>
           Normal (map formatSearchResult
                     (uniqueResults queries (arg_url args) limit)))))
        (fun error =>
           Throw (new_McpError InternalError
                    (js "Search operation failed: " ++ error_message error)))
  end.
End Handlers.

End Tools.

(* ================================================================== *)
(** ** The Qdrant-backed index and search (src/data.ts) *)
(* ================================================================== *)

Module Qdrant.
Import Chunker.

Record Payload := {
  p_url : jsstring;
  chunk_id : jsstring;
  p_content : jsstring;
  timestamp : jsstring
}.

(** A stored point; its id is a UUID, kept as a number. *)
Record Point := {
  point_id : N;
  vector : list Q;
  payload : Payload
}.

(** A search hit. *)
Record ScoredPoint := {
  sp_id : N;
  score : Q;
  sp_payload : Payload
}.

(** The collection ["docs_chunks"] and the number of UUIDs drawn so far. *)
Record QState := {
  collection : gmap N Point;
  uuids_drawn : nat
}.

(** [r.payload.chunk_id || r.payload.content]. *)
Definition chunk_key (r : ScoredPoint) : jsstring :=
  if chunk_id (sp_payload r) is [] then p_content (sp_payload r)
  else chunk_id (sp_payload r).

(** [allResults.filter(...)] with the Set [seen]. *)
Fixpoint filter_unseen (seen : gset jsstring) (l : list ScoredPoint)
  : list ScoredPoint :=
  match l with
  | [] => []
  | r :: l' =>
      if decide (chunk_key r ∈ seen) then filter_unseen seen l'
      else r :: filter_unseen ({[chunk_key r]} ∪ seen) l'
  end.

(** [qdrant.upsert]: a point replaces the stored point of its id. *)
Definition upsert (batch : list Point) (coll : gmap N Point) : gmap N Point :=
  foldl (fun c p => <[point_id p := p]> c) coll batch.

(** The number of stored chunks whose payload names [u]. *)
Definition count_for_url (coll : gmap N Point) (u : jsstring) : nat :=
  length (filter (fun p => p_url (payload p.2) = u) (map_to_list coll)).

Section Services.
(** [await loadEmbedder()]. *)
Variable loadEmbedder : completion jsstring unit.
(** [await embedChunk(text)], once the embedder is loaded. *)
Variable embedChunk : jsstring -> completion jsstring (list Q).
(** [await searchQdrantByEmbedding(embedding, limit)]. *)
Variable searchQdrantByEmbedding : list Q -> Z -> completion jsstring (list ScoredPoint).
(** [crypto.randomUUID()]: the n-th UUID the process draws. *)
Variable randomUUID : nat -> N.
(** Whether [await qdrant.upsert(..., { points: batch })] succeeds. *)
Variable upsert_ok : list Point -> bool.

Definition multiQueryQdrantSearch (queries : list jsstring) (perQueryLimit : Z)
  : completion jsstring (list ScoredPoint) :=
  bind loadEmbedder (fun _ =>
  bind (mapC (fun query =>
          bind (embedChunk query) (fun embedding =>
            searchQdrantByEmbedding embedding perQueryLimit)) queries)
       (fun results =>
  let allResults := concat results in
  let uniqueResults := filter_unseen ∅ allResults in
  Normal (stable_sort (fun a b => Qle_bool (score b) (score a)) uniqueResults))).

Definition BATCH_SIZE : nat := 20.

(** [for (let i = 0; i < allPoints.length; i += BATCH_SIZE)] with the
    [try]/[catch] around each upsert. *)
Fixpoint upsert_loop (fuel i : nat) (allPoints : list Point) (coll : gmap N Point)
  : gmap N Point :=
  match fuel with
  | 0 => coll
  | S fuel' =>
      if i <? length allPoints then
        let batch := slice i (i + BATCH_SIZE) allPoints in
        let coll' := if upsert_ok batch then upsert batch coll else coll in
        upsert_loop fuel' (i + BATCH_SIZE) allPoints coll'
      else coll
  end.

Definition saveChunksToQdrant (url markdown timestamp_ : jsstring) (st : QState)
  : completion jsstring QState :=
  bind loadEmbedder (fun _ =>
  let chunks := chunkMarkdownSlidingWindow markdown in
  bind (mapC embedChunk chunks) (fun chunkEmbeddings =>
  let allPoints :=
    imap (fun idx embedding =>
            {| point_id := randomUUID (uuids_drawn st + idx);
               vector := embedding;
               payload := {| p_url := url;
                             chunk_id := url ++ js "#chunk-" ++ decimal idx;
                             p_content := default [] (chunks !! idx);
                             timestamp := timestamp_ |} |})
         chunkEmbeddings in
  Normal {| collection :=
              upsert_loop (length allPoints) 0 allPoints (collection st);
            uuids_drawn := uuids_drawn st + length chunkEmbeddings |})).
End Services.

End Qdrant.

(* ================================================================== *)
(** ** The file-backed index (index-db.ts, IndexDatabase) *)
(* ================================================================== *)

Module IndexDb.

(** A crawled page as [JSON.parse] reads it from its file; an absent
    field is the empty string. *)
Record Document := {
  doc_url : jsstring;
  doc_title : jsstring;
  doc_content : jsstring
}.

Record DocumentChunk := {
  dc_id : jsstring;
  dc_url : jsstring;
  dc_title : jsstring;
  dc_content : jsstring;
  dc_embedding : option (list Q)
}.

Definition is_terminator (c : N) : bool := existsb (N.eqb c) [46; 33; 63]%N.

(** [text.match(/[^.!?]+[.!?]+/g)]: each match is a longest run of
    other code units followed by a longest run of ".", "!", "?";
    terminators with nothing before them and text with no terminator
    after it are skipped. *)
Fixpoint match_sentences (fuel : nat) (s : jsstring) : list jsstring :=
  match fuel with
  | 0 => []
  | S fuel' =>
      let '(_, s1) := span is_terminator s in
      let '(body, r) := span (fun c => negb (is_terminator c)) s1 in
      let '(terms, r') := span is_terminator r in
      match body, terms with
      | _ :: _, _ :: _ => (body ++ terms) :: match_sentences fuel' r'
      | _, _ => []
      end
  end.

(** The loop of splitIntoChunks over the sentences. *)
Fixpoint pack_sentences (maxChunkSize : nat) (sentences : list jsstring)
    (currentChunk : jsstring) : list jsstring :=
  match sentences with
  | [] => if trim currentChunk is [] then [] else [trim currentChunk]
  | sentence :: rest =>
      if (maxChunkSize <? length (currentChunk ++ sentence))
         && (0 <? length currentChunk)
      then trim currentChunk
             :: pack_sentences maxChunkSize rest (sentence ++ js " ")
      else pack_sentences maxChunkSize rest (currentChunk ++ sentence ++ js " ")
  end.

(** [maxChunkSize] is 6000. *)
Definition splitIntoChunks (text : jsstring) : list jsstring :=
  let sentences :=
    match match_sentences (length text) text with
    | [] => [text]
    | ms => ms
    end in
  pack_sentences (60 * 100) sentences [].

(** [path.basename(file, ext)] on a file name without directories. *)
Definition basename (file ext : jsstring) : jsstring :=
  if endsWith file ext && (length ext <? length file)
  then take (length file - length ext) file
  else file.

Definition indexed_extension (file : jsstring) : bool :=
  endsWith file (js ".json") || endsWith file (js ".jsonX").

Definition index_file_name (file : jsstring) : jsstring :=
  (if endsWith file (js ".jsonX") then basename file (js ".jsonX")
   else basename file (js ".json")) ++ js ".index.json".

Section Database.
(** [JSON.parse] of a page file: the document, or [None] when it throws. *)
Variable JSON_parse : jsstring -> option Document.
(** The embeddings request for one chunk; [None] when it fails. *)
Variable embed : jsstring -> option (list Q).
(** Whether [await fs.promises.writeFile(indexPath, ...)] succeeds. *)
Variable writeFile_ok : jsstring -> bool.

Definition createEmbeddings (text : jsstring) : list (list Q) :=
  let chunks := splitIntoChunks text in
  match mapM embed chunks with
  | Some embeddings => embeddings
  | None => map (fun _ => repeat 0%Q 1536) chunks
  end.

(** [JSON.parse(fileContent)] with the repair of a missing opening brace
    (34 is the double quote). *)
Definition parse_document (fileContent : jsstring) : option Document :=
  match JSON_parse fileContent with
  | Some document => Some document
  | None =>
      if startsWith (trim fileContent) [34%N] then
        JSON_parse (js "{" ++ fileContent ++ js "}")
      else None
  end.

Definition documentChunks (file : jsstring) (document : Document)
  : list DocumentChunk :=
  let chunks := splitIntoChunks (doc_content document) in
  let embeddings := createEmbeddings (doc_content document) in
  imap (fun index chunk =>
          {| dc_id := (if doc_url document is [] then replace_first (js ".json") [] file
                       else doc_url document) ++ js "_chunk_" ++ decimal index;
             dc_url := doc_url document;
             dc_title := if doc_title document is [] then js "Untitled"
                         else doc_title document;
             dc_content := chunk;
             dc_embedding := embeddings !! index |})
       chunks.

(** One turn of [for (const file of files)]: the index directory (file
    name to stored chunks) and [totalProcessed]. *)
Definition index_file (st : gmap jsstring (list DocumentChunk) * nat)
    (f : jsstring * jsstring) : gmap jsstring (list DocumentChunk) * nat :=
  let '(file, fileContent) := f in
  match parse_document fileContent with
  | None => st
  | Some document =>
      if trim (doc_content document) is [] then st
      else
        let chunks := documentChunks file document in
        if writeFile_ok (index_file_name file)
        then (<[index_file_name file := chunks]> st.1, st.2 + length chunks)
        else st
  end.

(** [indexDocuments(sourceDir)]: [sourceDir] is given by its files, name
    and content, in the order of [readdirSync]; the result is the index
    directory afterwards and the count returned. *)
Definition indexDocuments (sourceDir : list (jsstring * jsstring))
    (indexDir : gmap jsstring (list DocumentChunk))
  : gmap jsstring (list DocumentChunk) * nat :=
  let files := filter (fun f => indexed_extension f.1) sourceDir in
  foldl index_file (indexDir, 0) files.
End Database.

(** The URLs of the stored chunks, file by file. *)
Definition stored_urls (indexDir : gmap jsstring (list DocumentChunk))
  : gmap jsstring (list jsstring) :=
  map dc_url <$> indexDir.

(** The number of chunks stored for the URL [u]. *)
Definition chunk_count (indexDir : gmap jsstring (list DocumentChunk))
    (u : jsstring) : nat :=
  length (filter (fun v => v = u) (concat (map snd (map_to_list (stored_urls indexDir))))).

End IndexDb.

(* ================================================================== *)
(** ** The recursive crawl (src/crawling.ts) *)
(* ================================================================== *)

Module Crawling.

(** The Set [visited], the counter [pagesCrawled.count], and a record of
    the URLs handed to crawlSingleUrl, latest last; the record is not in
    the source, statements about attempts read it. *)
Record CrawlState := {
  visited : gset jsstring;
  pagesCrawled : nat;
  attempts : list jsstring
}.

Section Crawl.
(** [await crawlSingleUrl(url, waitForSelector, browser)]: the markdown
    and the discovered URLs, or [None] when it throws. *)
Variable crawlSingleUrl : jsstring -> option (jsstring * list jsstring).

(** crawlRecursive.  The recursion descends one level of depth per call
    and stops above [maxDepth]; [fuel] is the number of levels it may
    still enter ([crawlRecursive_fuel]). *)
Fixpoint crawlRecursive (fuel : nat) (url : jsstring) (depth maxDepth maxPages : nat)
    (st : CrawlState) : CrawlState :=
  match fuel with
  | 0 => st
  | S fuel' =>
      if decide (url ∈ visited st) then st
      else if maxDepth <? depth then st
      else if maxPages <=? pagesCrawled st then st
      else
        let st1 := {| visited := {[url]} ∪ visited st;
                      pagesCrawled := pagesCrawled st;
                      attempts := attempts st ++ [url] |} in
        match crawlSingleUrl url with
        | None => st1
        | Some (_, discoveredUrls) =>
            let st2 := {| visited := visited st1;
                          pagesCrawled := S (pagesCrawled st1);
                          attempts := attempts st1 |} in
            foldl (fun s discoveredUrl =>
                     if decide (discoveredUrl ∈ visited s) then s
                     else crawlRecursive fuel' discoveredUrl (depth + 1)
                            maxDepth maxPages s)
                  st2 discoveredUrls
        end
  end.

Definition maxDepth : nat := 2.
Definition maxPages : nat := 500.

(** The crawl of crawlWebsite with a browser that was launched, from
    the fetch of the first page up to, and without, [browser.close()]:
    the state it ends in, or [None] when the fetch of the first page
    throws.  [launchBrowser], [browser.close] and the search that
    follows the crawl, each of which can also end the call with an error
    response, are not part of it. *)
Definition crawlWebsite (url : jsstring) : option CrawlState :=
  match crawlSingleUrl url with
  | None => None
  | Some (_, discoveredUrls) =>
      let st := {| visited := {[url]}; pagesCrawled := 1; attempts := [url] |} in
      Some (foldl (fun s discoveredUrl =>
                     crawlRecursive (maxDepth + 1) discoveredUrl 1 maxDepth maxPages s)
                  st discoveredUrls)
  end.
End Crawl.

End Crawling.

(* ================================================================== *)
(** ** The batched crawl (a later revision of crawling.ts) *)
(* ================================================================== *)

Module CrawlingBatched.
Import Crawling.

Section Crawl.
Variable crawlSingleUrl : jsstring -> option (jsstring * list jsstring).

(** crawlUrlsConcurrently: one result per URL of the batch, in order;
    a failed URL has no discovered URLs. *)
Definition crawlUrlsConcurrently (urls : list jsstring) : list (list jsstring) :=
  map (fun url => match crawlSingleUrl url with
                  | Some (_, discoveredUrls) => discoveredUrls
                  | None => []
                  end) urls.

(** The [while] loop of crawlWebsite: [toVisit], [currentDepth] and the
    state; [visited.size < maxPages] is read before each batch. *)
Fixpoint crawl_loop (fuel : nat) (toVisit : list jsstring) (currentDepth : nat)
    (st : CrawlState) : CrawlState :=
  match fuel with
  | 0 => st
  | S fuel' =>
      if negb (bool_decide (toVisit = [])) && (currentDepth <=? maxDepth)
         && (size (visited st) <? maxPages)
      then
        let batch := filter (fun u => u ∉ visited st) (take 50 toVisit) in
        let toVisit1 := drop 50 toVisit in
        if bool_decide (batch = []) then st
        else
          let visited1 := list_to_set batch ∪ visited st in
          let results := crawlUrlsConcurrently batch in
          let toVisit2 :=
            toVisit1 ++ filter (fun link => link ∉ visited1) (concat results) in
          crawl_loop fuel' toVisit2 (currentDepth + 1)
            {| visited := visited1;
               pagesCrawled := pagesCrawled st;
               attempts := attempts st ++ batch |}
      else st
  end.

(** [currentDepth] goes from 0 to [maxDepth]: three turns at most. *)
Definition crawlWebsite (url : jsstring) : CrawlState :=
  crawl_loop (maxDepth + 1) [url] 0
    {| visited := ∅; pagesCrawled := 0; attempts := [] |}.
End Crawl.

End CrawlingBatched.

(* ================================================================== *)
(** ** WebsiteCrawler (the two revisions of crawler.ts) *)
(* ================================================================== *)

Module Crawler.
Import Url.

Inductive Status := running | completed | failed.

(** [CrawlJob], without its id, base URL, times and output directory. *)
Record CrawlJob := {
  status : Status;
  pagesProcessed : nat;
  errors : list jsstring
}.

Record PageResult := {
  pr_url : jsstring;
  pr_title : jsstring;
  pr_content : jsstring;
  pr_links : list jsstring
}.

(** The functions handed to [this.queue.add]: [processUrl(url, depth)]
    of the later revision; the task of the base URL and the task of a
    link of the first revision. *)
Inductive Task :=
| ProcessUrl (url : jsstring) (depth : nat)
| CrawlBase
| CrawlLink (link : jsstring).

(** Where a started task stands: suspended at
    [await this.processPage(url)], suspended at
    [await this.savePage(result)], or returned without awaiting (the
    queue still counts it until the running code yields). *)
Inductive Stage :=
| AwaitPage (t : Task) (url : jsstring)
| AwaitSave (t : Task) (page : PageResult)
| Done.

Global Instance Stage_is_Done_dec (s : Stage) : Decision (s = Done).
Proof. destruct s; [right | right | left]; done. Defined.

(** The crawler: [this.visited], [this.job], the tasks waiting in
    [this.queue] (first in, first out) and the tasks it has started;
    [fetched] records the URLs passed to processPage, latest last, and
    is not in the source. *)
Record Crawler := {
  visited : gset jsstring;
  job : CrawlJob;
  fetched : list jsstring;
  queue : list Task;
  pending : list Stage
}.

Definition set_queue (q : list Task) (c : Crawler) : Crawler :=
  {| visited := visited c; job := job c; fetched := fetched c;
     queue := q; pending := pending c |}.

Definition set_pending (p : list Stage) (c : Crawler) : Crawler :=
  {| visited := visited c; job := job c; fetched := fetched c;
     queue := queue c; pending := p |}.

Definition set_job (j : CrawlJob) (c : Crawler) : Crawler :=
  {| visited := visited c; job := j; fetched := fetched c;
     queue := queue c; pending := pending c |}.

(** [this.job.errors.push(message)]. *)
Definition push_error (message : jsstring) (j : CrawlJob) : CrawlJob :=
  {| status := status j; pagesProcessed := pagesProcessed j;
     errors := errors j ++ [message] |}.

(** [this.job.pagesProcessed++]. *)
Definition count_page (j : CrawlJob) : CrawlJob :=
  {| status := status j; pagesProcessed := S (pagesProcessed j);
     errors := errors j |}.

(** [new PQueue({ concurrency: 2 })]. *)
Definition concurrency : nat := 2.
Definition MAX_DEPTH : nat := 2.

Section Crawl.
Variable URL_href : jsstring -> jsstring -> completion jsstring jsstring.
(** [this.baseUrl.href]. *)
Variable baseUrl : jsstring.
(** What processPage obtains for a URL: title, content and links, or the
    message of the error it catches. *)
Variable fetch : jsstring -> completion jsstring (jsstring * jsstring * list jsstring).
(** The message savePage pushes when writing the page fails. *)
Variable savePage_error : PageResult -> option jsstring.

(** [visited.add(url)] followed by the call of [processPage(url)]. *)
Definition visit_and_fetch (t : Task) (url : jsstring) (c : Crawler) : Crawler :=
  {| visited := {[url]} ∪ visited c; job := job c;
     fetched := fetched c ++ [url]; queue := queue c;
     pending := pending c ++ [AwaitPage t url] |}.

(** A task runs up to its first [await]. *)
Definition start_task (t : Task) (c : Crawler) : Crawler :=
  match t with
  | ProcessUrl url _ =>
      let normalizedUrl := normalizeUrl_value URL_href url baseUrl in
      if decide (normalizedUrl ∈ visited c) then set_pending (pending c ++ [Done]) c
      else visit_and_fetch t normalizedUrl c
  | CrawlBase =>
      let normalizedUrl := normalizeUrl_value URL_href baseUrl baseUrl in
      if decide (normalizedUrl ∈ visited c) then set_pending (pending c ++ [Done]) c
      else visit_and_fetch t normalizedUrl c
  | CrawlLink link => visit_and_fetch t link c
  end.

(** [this.queue.add(task)]: the task joins the queue, and the queue
    starts its first task at once when fewer than [concurrency] tasks
    are started and not yet settled. *)
Definition queue_add (t : Task) (c : Crawler) : Crawler :=
  let c' := set_queue (queue c ++ [t]) c in
  if length (pending c') <? concurrency then
    match queue c' with
    | t' :: q => start_task t' (set_queue q c')
    | [] => c'
    end
  else c'.

(** [for (const link of result.links) if (!this.visited.has(link)) this.queue.add(...)]. *)
Definition add_links (task_of : jsstring -> Task) (links : list jsstring)
    (c : Crawler) : Crawler :=
  foldl (fun c link =>
           if decide (link ∈ visited c) then c else queue_add (task_of link) c)
        c links.

(** The code after [await this.savePage(result)]. *)
Definition after_save (t : Task) (page : PageResult) (c : Crawler) : Crawler :=
  let saved :=
    match savePage_error page with
    | Some message => push_error message (job c)
    | None => job c
    end in
  let c1 := set_job (count_page saved) c in
  match t with
  | ProcessUrl _ depth =>
      if depth <? MAX_DEPTH
      then add_links (fun link => ProcessUrl link (depth + 1)) (pr_links page) c1
      else c1
  | CrawlBase => add_links CrawlLink (pr_links page) c1
  | CrawlLink _ => c1
  end.

Definition drop_done (c : Crawler) : Crawler :=
  set_pending (filter (fun s => s <> Done) (pending c)) c.

(** When the running code yields, the tasks that have returned leave the
    queue's count and the queue starts waiting tasks in their place. *)
Fixpoint start_next (fuel : nat) (c : Crawler) : Crawler :=
  match fuel with
  | 0 => c
  | S fuel' =>
      if length (pending c) <? concurrency then
        match queue c with
        | [] => c
        | t :: q => start_next fuel' (drop_done (start_task t (set_queue q c)))
        end
      else c
  end.

Definition settle (c : Crawler) : Crawler :=
  let c' := drop_done c in start_next (length (queue c')) c'.

(** The started task number [i] is resumed and runs to its next [await]
    or to its end. *)
Definition resume (i : nat) (c : Crawler) : Crawler :=
  match pending c !! i with
  | Some (AwaitPage t url) =>
      match fetch url with
      | Throw message =>
          settle (set_pending (delete i (pending c))
                    (set_job (push_error (js "Failed to process " ++ url ++ js ": "
                                            ++ message) (job c)) c))
      | Normal (title, content, links) =>
          set_pending
            (<[i := AwaitSave t {| pr_url := url; pr_title := title;
                                   pr_content := content; pr_links := links |}]>
               (pending c)) c
      end
  | Some (AwaitSave t page) =>
      let c' := after_save t page c in
      settle (set_pending (delete i (pending c')) c')
  | Some Done | None => c
  end.

(** The crawler after its constructor. *)
Definition new_crawler : Crawler :=
  {| visited := ∅;
     job := {| status := running; pagesProcessed := 0; errors := [] |};
     fetched := []; queue := []; pending := [] |}.

(** A run: the order in which the suspended tasks are resumed. *)
Definition run (schedule : list nat) (c : Crawler) : Crawler :=
  foldl (fun c i => resume i c) c schedule.

(** [await this.queue.onIdle()] returns when no task waits or is started. *)
Definition idle (c : Crawler) : bool :=
  bool_decide (queue c = []) && bool_decide (pending c = []).

(** *** The later revision (puppeteer) *)

(** The code after [await this.queue.onIdle()], and the [catch]. *)
Definition finish_puppeteer (onIdle : completion jsstring unit) (j : CrawlJob)
  : CrawlJob :=
  match onIdle with
  | Normal _ =>
      if pagesProcessed j =? 0 then
        {| status := failed; pagesProcessed := pagesProcessed j;
           errors := if errors j is [] then
                       [js "Crawl failed: No pages were processed successfully"]
                     else errors j |}
      else
        {| status := completed; pagesProcessed := pagesProcessed j;
           errors := errors j |}
  | Throw message =>
      {| status := failed; pagesProcessed := pagesProcessed j;
         errors := errors j ++ [js "Fatal crawl error: " ++ message] |}
  end.

Definition start_puppeteer : Crawler := queue_add (ProcessUrl baseUrl 0) new_crawler.

(** [crawl()]: the job it leaves, for a schedule that drains the queue. *)
Definition crawl_puppeteer (schedule : list nat) (onIdle : completion jsstring unit)
  : option CrawlJob :=
  let c := run schedule start_puppeteer in
  if idle c then Some (finish_puppeteer onIdle (job c)) else None.

(** *** The first revision (axios) *)

Definition finish_axios (onIdle : completion jsstring unit) (j : CrawlJob)
  : CrawlJob :=
  match onIdle with
  | Normal _ =>
      {| status := completed; pagesProcessed := pagesProcessed j;
         errors := errors j |}
  | Throw message =>
      {| status := failed; pagesProcessed := pagesProcessed j;
         errors := errors j ++ [js "Crawl failed: " ++ message] |}
  end.

Definition start_axios : Crawler := queue_add CrawlBase new_crawler.

Definition crawl_axios (schedule : list nat) (onIdle : completion jsstring unit)
  : option (CrawlJob * list jsstring) :=
  let c := run schedule start_axios in
  if idle c then Some (finish_axios onIdle (job c), fetched c) else None.
End Crawl.

End Crawler.

(* ================================================================== *)
(** ** The excerpt of a search result (src/utils.ts, formatSearchResult
       and findNaturalBreakpoint) *)
(* ================================================================== *)

Module Format.

(** [text.lastIndexOf(searchString, position)]: the greatest index, at
    most [position], at which [searchString] occurs in [text]; -1 when
    there is none. *)
Fixpoint lastIndexOf_from (text searchString : jsstring) (k : nat) : Z :=
  if startsWith (drop k text) searchString then Z.of_nat k
  else match k with
       | 0 => (-1)%Z
       | S k' => lastIndexOf_from text searchString k'
       end.

Definition lastIndexOf (text searchString : jsstring) (position : nat) : Z :=
  if length text <? length searchString then (-1)%Z
  else lastIndexOf_from text searchString
         (Nat.min position (length text - length searchString)).

(** [". "], ["! "], ["? "]. *)
Definition sentence_ends : list jsstring := [js ". "; js "! "; js "? "].

(** findNaturalBreakpoint.  [nearPosition] is a length.  The ranges
    [Math.floor(maxPosition * 0.2)], [... * 0.15] and [... * 0.1] are
    the integer quotients by 5, of the triple by 20, and by 10: on a
    length the double product is within half a unit in the last place of
    the exact one, so its floor is the quotient.  [10] is the line feed. *)
Definition findNaturalBreakpoint (text : jsstring) (nearPosition : nat) : Z :=
  let maxPosition := Nat.min nearPosition (length text) in
  let paragraphSearchRange := maxPosition / 5 in
  let paragraphBreakIndex := lastIndexOf text [10; 10]%N maxPosition in
  if (Z.of_nat maxPosition - Z.of_nat paragraphSearchRange <=? paragraphBreakIndex)%Z
  then (paragraphBreakIndex + 2)%Z
  else
    let sentenceSearchRange := 3 * maxPosition / 20 in
    let sentenceBreakIndex :=
      fold_left
        (fun sentenceBreakIndex endChar =>
           let index := lastIndexOf text endChar maxPosition in
           if (sentenceBreakIndex <? index)%Z
              && (Z.of_nat maxPosition - Z.of_nat sentenceSearchRange <=? index)%Z
           then index else sentenceBreakIndex)
        sentence_ends (-1)%Z in
    if (0 <? sentenceBreakIndex)%Z then (sentenceBreakIndex + 1)%Z
    else
      let wordSearchRange := maxPosition / 10 in
      let wordBreakIndex := lastIndexOf text (js " ") maxPosition in
      if (Z.of_nat maxPosition - Z.of_nat wordSearchRange <=? wordBreakIndex)%Z
      then wordBreakIndex
      else Z.of_nat maxPosition.

(** [limitedContent] of formatSearchResult: [substring(0, breakPoint)]
    when the content is longer than [maxContentLength]. *)
Definition limitContent (maxContentLength : nat) (content : jsstring) : jsstring :=
  if maxContentLength <? length content then
    take (Z.to_nat (findNaturalBreakpoint content maxContentLength)) content
  else content.

(** The default of the parameter; no caller passes another value. *)
Definition maxContentLength : nat := 1500.

(** formatSearchResult as the handlers call it. *)
Definition formatSearchResult (result : Tools.RankedResult) : Tools.FormattedResult :=
  Tools.formatSearchResult (limitContent maxContentLength) result.

End Format.

(* ================================================================== *)
(** ** The excerpt that matches the queries (src/tools.ts,
       extractRelevantChunk) *)
(* ================================================================== *)

Module Relevant.
Import IndexDb.

(** [s.includes(t)]. *)
Definition includes (s t : jsstring) : bool :=
  existsb (fun k => startsWith (drop k s) t) (seq 0 (S (length s))).

Definition maxChunkSize : nat := 1500.

Section ExtractRelevantChunk.
(** [s.toLowerCase()], the case mapping of the platform. *)
Variable toLowerCase : jsstring -> jsstring.

(** [query.toLowerCase().split(/\s+/).filter((term) => term.length > 3)]. *)
Definition key_terms (query : jsstring) : list jsstring :=
  filter (fun term => 3 < length term) (split_ws (toLowerCase query)).

(** The [reduce] over the queries: the number of key terms, counted per
    query, that the chunk includes. *)
Definition score (chunk : jsstring) (queries : list jsstring) : nat :=
  fold_left
    (fun acc query =>
       acc + length (filter (fun term => includes (toLowerCase chunk) term = true)
                       (key_terms query)))
    queries 0.

(** The [while] loop: sentences are appended, each followed by a space,
    as long as the chunk with the next one stays within [maxChunkSize]. *)
Fixpoint gather (sentences : list jsstring) (chunk : jsstring) : jsstring :=
  match sentences with
  | sentence :: rest =>
      if length chunk + length sentence <=? maxChunkSize
      then gather rest (chunk ++ sentence ++ js " ")
      else chunk
  | [] => chunk
  end.

(** The [for] loop over the start [i]: [sentences] is what is left from
    [i] on, [best] is [bestChunk] with [bestScore]. *)
Fixpoint scan (queries sentences : list jsstring) (best : jsstring * nat)
  : jsstring * nat :=
  match sentences with
  | [] => best
  | _ :: rest =>
      let chunk := gather sentences [] in
      let score_ := score chunk queries in
      scan queries rest (if best.2 <? score_ then (trim chunk, score_) else best)
  end.

Definition extractRelevantChunk (content : jsstring) (queries : list jsstring)
  : jsstring :=
  let sentences := match_sentences (length content) content in
  let bestChunk := (scan queries sentences ([], 0)).1 in
  if bestChunk is [] then slice 0 maxChunkSize content else bestChunk.
End ExtractRelevantChunk.

End Relevant.

(* ================================================================== *)
(** ** Search in the file-backed index (index-db.ts, IndexDatabase.search
       of the later revision) *)
(* ================================================================== *)

Module IndexSearch.
Import IndexDb.

(** A result of [search]; numbers are exact reals, as in [Cosine]. *)
Record SearchResult := {
  res_id : jsstring;
  res_url : jsstring;
  res_title : jsstring;
  res_content : jsstring;
  res_distance : R;
  res_chunkIndex : nat
}.

(** [x <= y] as the comparison a sort uses. *)
Definition Rle_bool (x y : R) : bool := if Rle_dec x y then true else false.

(** A stored chunk that the loop does not skip: it has a URL and an
    embedding, and its URL starts with [baseUrl] when one is given. *)
Definition usable (baseUrl : option jsstring) (chunk : DocumentChunk) : bool :=
  match dc_url chunk, dc_embedding chunk with
  | _ :: _, Some _ =>
      match Tools.truthy baseUrl with
      | Some b => startsWith (dc_url chunk) b
      | None => true
      end
  | _, _ => false
  end.

Section Search.
(** The embeddings request for one chunk; [None] when it fails. *)
Variable embed : jsstring -> option (list Q).

(** [{ ...chunk, similarity, title: chunk.title || "Untitled",
       content: chunk.content || "" }]. *)
Definition with_similarity (queryEmbedding0 : list Q) (chunk : DocumentChunk)
  : DocumentChunk * R :=
  ({| dc_id := dc_id chunk; dc_url := dc_url chunk;
      dc_title := if dc_title chunk is [] then js "Untitled" else dc_title chunk;
      dc_content := dc_content chunk;
      dc_embedding := dc_embedding chunk |},
   Cosine.computeCosineSimilarity (map Q2R queryEmbedding0)
     (map Q2R (default [] (dc_embedding chunk)))).

(** [allChunks]: the usable chunks of the index files, file by file.  A
    file is given by its name and by the array [JSON.parse] reads from
    it, [None] when it does not parse or is not an array. *)
Definition allChunks (queryEmbedding0 : list Q) (baseUrl : option jsstring)
    (indexFiles : list (jsstring * option (list DocumentChunk)))
  : list (DocumentChunk * R) :=
  flat_map (fun f => match f.2 with
                     | Some chunks =>
                         map (with_similarity queryEmbedding0)
                           (filter (fun chunk => usable baseUrl chunk = true) chunks)
                     | None => []
                     end) indexFiles.

(** [search(query, limit, baseUrl)].  [indexDir] is what [readdirSync]
    lists, [None] when it throws.  Every error is caught and gives []. *)
Definition search (query : jsstring) (limit : Z) (baseUrl : option jsstring)
    (indexDir : option (list (jsstring * option (list DocumentChunk))))
  : list SearchResult :=
  match createEmbeddings embed query with
  | [] => []
  | queryEmbedding0 :: _ =>
      match indexDir with
      | None => []
      | Some files =>
          let indexFiles :=
            filter (fun f => endsWith f.1 (js ".index.json") = true) files in
          if indexFiles is [] then []
          else
            let topResults :=
              slice0 limit
                (stable_sort (fun a b => Rle_bool b.2 a.2)
                   (allChunks queryEmbedding0 baseUrl indexFiles)) in
            imap (fun index (chunk : DocumentChunk * R) =>
                    {| res_id := dc_id chunk.1; res_url := dc_url chunk.1;
                       res_title := dc_title chunk.1;
                       res_content := dc_content chunk.1;
                       res_distance := (1 - chunk.2)%R;
                       res_chunkIndex := index |})
                 topResults
      end
  end.
End Search.

End IndexSearch.

(* ================================================================== *)
(** ** The links of a page (browser.ts, extractAllUrlsWithSameBaseUrl) *)
(* ================================================================== *)

Module Browser.

(** What the code reads of a [URL] object. *)
Record ParsedUrl := {
  protocol : jsstring;
  origin : jsstring;
  href : jsstring
}.

(** [set.add(x)] on a Set kept in insertion order. *)
Definition set_add (x : jsstring) (s : list jsstring) : list jsstring :=
  if decide (x ∈ s) then s else s ++ [x].

Definition same_origin (baseOrigin : jsstring) (resolvedUrl : ParsedUrl) : bool :=
  (bool_decide (protocol resolvedUrl = js "http:")
   || bool_decide (protocol resolvedUrl = js "https:"))
  && bool_decide (origin resolvedUrl = baseOrigin).

Section Extract.
(** [new URL(input)] and [new URL(input, base)]: the URL parser of the
    platform, which throws on a string that does not parse. *)
Variable URL_new : jsstring -> option jsstring -> completion jsstring ParsedUrl.

(** [links] are the [href] attributes of the anchors of the page, in
    document order. *)
Definition extractAllUrlsWithSameBaseUrl (url : jsstring) (links : list jsstring)
  : completion jsstring (list jsstring) :=
  bind (URL_new url None) (fun base =>
    let baseOrigin := origin base in
    Normal
      (fold_left
         (fun uniqueUrls href_ =>
            let trimmedHref := trim href_ in
            if trimmedHref is [] then uniqueUrls
            else
              match URL_new trimmedHref (Some url) with
              | Throw _ => uniqueUrls
              | Normal resolvedUrl =>
                  if same_origin baseOrigin resolvedUrl
                  then set_add (href resolvedUrl) uniqueUrls
                  else uniqueUrls
              end)
         links [])).
End Extract.

End Browser.

(* ================================================================== *)
(** ** The file of a page (crawler.ts, WebsiteCrawler.savePage) *)
(* ================================================================== *)

Module Pages.

(** [s.replace(/\//g, "_")]. *)
Definition replace_slashes (s : jsstring) : jsstring :=
  map (fun c => if (c =? 47)%N then 95%N else c) s.

(** [urlPath.replace(/\//g, "_") || "index"]. *)
Definition page_stem (urlPath : jsstring) : jsstring :=
  if replace_slashes urlPath is [] then js "index" else replace_slashes urlPath.

(** The name of the file savePage writes in the output directory, for a
    page whose URL has the path [urlPath]. *)
Definition page_file_name (urlPath : jsstring) : jsstring :=
  page_stem urlPath ++ js ".json".

End Pages.

(* ================================================================== *)
(** ** search_website and recrawl_website (tools.ts, the revision whose
       handleSearchWebsite deduplicates by URL) and the tool dispatch
       (server.ts) *)
(* ================================================================== *)

Module SearchWebsite.
Import Tools.

Record SearchWebsiteArgs := {
  a_url : option jsstring;
  a_queries : option (list jsstring);
  a_limit : option Z;
  a_forceCrawl : option bool
}.

(** [arr.join(", ")]. *)
Fixpoint join_comma (arr : list jsstring) : jsstring :=
  match arr with
  | [] => []
  | [x] => x
  | x :: rest => x ++ js ", " ++ join_comma rest
  end.

(** [{ ...r, relevance: parseFloat((1 - r.distance).toFixed(4)) }]; the
    result has no [matchedQueries]. *)
Definition ranked (r : SearchResult) : RankedResult :=
  {| url := sr_url r; title := sr_title r; content := sr_content r;
     distance := sr_distance r; relevance := relevance_of (sr_distance r);
     matchedQueries := [] |}.

(** The callback of the [reduce]: a result replaces the one kept for its
    URL when its relevance is greater. *)
Definition keep_best (map : list (jsstring * RankedResult)) (result : RankedResult)
  : list (jsstring * RankedResult) :=
  match map_get (url result) map with
  | None => map_set (url result) result map
  | Some existing =>
      if (relevance existing <? relevance result)%Z
      then map_set (url result) result map
      else map
  end.

Definition invalid_search_website : exn :=
  new_McpError InvalidParams
    (js "URL and at least 3 diverse search queries are required").


Section Handlers.
Variables DATA_ROOT_DIR WEBSITES_DIR INDEX_DIR : jsstring.
(** [await ensureDirectory(dirPath)]. *)
Variable ensureDirectory : jsstring -> completion exn unit.
Variable getWebsiteDirectory : jsstring -> option jsstring.
Variable getWebsiteStoragePath : jsstring -> jsstring.
(** [new WebsiteCrawler(jobId, url, outputDir)], [await crawler.crawl()]
    and [crawlJobs.get(jobId)]: the job of the crawl, [None] when the
    Map has none. *)
Variable crawl : jsstring -> jsstring -> completion exn (option Crawler.CrawlJob).
(** Writing [metadata.json] in the output directory. *)
Variable writeMetadata : jsstring -> jsstring -> nat -> completion exn unit.
Variable getInstance : completion exn unit.
(** [await db.indexDocuments(outputDir)]. *)
Variable indexDocuments : jsstring -> completion exn nat.
(** [await db.search(q, limit)]; it catches its own errors. *)
Variable search : jsstring -> Z -> list SearchResult.
Variable toLowerCase : jsstring -> jsstring.

Definition allResults (queries : list jsstring) (limit : Z) : list RankedResult :=
  flat_map (fun q => map ranked (search q limit)) queries.

Definition uniqueResults (queries : list jsstring) (limit : Z) : list RankedResult :=
  slice0 limit
    (stable_sort (fun a b => (relevance b <=? relevance a)%Z)
       (map_values (fold_left keep_best (allResults queries limit) []))).

(** The filter that computes [matchedQueries]: a query matches when the
    content, in lower case, includes one of its terms of more than three
    code units. *)
Definition query_matches (content_ query : jsstring) : bool :=
  existsb (fun term => Relevant.includes (toLowerCase content_) term)
    (Relevant.key_terms toLowerCase query).

(** [{ ...formatSearchResult(result), matchedQueries: queries.filter(...) }]. *)
Definition output (queries : list jsstring) (result : RankedResult) : FormattedResult :=
  let formatted := Format.formatSearchResult result in
  {| f_url := f_url formatted; f_title := f_title formatted;
     f_content := f_content formatted; f_relevance := f_relevance formatted;
     f_matchedQueries :=
       filter (fun q => query_matches (content result) q = true) queries |}.

(** The crawl of a site that needs it, up to the metadata file. *)
Definition crawl_site (url_ outputDir : jsstring) : completion exn unit :=
  bind (ensureDirectory outputDir) (fun _ =>
  bind (crawl url_ outputDir) (fun job =>
    match job with
    | None => Throw (OtherError (js "Crawl failed: undefined"))
    | Some job =>
        if (if Crawler.status job is Crawler.failed then true else false)
           || (0 <? length (Crawler.errors job))
        then Throw (OtherError (js "Crawl failed: " ++ join_comma (Crawler.errors job)))
        else writeMetadata outputDir url_ (Crawler.pagesProcessed job)
    end)).

Definition handleSearchWebsite (args : SearchWebsiteArgs)
  : completion exn (list FormattedResult) :=
  let limit := default 5%Z (a_limit args) in
  let forceCrawl := default false (a_forceCrawl args) in
  match truthy (a_url args), a_queries args with
  | Some url_, Some queries =>
      if length queries <? 3 then Throw invalid_search_website
      else
        try_catch
          (bind (ensureDirectory DATA_ROOT_DIR) (fun _ =>
           bind (ensureDirectory WEBSITES_DIR) (fun _ =>
           bind (ensureDirectory INDEX_DIR) (fun _ =>
           let websiteDir := getWebsiteDirectory url_ in
           let needsCrawling := forceCrawl || bool_decide (websiteDir = None) in
           let outputDir := default (getWebsiteStoragePath url_) websiteDir in
           bind (if needsCrawling then crawl_site url_ outputDir else Normal tt) (fun _ =>
           bind getInstance (fun _ =>
           bind (if needsCrawling
                 then bind (indexDocuments outputDir) (fun _ => Normal tt)
                 else Normal tt) (fun _ =>
           Normal (map (output queries) (uniqueResults queries limit)))))))))
          (fun error =>
             Throw (new_McpError InternalError
                      (js "Search operation failed: " ++ error_message error)))
  | _, _ => Throw invalid_search_website
  end.


End Handlers.

(** *** The tool dispatch of server.ts *)

Section CallTool.
(** The four handlers applied to the arguments of the request, their
    results as the text of [JSON.stringify(result, null, 2)]. *)
Variables search_website list_crawled_websites recrawl_website search_existing_data
  : completion exn jsstring.

Definition callTool (name : jsstring) : completion exn jsstring :=
  try_catch
    (if bool_decide (name = js "search_website") then search_website
     else if bool_decide (name = js "list_crawled_websites") then list_crawled_websites
     else if bool_decide (name = js "recrawl_website") then recrawl_website
     else if bool_decide (name = js "search_existing_data") then search_existing_data
     else Throw (new_McpError MethodNotFound (js "Unknown tool: " ++ name)))
    (fun error =>
       match error with
       | McpError _ _ => Throw error
       | OtherError errorMessage => Throw (new_McpError InternalError errorMessage)
       end).
End CallTool.

End SearchWebsite.

(* ################################################################## *)
(** * Properties *)
(* ################################################################## *)

Module JSFacts.

Lemma js_inj s1 s2 : js s1 = js s2 -> s1 = s2.
Proof.
  unfold js. intros H.
  rewrite <- (string_of_list_ascii_of_string s1), <- (string_of_list_ascii_of_string s2).
  f_equal. revert H.
  generalize (list_ascii_of_string s1) (list_ascii_of_string s2).
  induction l as [|a l IH]; intros [|b l']; simpl; intros H; try done.
  injection H as Hab Hl. f_equal; [|by apply IH].
  by rewrite <- (ascii_N_embedding a), <- (ascii_N_embedding b), Hab.
Qed.

Lemma to_uint_not_Nil n : Nat.to_uint n <> Decimal.Nil.
Proof.
  intros H. pose proof (Unsigned.of_to n) as Hn. rewrite H in Hn.
  simpl in Hn. subst n. discriminate H.
Qed.

(** Distinct indices have distinct decimal strings. *)
Lemma decimal_inj n m : decimal n = decimal m -> n = m.
Proof.
  unfold decimal. intros H. apply js_inj in H.
  apply (f_equal NilZero.uint_of_string) in H.
  rewrite !NilZero.usu in H by apply to_uint_not_Nil.
  injection H as H. by apply Unsigned.to_uint_inj.
Qed.

Example split_ws_plain :
  split_ws (js "a  b") = [js "a"; js "b"].
Proof. reflexivity. Qed.

Example split_ws_edges :
  split_ws (js " a ") = [[]; js "a"; []] /\ split_ws [] = [[]]
  /\ split_ws (js " ") = [[]; []].
Proof. repeat split; reflexivity. Qed.

End JSFacts.

(* ================================================================== *)
(** ** The chunker *)
(* ================================================================== *)

Module ChunkerFacts.
Import Chunker.

(** A word holds no white space. *)
Definition nospace (w : jsstring) : Prop :=
  forallb (fun c => negb (is_space c)) w = true.

(** Every word but the last is non-empty. *)
Fixpoint tail_ok (ws : list jsstring) : Prop :=
  match ws with
  | [] => True
  | w :: rest =>
      match rest with
      | [] => nospace w
      | _ :: _ => nospace w /\ w <> [] /\ tail_ok rest
      end
  end.

(** The shape of [s.split(/\s+/)]: at least one word, none with white
    space inside, and only the first and the last may be empty. *)
Definition words_ok (ws : list jsstring) : Prop :=
  match ws with
  | [] => False
  | w :: rest => nospace w /\ tail_ok rest
  end.

Lemma split_go_nonempty b s : split_go b s <> [].
Proof.
  revert b. induction s as [|c s IH]; intros b; simpl; [done|].
  destruct (is_space c).
  - destruct b; [apply IH | done].
  - destruct (split_go false s); done.
Qed.

Lemma tail_ok_inv w rest : tail_ok (w :: rest) -> nospace w /\ tail_ok rest.
Proof. destruct rest; simpl; tauto. Qed.

Lemma tail_ok_words_ok ws : ws <> [] -> tail_ok ws -> words_ok ws.
Proof.
  destruct ws as [|w rest]; [done|]. intros _ H.
  apply tail_ok_inv in H. exact H.
Qed.

Lemma split_go_shape s :
  words_ok (split_go false s) /\ tail_ok (split_go true s).
Proof.
  induction s as [|c s [IHf IHt]]; simpl.
  - unfold nospace. simpl. tauto.
  - destruct (is_space c) eqn:Hc.
    + split; [|exact IHt]. split; [reflexivity | exact IHt].
    + destruct (split_go false s) as [|x xs] eqn:Hs; [destruct IHf|].
      destruct IHf as [Hx Hxs].
      assert (Hcx : nospace (c :: x)).
      { unfold nospace in *. simpl. rewrite Hc, Hx. reflexivity. }
      split; [split; assumption|].
      destruct xs; simpl; [assumption|].
      repeat split; try assumption; try done.
      all: simpl in Hxs; tauto.
Qed.

Lemma split_ws_words_ok s : words_ok (split_ws s).
Proof. apply split_go_shape. Qed.

Lemma split_go_prepend w s b :
  nospace w -> w <> [] \/ b = false ->
  split_go b (w ++ s) =
    match split_go false s with
    | x :: xs => (w ++ x) :: xs
    | [] => [w]
    end.
Proof.
  revert b. induction w as [|c w IH]; intros b Hw Hb.
  - destruct Hb as [Hb | ->]; [done|]. simpl.
    destruct (split_go false s) eqn:E; [|done].
    by apply split_go_nonempty in E.
  - unfold nospace in Hw. simpl in Hw.
    apply andb_true_iff in Hw as [Hc Hw].
    apply negb_true_iff in Hc. simpl. rewrite Hc.
    rewrite (IH false Hw (or_intror eq_refl)).
    destruct (split_go false s); reflexivity.
Qed.

Lemma split_go_word w b :
  nospace w -> w <> [] \/ b = false -> split_go b w = [w].
Proof.
  intros Hw Hb. rewrite <- (app_nil_r w) at 1.
  rewrite (split_go_prepend w [] b Hw Hb). simpl. by rewrite app_nil_r.
Qed.

Lemma split_go_join_tail rest :
  rest <> [] -> tail_ok rest -> split_go true (join_space rest) = rest.
Proof.
  induction rest as [|w rest IH]; [done|]. intros _ H.
  destruct rest as [|w' rest'].
  - simpl in *. destruct w as [|c w]; [reflexivity|].
    apply split_go_word; [assumption | by left].
  - destruct H as (Hw & Hne & Hrest).
    change (join_space (w :: w' :: rest'))
      with (w ++ 32%N :: join_space (w' :: rest')).
    rewrite split_go_prepend by (assumption || by left).
    change (split_go false (32%N :: join_space (w' :: rest')))
      with ([] :: split_go true (join_space (w' :: rest'))).
    rewrite IH by done. by rewrite app_nil_r.
Qed.

(** Joining with single spaces and splitting again gives the words back. *)
Lemma split_join ws : words_ok ws -> split_ws (join_space ws) = ws.
Proof.
  destruct ws as [|w rest]; [done|]. intros [Hw Hrest]. unfold split_ws.
  destruct rest as [|w' rest'].
  - apply split_go_word; [assumption | by right].
  - change (join_space (w :: w' :: rest'))
      with (w ++ 32%N :: join_space (w' :: rest')).
    rewrite split_go_prepend by (assumption || by right).
    change (split_go false (32%N :: join_space (w' :: rest')))
      with ([] :: split_go true (join_space (w' :: rest'))).
    rewrite split_go_join_tail by done. by rewrite app_nil_r.
Qed.

Lemma tail_ok_drop k ws : tail_ok ws -> tail_ok (drop k ws).
Proof.
  revert ws. induction k as [|k IH]; intros ws H; [by rewrite drop_0|].
  destruct ws as [|w rest]; [done|]. simpl.
  apply IH. by apply tail_ok_inv in H as [_ H].
Qed.

Lemma tail_ok_take k ws : tail_ok ws -> tail_ok (take k ws).
Proof.
  revert k. induction ws as [|w rest IH]; intros k H; [by destruct k|].
  destruct k as [|k]; [done|].
  change (take (S k) (w :: rest)) with (w :: take k rest).
  destruct rest as [|w' rest'].
  - destruct k; exact H.
  - destruct H as (Hw & Hne & Hrest). specialize (IH k Hrest).
    destruct (take k (w' :: rest')) eqn:E; [exact Hw|].
    split; [exact Hw|]. split; [exact Hne | exact IH].
Qed.

Lemma words_ok_slice start end_ ws :
  words_ok ws -> start < end_ -> start < length ws ->
  words_ok (slice start end_ ws).
Proof.
  intros Hws Hlt Hlen. unfold slice.
  assert (Hd : words_ok (drop start ws)).
  { destruct start as [|k]; [by rewrite drop_0|].
    destruct ws as [|w rest]; [done|]. destruct Hws as [_ Hrest]. simpl.
    apply tail_ok_words_ok; [|by apply tail_ok_drop].
    intros E. apply (f_equal length) in E.
    rewrite length_drop in E. simpl in *. lia. }
  destruct (drop start ws) as [|w rest]; [done|].
  destruct (end_ - start) as [|k] eqn:E; [lia|].
  destruct Hd as [Hw Hrest]. simpl. split; [assumption|].
  by apply tail_ok_take.
Qed.

Section SlidingWindowFacts.
Variables (W O : nat).
Hypothesis HOW : O < W.

(** Window [i] is the slice that starts [i * (W - O)] words after the
    first window's start and is [W] words long, or shorter at the end. *)
Lemma window_loop_lookup fuel words start i w :
  window_loop W O fuel words start !! i = Some w ->
  start + i * (W - O) < length words /\
  w = slice (start + i * (W - O))
        (Nat.min (start + i * (W - O) + W) (length words)) words.
Proof.
  clear HOW.
  revert start i. induction fuel as [|fuel IH]; intros start i; simpl; [done|].
  destruct (start <? length words) eqn:Hs; [|done].
  apply Nat.ltb_lt in Hs. destruct i as [|i]; simpl.
  - intros [= <-]. rewrite Nat.add_0_r. done.
  - destruct (Nat.min (start + W) (length words) =? length words); [done|].
    intros H. apply IH in H as [H1 H2].
    replace (start + (W - O + i * (W - O)))
      with (start + (W - O) + i * (W - O)) by lia.
    done.
Qed.

(** With one unit of fuel per remaining word the loop leaves through its
    [break]: the windows are those of any larger fuel, there is at least
    one, and the last one ends at [words.length]. *)
Lemma window_loop_fuel fuel words start :
  start < length words -> length words <= start + fuel ->
  exists n,
    length (window_loop W O fuel words start) = S n /\
    start + n * (W - O) < length words <= start + n * (W - O) + W /\
    forall fuel', fuel <= fuel' ->
      window_loop W O fuel' words start = window_loop W O fuel words start.
Proof.
  revert start. induction fuel as [|fuel IH]; intros start Hs Hf; [lia|].
  simpl. pose proof Hs as Hs'. apply Nat.ltb_lt in Hs'. rewrite Hs'.
  destruct (Nat.min (start + W) (length words) =? length words) eqn:He.
  - apply Nat.eqb_eq in He. exists 0. simpl. repeat split; try lia.
    intros [|fuel'] Hle; [lia|]. simpl. rewrite Hs'.
    apply Nat.eqb_eq in He. by rewrite He.
  - apply Nat.eqb_neq in He.
    destruct (IH (start + (W - O))) as (n & Hn & Hb & Hirr); [lia | lia |].
    exists (S n). simpl. rewrite Hn. repeat split; try lia.
    intros [|fuel'] Hle; [lia|]. simpl. rewrite Hs'.
    apply Nat.eqb_neq in He. rewrite He. f_equal. apply Hirr. lia.
Qed.

(** The windows without their first [O] words are the words after the
    first [O] ones of the first window. *)
Lemma window_loop_concat fuel words start :
  start < length words -> length words <= start + fuel ->
  concat (map (drop O) (window_loop W O fuel words start))
  = drop (start + O) words.
Proof.
  revert start. induction fuel as [|fuel IH]; intros start Hs Hf; [lia|].
  simpl. pose proof Hs as Hs'. apply Nat.ltb_lt in Hs'. rewrite Hs'.
  unfold slice.
  destruct (Nat.min (start + W) (length words) =? length words) eqn:He.
  - apply Nat.eqb_eq in He. simpl. rewrite app_nil_r.
    rewrite take_ge by (rewrite length_drop; lia).
    by rewrite drop_drop.
  - apply Nat.eqb_neq in He. simpl.
    rewrite IH by lia.
    replace (Nat.min (start + W) (length words) - start) with W by lia.
    replace (start + (W - O) + O) with (start + O + (W - O)) by lia.
    rewrite <- (drop_drop words (W - O) (start + O)).
    rewrite <- (take_drop (W - O) (drop (start + O) words)) at 2.
    f_equal.
    rewrite <- (drop_drop words O start).
    rewrite skipn_firstn_comm. done.
Qed.

Lemma windows_remove_overlap words :
  words <> [] -> remove_overlap O (windows W O words) = words.
Proof.
  intros Hne. assert (0 < length words) by (destruct words; simpl; [done|lia]).
  unfold windows. destruct (length words) as [|fuel] eqn:Hl; [lia|].
  simpl. rewrite Hl. simpl. rewrite <- Hl. unfold slice.
  rewrite drop_0, Nat.sub_0_r.
  destruct (Nat.min W (length words) =? length words) eqn:He.
  - apply Nat.eqb_eq in He. simpl. rewrite app_nil_r.
    apply take_ge. lia.
  - apply Nat.eqb_neq in He.
    rewrite window_loop_concat by lia.
    replace (W - O + O) with W by lia.
    replace (Nat.min W (length words)) with W by lia.
    apply take_drop.
Qed.

End SlidingWindowFacts.

Lemma overlap_lt_chunkSize : overlap < chunkSize.
Proof. apply Nat.ltb_lt. vm_compute. reflexivity. Qed.

Lemma windows_words_ok W O words :
  0 < W -> words_ok words -> Forall words_ok (windows W O words).
Proof.
  intros HW Hok. apply Forall_forall. intros w Hin.
  apply list_elem_of_lookup in Hin as [i Hi].
  apply window_loop_lookup in Hi as [Hlt ->].
  apply words_ok_slice; [assumption | lia | lia].
Qed.

Lemma map_split_join ws :
  Forall words_ok ws -> map split_ws (map join_space ws) = ws.
Proof.
  induction 1 as [|w ws Hw _ IH]; simpl; [done|].
  by rewrite split_join, IH.
Qed.

Example chunk_short_text :
  chunkMarkdownSlidingWindow (js "alpha  beta gamma") = [js "alpha beta gamma"].
Proof. vm_compute. reflexivity. Qed.

Example chunk_600_words :
  map (fun c => length (split_ws c))
      (chunkMarkdownSlidingWindow (join_space (repeat (js "w") 600)))
  = [500; 165].
Proof. vm_compute. reflexivity. Qed.

(** C2.  For every text, with [words = markdown.split(/\s+/)], window
    size 500 and overlap 65: chunk [i] is the words from offset
    [i * (500 - 65)] on, 500 of them or fewer at the end of the text,
    joined by single spaces; there is a last chunk and it ends with the
    last word; and the chunks, split back into words, with the first 65
    words of every chunk but the first removed, concatenate to [words]. *)
Theorem chunk_sliding_window_covers (markdown : jsstring) :
  let words := split_ws markdown in
  let chunks := chunkMarkdownSlidingWindow markdown in
  let step := chunkSize - overlap in
  (forall i c, chunks !! i = Some c ->
     i * step < length words /\
     c = join_space
           (slice (i * step) (Nat.min (i * step + chunkSize) (length words))
              words))
  /\ (exists n, length chunks = S n /\
        chunks !! n
        = Some (join_space (slice (n * step) (length words) words)))
  /\ remove_overlap overlap (map split_ws chunks) = words.
Proof.
  intros words chunks step.
  pose proof overlap_lt_chunkSize as HOW.
  assert (Hne : words <> []) by apply split_go_nonempty.
  assert (Hlen : 0 < length words) by (destruct words; simpl; [done | lia]).
  assert (Hlookup : forall i c, chunks !! i = Some c ->
     i * step < length words /\
     c = join_space
           (slice (i * step) (Nat.min (i * step + chunkSize) (length words))
              words)).
  { intros i c Hc. subst chunks. unfold chunkMarkdownSlidingWindow, chunk_words in Hc.
    fold words in Hc.
    change (map join_space ?l) with (join_space <$> l) in Hc.
    rewrite list_lookup_fmap in Hc.
    destruct (windows chunkSize overlap words !! i) as [w|] eqn:Hw; [|done].
    apply window_loop_lookup in Hw as [Hlt ->].
    simpl in Hc. injection Hc as <-. done. }
  split; [exact Hlookup|]. split.
  - destruct (window_loop_fuel chunkSize overlap HOW (length words) words 0)
      as (n & Hn & Hb & _); [lia | lia |].
    exists n. fold step in Hb.
    assert (Hcl : length chunks = S n).
    { subst chunks. unfold chunkMarkdownSlidingWindow, chunk_words.
      fold words. rewrite length_map. exact Hn. }
    split; [exact Hcl|].
    destruct (chunks !! n) as [c|] eqn:Hc.
    + apply Hlookup in Hc as [_ ->]. do 2 f_equal.
      replace (Nat.min (n * step + chunkSize) (length words))
        with (length words) by lia.
      done.
    + apply lookup_ge_None in Hc. lia.
  - subst chunks. unfold chunkMarkdownSlidingWindow, chunk_words. fold words.
    rewrite map_split_join.
    + apply windows_remove_overlap; assumption.
    + apply windows_words_ok; [lia | apply split_ws_words_ok].
Qed.

End ChunkerFacts.

(* ================================================================== *)
(** ** URL normalisation *)
(* ================================================================== *)

Module UrlFacts.
Import Url.

Example href_model_examples :
  href_model (js "https://example.com") [] = Normal (js "https://example.com/")
  /\ href_model (js "https://example.com/docs/#intro") []
     = Normal (js "https://example.com/docs/#intro")
  /\ href_model (js "https://example.com/a/b?x=1") []
     = Normal (js "https://example.com/a/b?x=1")
  /\ href_model (js "http://") [] = Throw invalid_url.
Proof. repeat split; vm_compute; reflexivity. Qed.

Section NormalizeUrlFacts.
Variable URL_href : jsstring -> jsstring -> completion jsstring jsstring.

(** C10.  Whatever the platform's parser answers, [normalizeUrl] returns
    a string and throws nothing; when the parser throws on [url] with
    base [baseUrl], the string returned is the empty one. *)
Theorem normalizeUrl_never_throws (url baseUrl : jsstring) :
  (exists s, normalizeUrl URL_href url baseUrl = Normal s)
  /\ (forall e, URL_href url baseUrl = Throw e ->
        normalizeUrl URL_href url baseUrl = Normal []).
Proof.
  unfold normalizeUrl, try_catch, bind.
  destruct (URL_href url baseUrl) as [href|e]; split; eauto; intros; done.
Qed.

Lemma replace_trailing_slash_snoc s : replace_trailing_slash (s ++ [47%N]) = s.
Proof. unfold replace_trailing_slash. by rewrite rev_unit, rev_involutive. Qed.

Lemma split_hash_0_app p x :
  35%N ∉ p -> split_hash_0 (p ++ 35%N :: x) = p.
Proof.
  induction p as [|c p IH]; intros Hp; simpl; [done|].
  apply not_elem_of_cons in Hp as [Hc Hp].
  destruct (c =? 35)%N eqn:E; [apply N.eqb_eq in E; congruence|].
  by rewrite IH.
Qed.

Lemma split_hash_0_none p : 35%N ∉ p -> split_hash_0 p = p.
Proof.
  induction p as [|c p IH]; intros Hp; simpl; [done|].
  apply not_elem_of_cons in Hp as [Hc Hp].
  destruct (c =? 35)%N eqn:E; [apply N.eqb_eq in E; congruence|].
  by rewrite IH.
Qed.

(** The replacement touches the fragment at most: what precedes the "#"
    stays. *)
Lemma replace_trailing_slash_fragment p f :
  exists f', replace_trailing_slash (p ++ 35%N :: f) = p ++ 35%N :: f'.
Proof.
  destruct (rev f) as [|c r] eqn:E.
  - apply (f_equal (@rev N)) in E. rewrite rev_involutive in E. subst f.
    exists []. unfold replace_trailing_slash. by rewrite rev_unit.
  - apply (f_equal (@rev N)) in E. rewrite rev_involutive in E. subst f.
    simpl. unfold replace_trailing_slash.
    replace (p ++ 35%N :: rev r ++ [c]) with ((p ++ 35%N :: rev r) ++ [c])
      by (by rewrite <- app_assoc).
    rewrite rev_unit. destruct (decide (c = 47%N)) as [->|Hc].
    + exists (rev r). by rewrite rev_involutive.
    + exists (rev r ++ [c]). rewrite <- app_assoc. simpl.
      destruct c as [|c]; [done|].
      repeat (destruct c as [c|c|]; try done).
Qed.

(** For any parser: when the href of [u] has a "/" right before its
    fragment, [u] is normalised to a string that ends in "/"; and when
    that string is its own href, normalising it removes the "/". *)
Lemma normalizeUrl_slash_before_fragment (u baseUrl p f : jsstring) :
  35%N ∉ p ->
  URL_href u baseUrl = Normal (p ++ js "/#" ++ f) ->
  URL_href (p ++ js "/") baseUrl = Normal (p ++ js "/") ->
  normalizeUrl URL_href u baseUrl = Normal (p ++ js "/")
  /\ normalizeUrl URL_href (p ++ js "/") baseUrl = Normal p.
Proof.
  intros Hp Hu Hn. unfold normalizeUrl, try_catch, bind. rewrite Hu, Hn. split.
  - f_equal.
    destruct (replace_trailing_slash_fragment (p ++ js "/") f) as [f' Hf].
    change (js "/#" ++ f) with (js "/" ++ 35%N :: f).
    rewrite app_assoc, Hf. apply split_hash_0_app.
    intros Hin. apply elem_of_app in Hin as [Hin|Hin]; [done|].
    apply list_elem_of_singleton in Hin. done.
  - f_equal. change (js "/") with [47%N].
    rewrite replace_trailing_slash_snoc. by apply split_hash_0_none.
Qed.

End NormalizeUrlFacts.

(** A string with an empty host does not parse, and is normalised to "". *)
Lemma normalizeUrl_never_throws_witness :
  normalizeUrl href_model (js "http://") (js "https://example.com/") = Normal [].
Proof.
  exact (proj2 (normalizeUrl_never_throws href_model (js "http://")
                  (js "https://example.com/")) invalid_url eq_refl).
Defined.

(** C7 at ["https://example.com/docs/#intro"]: the "/" is looked for at
    the end of the href, where the fragment stands, so the first
    normalisation keeps the "/" before the "#"; normalising its result
    removes it. *)
Theorem normalizeUrl_twice_differs :
  let baseUrl := js "https://example.com/" in
  let once := normalizeUrl_value href_model (js "https://example.com/docs/#intro") baseUrl in
  let twice := normalizeUrl_value href_model once baseUrl in
  once = js "https://example.com/docs/"
  /\ twice = js "https://example.com/docs"
  /\ twice <> once.
Proof. vm_compute. repeat split. discriminate. Qed.

End UrlFacts.

(* ================================================================== *)
(** ** Cosine similarity *)
(* ================================================================== *)

Module CosineFacts.
Import Cosine.
Local Open Scope R_scope.

Lemma cosine_loop_acc (a b : list R) (d m1 m2 : R) :
  length a = length b ->
  cosine_loop a b (d, m1, m2) = (d + dot a b, m1 + dot a a, m2 + dot b b).
Proof.
  revert b d m1 m2. induction a as [|x a IH]; intros [|y b] d m1 m2 Hlen;
    simpl in Hlen; try discriminate; simpl.
  - f_equal; [f_equal|]; ring.
  - rewrite IH by (injection Hlen; auto). f_equal; [f_equal|]; ring.
Qed.

(** On vectors of different lengths only the common prefix is read. *)
Lemma cosine_loop_prefix (a b : list R) (acc : R * R * R) :
  cosine_loop a b acc
  = cosine_loop (take (Nat.min (length a) (length b)) a)
      (take (Nat.min (length a) (length b)) b) acc.
Proof.
  revert b acc.
  induction a as [|x a IH]; intros [|y b] [[d m1] m2]; simpl; first [done | apply IH].
Qed.

(** On vectors of one dimension the accumulators are the dot products. *)
Lemma computeCosineSimilarity_unfold (a b : list R) :
  length a = length b ->
  computeCosineSimilarity a b
  = if Req_dec_T (norm a) 0 then 0
    else if Req_dec_T (norm b) 0 then 0
    else dot a b / (norm a * norm b).
Proof.
  intros Hlen. unfold computeCosineSimilarity, norm.
  rewrite cosine_loop_acc by exact Hlen. by rewrite !Rplus_0_l.
Qed.

(** Vectors of different lengths are compared on their common prefix. *)
Lemma computeCosineSimilarity_prefix (a b : list R) :
  computeCosineSimilarity a b
  = computeCosineSimilarity (take (Nat.min (length a) (length b)) a)
      (take (Nat.min (length a) (length b)) b).
Proof.
  unfold computeCosineSimilarity. rewrite (cosine_loop_prefix a b).
  rewrite (cosine_loop_prefix (take _ a) (take _ b)).
  rewrite !length_take.
  replace (Nat.min (Nat.min (Nat.min (length a) (length b)) (length a))
             (Nat.min (Nat.min (length a) (length b)) (length b)))
    with (Nat.min (length a) (length b)) by lia.
  by rewrite !take_take, Nat.min_id.
Qed.

Example cosine_3_4 : computeCosineSimilarity [3; 4] [4; 3] = 24 / 25.
Proof.
  assert (H5 : sqrt 25 = 5).
  { replace 25 with (5 * 5) by ring. apply sqrt_square. lra. }
  assert (Hn : forall v, v = [3; 4] \/ v = [4; 3] -> norm v = 5).
  { intros v [-> | ->]; unfold norm; simpl; rewrite <- H5; f_equal; ring. }
  rewrite computeCosineSimilarity_unfold by reflexivity.
  rewrite !Hn by auto.
  destruct (Req_dec_T 5 0) as [H|_]; [lra|]. simpl. field.
Qed.

End CosineFacts.

(* ================================================================== *)
(** ** Cosine similarity on doubles *)
(* ================================================================== *)

Module Cosine64Facts.
Import PrimFloat FloatOps Cosine64.
Local Open Scope float_scope.







(** The three values as the program prints them. *)
Example computeCosineSimilarity_values :
  computeCosineSimilarity [1; 3] [1; 3] = 0x1.ffffffffffffep-1
  /\ computeCosineSimilarity [3; 4] [4; 3] = 0x1.eb851eb851eb8p-1
  /\ computeCosineSimilarity [1; 0] [0; 1] = 0.
Proof. repeat split; vm_compute; reflexivity. Qed.

End Cosine64Facts.

(* ================================================================== *)
(** ** Arrays and Maps *)
(* ================================================================== *)

Module RuntimeFacts.

Section ArrayFacts.
Context {A : Type}.

Lemma insert_sorted_perm (before : A -> A -> bool) x l :
  insert_sorted before x l ≡ₚ x :: l.
Proof.
  induction l as [|y l IH]; simpl; [done|].
  destruct (before x y); [done|]. rewrite IH. apply Permutation_swap.
Qed.

Lemma stable_sort_perm (before : A -> A -> bool) l : stable_sort before l ≡ₚ l.
Proof.
  induction l as [|x l IH]; simpl; [done|].
  rewrite insert_sorted_perm. by rewrite IH.
Qed.

Lemma slice0_sublist (n : Z) (l : list A) : slice0 n l `sublist_of` l.
Proof. apply sublist_take. Qed.
End ArrayFacts.

Section MapFacts.
Context {K V : Type} `{EqDecision K}.
Implicit Types (m : list (K * V)).

Lemma map_get_set k v m k' :
  map_get k' (map_set k v m) = if decide (k = k') then Some v else map_get k' m.
Proof.
  induction m as [|[k0 v0] m IH]; simpl.
  - destruct (decide (k = k')); done.
  - destruct (decide (k0 = k)) as [->|Hne]; simpl.
    + destruct (decide (k = k')); done.
    + destruct (decide (k0 = k')) as [->|Hne'].
      * destruct (decide (k = k')); [congruence | done].
      * exact IH.
Qed.

Lemma map_set_keys k v m :
  map fst (map_set k v m)
  = match map_get k m with
    | Some _ => map fst m
    | None => map fst m ++ [k]
    end.
Proof.
  induction m as [|[k0 v0] m IH]; simpl; [done|].
  destruct (decide (k0 = k)) as [->|Hne]; simpl; [done|].
  rewrite IH. destruct (map_get k m); done.
Qed.

Lemma map_get_None k m : map_get k m = None <-> k ∉ map fst m.
Proof.
  induction m as [|[k0 v0] m IH]; simpl.
  - split; [intros _; apply not_elem_of_nil | done].
  - rewrite not_elem_of_cons. destruct (decide (k0 = k)) as [->|Hne].
    + split; [done | intros [? _]; done].
    + rewrite IH. split; [intros ?; split; [congruence | done] | tauto].
Qed.

Lemma map_set_NoDup k v m : NoDup (map fst m) -> NoDup (map fst (map_set k v m)).
Proof.
  intros Hnd. rewrite map_set_keys.
  destruct (map_get k m) eqn:E; [done|].
  apply map_get_None in E.
  apply NoDup_app. split; [done|]. split; [|apply NoDup_singleton].
  intros x Hx Hx'. apply list_elem_of_singleton in Hx'. by subst.
Qed.

Lemma map_get_elem k v m : map_get k m = Some v -> (k, v) ∈ m.
Proof.
  induction m as [|[k0 v0] m IH]; simpl; [done|].
  destruct (decide (k0 = k)) as [->|Hne].
  - intros [= ->]. apply elem_of_cons. by left.
  - intros H. apply elem_of_cons. right. by apply IH.
Qed.

Lemma elem_map_get k v m : NoDup (map fst m) -> (k, v) ∈ m -> map_get k m = Some v.
Proof.
  induction m as [|[k0 v0] m IH]; simpl; intros Hnd Hin.
  - by apply elem_of_nil in Hin.
  - apply NoDup_cons in Hnd as [Hk0 Hnd].
    apply elem_of_cons in Hin as [[= <- <-]|Hin].
    + by rewrite decide_True.
    + destruct (decide (k0 = k)) as [->|Hne]; [|by apply IH].
      exfalso. apply Hk0.
      change (map fst m) with (fst <$> m). apply list_elem_of_fmap.
      by exists (k, v).
Qed.
End MapFacts.

Lemma indexOf_lookup q arr : q ∈ arr -> arr !! indexOf q arr = Some q.
Proof.
  induction arr as [|x arr IH]; intros Hin; [by apply elem_of_nil in Hin|].
  simpl. destruct (decide (x = q)) as [->|Hne]; [done|].
  apply elem_of_cons in Hin as [->|Hin]; [done|]. by apply IH.
Qed.

(** The filter keeps the members of the array, each once. *)
Lemma filter_first_occurrence_elem q arr :
  q ∈ filter_first_occurrence arr <-> q ∈ arr.
Proof.
  unfold filter_first_occurrence.
  change (map snd ?l) with (snd <$> l).
  rewrite list_elem_of_fmap. split.
  - intros ([i x] & -> & Hin). apply list_elem_of_filter in Hin as [_ Hin].
    apply elem_of_lookup_imap in Hin as (j & y & [= -> ->] & Hy).
    simpl. by eapply list_elem_of_lookup_2.
  - intros Hin. exists (indexOf q arr, q). split; [done|].
    apply list_elem_of_filter. split.
    + simpl. by apply bool_decide_pack.
    + apply elem_of_lookup_imap. exists (indexOf q arr), q.
      split; [done|]. by apply indexOf_lookup.
Qed.

Example filter_first_occurrence_keeps_order :
  filter_first_occurrence [js "a"; js "b"; js "a"; js "c"; js "b"]
  = [js "a"; js "b"; js "c"].
Proof. vm_compute. reflexivity. Qed.

Example toFixed4_examples :
  toFixed4 (1 # 2) = 5000%Z /\ toFixed4 (2 # 3) = 6667%Z
  /\ toFixed4 (- (1 # 3)) = (-3333)%Z /\ toFixed4 (1 # 20000) = 1%Z.
Proof. vm_compute. repeat split. Qed.

End RuntimeFacts.

(* ================================================================== *)
(** ** Multi-query retrieval (handleSearchExistingData) *)
(* ================================================================== *)

Module ToolsFacts.
Import Tools RuntimeFacts.

(** What the Map of the reduce holds once the results [seen] have been
    folded in: one entry per URL seen, whose relevance is the greatest
    among the results of that URL and whose matched queries are theirs. *)
Definition dedupe_inv (seen : list RankedResult) (m : list (jsstring * RankedResult))
  : Prop :=
  NoDup (map fst m)
  /\ (forall h, h ∈ seen -> is_Some (map_get (url h) m))
  /\ forall k v, map_get k m = Some v ->
       url v = k
       /\ (exists h, h ∈ seen /\ url h = k /\ relevance h = relevance v)
       /\ (forall h, h ∈ seen -> url h = k -> (relevance h <= relevance v)%Z)
       /\ (forall q, q ∈ matchedQueries v <->
                     exists h, h ∈ seen /\ url h = k /\ q ∈ matchedQueries h).

Lemma dedupe_inv_nil : dedupe_inv [] [].
Proof. split; [constructor|]. split; [intros h Hh; by apply elem_of_nil in Hh | done]. Qed.

Lemma dedupe_step_inv seen m r :
  dedupe_inv seen m -> dedupe_inv (seen ++ [r]) (dedupe_step m r).
Proof.
  intros (Hnd & Hall & Hget). unfold dedupe_step.
  destruct (map_get (url r) m) as [existing|] eqn:Hr.
  - destruct (Hget _ _ Hr) as (Hurl & (h0 & Hh0 & Hh0u & Hh0r) & Hmax & Hmq).
    split; [by apply map_set_NoDup|]. split.
    + intros h Hh. rewrite map_get_set. destruct (decide (url r = url h)); [done|].
      apply elem_of_app in Hh as [Hh|Hh]; [by apply Hall|].
      apply list_elem_of_singleton in Hh. by subst.
    + intros k v. rewrite map_get_set.
      destruct (decide (url r = k)) as [<-|Hne].
      * intros [= <-]. simpl. split; [done|]. split; [|split].
        -- destruct (relevance existing <? relevance r)%Z eqn:Hlt.
           ++ exists r. split; [|done]. apply elem_of_app. right.
              by apply list_elem_of_singleton.
           ++ exists h0. split; [|done]. apply elem_of_app. by left.
        -- intros h Hh Hu.
           assert (relevance h <= relevance existing \/ h = r)%Z as [Hle| ->].
           { apply elem_of_app in Hh as [Hh|Hh]; [left; by apply Hmax|].
             right. by apply list_elem_of_singleton in Hh. }
           all: destruct (relevance existing <? relevance r)%Z eqn:Hlt; lia.
        -- intros q. rewrite filter_first_occurrence_elem, elem_of_app, Hmq.
           split.
           ++ intros [(h & Hh & Hu & Hq)|Hq].
              ** exists h. split; [apply elem_of_app; by left | done].
              ** exists r. split; [|done]. apply elem_of_app. right.
                 by apply list_elem_of_singleton.
           ++ intros (h & Hh & Hu & Hq).
              apply elem_of_app in Hh as [Hh|Hh]; [left; by exists h|].
              apply list_elem_of_singleton in Hh. subst. by right.
      * intros Hk. destruct (Hget _ _ Hk) as (Hu & (h1 & Hh1 & Hh1u & Hh1r) & Hmax1 & Hmq1).
        split; [done|]. split; [|split].
        -- exists h1. split; [apply elem_of_app; by left | done].
        -- intros h Hh Hhu. apply elem_of_app in Hh as [Hh|Hh]; [by apply Hmax1|].
           apply list_elem_of_singleton in Hh. by subst.
        -- intros q. rewrite Hmq1. split.
           ++ intros (h & Hh & Hhu & Hq). exists h.
              split; [apply elem_of_app; by left | done].
           ++ intros (h & Hh & Hhu & Hq).
              apply elem_of_app in Hh as [Hh|Hh]; [by exists h|].
              apply list_elem_of_singleton in Hh. by subst.
  - split; [by apply map_set_NoDup|]. split.
    + intros h Hh. rewrite map_get_set. destruct (decide (url r = url h)); [done|].
      apply elem_of_app in Hh as [Hh|Hh]; [by apply Hall|].
      apply list_elem_of_singleton in Hh. by subst.
    + intros k v. rewrite map_get_set.
      assert (Hnew : forall h, h ∈ seen ++ [r] -> url h = url r -> h = r).
      { intros h Hh Hu. apply elem_of_app in Hh as [Hh|Hh].
        - apply Hall in Hh. rewrite Hu, Hr in Hh. by destruct Hh.
        - by apply list_elem_of_singleton in Hh. }
      assert (Hin : r ∈ seen ++ [r]).
      { apply elem_of_app. right. by apply list_elem_of_singleton. }
      destruct (decide (url r = k)) as [<-|Hne].
      * intros [= <-]. split; [done|]. split; [by exists r|]. split.
        -- intros h Hh Hu. by rewrite (Hnew h Hh Hu).
        -- intros q. split; [intros Hq; by exists r|].
           intros (h & Hh & Hu & Hq). by rewrite (Hnew h Hh Hu) in Hq.
      * intros Hk. destruct (Hget _ _ Hk) as (Hu & (h1 & Hh1 & Hh1u & Hh1r) & Hmax1 & Hmq1).
        split; [done|]. split; [|split].
        -- exists h1. split; [apply elem_of_app; by left | done].
        -- intros h Hh Hhu. apply elem_of_app in Hh as [Hh|Hh]; [by apply Hmax1|].
           apply list_elem_of_singleton in Hh. by subst.
        -- intros q. rewrite Hmq1. split.
           ++ intros (h & Hh & Hhu & Hq). exists h.
              split; [apply elem_of_app; by left | done].
           ++ intros (h & Hh & Hhu & Hq).
              apply elem_of_app in Hh as [Hh|Hh]; [by exists h|].
              apply list_elem_of_singleton in Hh. by subst.
Qed.

Lemma dedupe_fold_inv rest seen m :
  dedupe_inv seen m -> dedupe_inv (seen ++ rest) (fold_left dedupe_step rest m).
Proof.
  revert seen m. induction rest as [|r rest IH]; intros seen m H; simpl.
  - by rewrite app_nil_r.
  - replace (seen ++ r :: rest) with ((seen ++ [r]) ++ rest)
      by (by rewrite <- app_assoc).
    apply IH. by apply dedupe_step_inv.
Qed.

Lemma map_values_keys {V} (f : V -> jsstring) (m : list (jsstring * V)) :
  (forall k v, (k, v) ∈ m -> f v = k) -> map f (map_values m) = map fst m.
Proof.
  induction m as [|[k v] m IH]; intros H; simpl; [done|].
  rewrite (H k v) by (apply elem_of_cons; by left).
  f_equal. apply IH. intros k' v' Hin. apply H. apply elem_of_cons. by right.
Qed.

Section HandlerFacts.
Variable search : jsstring -> Z -> list SearchResult.

Lemma allResults_elem h queries limit :
  h ∈ allResults search queries limit <->
  exists q s, q ∈ queries /\ s ∈ search q limit /\ h = with_relevance q s.
Proof.
  unfold allResults. rewrite list_elem_of_In, in_flat_map. split.
  - intros (q & Hq & Hh). apply in_map_iff in Hh as (s & <- & Hs).
    exists q, s. by rewrite !list_elem_of_In.
  - intros (q & s & Hq & Hs & ->). exists q. rewrite <- list_elem_of_In.
    split; [done|]. apply in_map. by rewrite <- list_elem_of_In.
Qed.

(** A result passes the URL filter by its URL alone. *)
Lemma filteredResults_elem h queries url_ limit :
  h ∈ filteredResults search queries url_ limit <->
  h ∈ allResults search queries limit
  /\ match truthy url_ with
     | Some u => startsWith (url h) u = true
     | None => True
     end.
Proof.
  unfold filteredResults. destruct (truthy url_) as [u|]; [|tauto].
  rewrite list_elem_of_filter. rewrite Is_true_true. tauto.
Qed.

(** C1, as the code has it.  In handleSearchExistingData the list
    [uniqueResults] (deduplicated by URL, ranked, cut to the limit) has
    no two results with the same URL; the relevance of each of its
    results is a relevance that URL received from some query and no
    query gave the URL a greater one; and a query is among its matched
    queries exactly when that query returned the URL. *)
Theorem uniqueResults_dedup (queries : list jsstring) (url_ : option jsstring)
    (limit : Z) :
  let unique := uniqueResults search queries url_ limit in
  NoDup (map url unique)
  /\ forall r, r ∈ unique ->
       (exists q s, q ∈ queries /\ s ∈ search q limit /\ sr_url s = url r
                    /\ relevance r = relevance_of (sr_distance s))
       /\ (forall q s, q ∈ queries -> s ∈ search q limit -> sr_url s = url r ->
              (relevance_of (sr_distance s) <= relevance r)%Z)
       /\ (forall q, q ∈ matchedQueries r <->
              q ∈ queries /\ exists s, s ∈ search q limit /\ sr_url s = url r).
Proof.
  intros unique. unfold uniqueResults in unique.
  set (l := filteredResults search queries url_ limit) in *.
  set (m := fold_left dedupe_step l []) in *.
  set (sorted := stable_sort _ _) in *.
  destruct (dedupe_fold_inv l [] [] dedupe_inv_nil) as (Hnd & Hall & Hget).
  rewrite app_nil_l in Hall, Hget. fold m in Hnd, Hall, Hget.
  assert (Hsub : unique `sublist_of` sorted) by apply slice0_sublist.
  assert (Hperm : sorted ≡ₚ map_values m) by apply stable_sort_perm.
  assert (Hkeys : map url (map_values m) = map fst m).
  { apply map_values_keys. intros k v Hin.
    apply (elem_map_get _ _ _ Hnd) in Hin. by apply Hget in Hin as [? _]. }
  split.
  - assert (Hs : NoDup (map url sorted)).
    { change (map url sorted) with (url <$> sorted). rewrite Hperm.
      change (url <$> map_values m) with (map url (map_values m)).
      by rewrite Hkeys. }
    apply (sublist_NoDup _ _ Hs).
    change (map url ?x) with (url <$> x). by apply fmap_sublist.
  - intros r Hr.
    assert (Hrm : r ∈ map_values m).
    { rewrite <- Hperm. by eapply elem_of_sublist. }
    unfold map_values in Hrm. change (map snd m) with (snd <$> m) in Hrm.
    apply list_elem_of_fmap in Hrm as ([k v] & -> & Hin). simpl.
    apply (elem_map_get _ _ _ Hnd) in Hin.
    destruct (Hget _ _ Hin) as (Hu & (h0 & Hh0 & Hh0u & Hh0r) & Hmax & Hmq).
    apply filteredResults_elem in Hh0 as [Hh0 Hpass].
    apply allResults_elem in Hh0 as (q0 & s0 & Hq0 & Hs0 & ->). simpl in *.
    assert (Hfil : forall q s, q ∈ queries -> s ∈ search q limit ->
              sr_url s = url v -> with_relevance q s ∈ l).
    { intros q s Hq Hs Hus. apply filteredResults_elem. split.
      - apply allResults_elem. by exists q, s.
      - destruct (truthy url_); [|done]. simpl. by rewrite Hus, Hu, <- Hh0u. }
    split; [|split].
    + exists q0, s0. repeat split; try done. by rewrite Hu.
    + intros q s Hq Hs Hus. apply (Hmax (with_relevance q s)).
      * by apply Hfil.
      * simpl. by rewrite Hus.
    + intros q. rewrite Hmq. split.
      * intros (h & Hh & Hhu & Hqh).
        apply filteredResults_elem in Hh as [Hh _].
        apply allResults_elem in Hh as (q1 & s1 & Hq1 & Hs1 & ->). simpl in *.
        apply list_elem_of_singleton in Hqh as ->.
        split; [done|]. exists s1. split; [done|]. by rewrite Hu.
      * intros (Hq & s & Hs & Hus). exists (with_relevance q s).
        split; [by apply Hfil|]. split; [simpl; by rewrite Hus|].
        simpl. by apply list_elem_of_singleton.
Qed.

End HandlerFacts.

(** Two queries that return the same page, the second with the smaller
    distance. *)
Definition page_a (d : Q) : SearchResult :=
  {| sr_url := js "https://docs.example/a"; sr_title := js "A";
     sr_content := js "alpha"; sr_distance := d |}.

Definition search_xy (q : jsstring) (limit : Z) : list SearchResult :=
  if decide (q = js "x") then [page_a (1 # 2)] else [page_a (1 # 10)].

Definition args_xy : SearchExistingArgs :=
  {| arg_queries := Some [js "x"; js "y"]; arg_url := None; arg_limit := None |}.

Lemma uniqueResults_dedup_witness :
  let unique := uniqueResults search_xy [js "x"; js "y"] None 5 in
  NoDup (map url unique)
  /\ forall r, r ∈ unique ->
       forall q, q ∈ matchedQueries r <->
         q ∈ [js "x"; js "y"]
         /\ exists s, s ∈ search_xy q 5 /\ sr_url s = url r.
Proof.
  destruct (uniqueResults_dedup search_xy [js "x"; js "y"] None 5) as [H1 H2].
  split; [exact H1|]. intros r Hr. exact (proj2 (proj2 (H2 r Hr))).
Defined.

Example uniqueResults_xy :
  uniqueResults search_xy [js "x"; js "y"] None 5
  = [ {| url := js "https://docs.example/a"; title := js "A";
         content := js "alpha"; distance := 1 # 2; relevance := 9000;
         matchedQueries := [js "x"; js "y"] |} ].
Proof. vm_compute. reflexivity. Qed.

(** The list handed to the caller goes through [formatSearchResult],
    which computes the relevance from [distance] again; the entry kept
    for a repeated URL still has the distance of its first occurrence. *)
Example handleSearchExistingData_xy :
  handleSearchExistingData (fun _ => None) (Normal tt) (Normal tt) search_xy (fun c => c) args_xy
  = Normal [ {| f_url := js "https://docs.example/a"; f_title := js "A";
                f_content := js "alpha"; f_relevance := 5000;
                f_matchedQueries := [js "x"; js "y"] |} ].
Proof. vm_compute. reflexivity. Qed.

Section UncrawledSite.
Variable getWebsiteDirectory : jsstring -> option jsstring.
Variable listCrawledWebsites : completion exn unit.
Variable getInstance : completion exn unit.
Variable search : jsstring -> Z -> list SearchResult.
Variable limitContent : jsstring -> jsstring.

(** The [throw] for a site that was not crawled stands inside the [try]
    whose [catch] wraps every error: the caller gets an internal error. *)
Lemma handleSearchExistingData_uncrawled args q queries u :
  arg_queries args = Some (q :: queries) ->
  truthy (arg_url args) = Some u ->
  getWebsiteDirectory u = None ->
  exists message,
    handleSearchExistingData getWebsiteDirectory listCrawledWebsites getInstance
      search limitContent args
    = Throw (McpError InternalError message).
Proof.
  intros Hq Hu Hd. unfold handleSearchExistingData. rewrite Hq, Hu, Hd.
  destruct listCrawledWebsites as [[]|e]; simpl; eexists; reflexivity.
Qed.
End UncrawledSite.

(** C9 at a site that was never crawled: the call fails, and the error
    it throws carries the code InternalError; the message of the
    invalid-parameters error is kept inside its message. *)
Theorem handleSearchExistingData_never_crawled :
  handleSearchExistingData (fun _ => None) (Normal tt) (Normal tt)
    (fun _ _ => []) (fun c => c)
    {| arg_queries := Some [js "install"];
       arg_url := Some (js "https://never.example");
       arg_limit := None |}
  = Throw (McpError InternalError
      (js "MCP error -32603: Search operation failed: MCP error -32602: Website https://never.example has not been crawled yet. Use search_website tool first.")).
Proof. vm_compute. reflexivity. Qed.

End ToolsFacts.

(* ================================================================== *)
(** ** The Qdrant-backed index and search *)
(* ================================================================== *)

Module QdrantFacts.
Import Qdrant.

Lemma upsert_loop_fuel upsert_ok allPoints fuel i coll fuel' :
  length allPoints <= i + fuel -> fuel <= fuel' ->
  upsert_loop upsert_ok fuel' i allPoints coll
  = upsert_loop upsert_ok fuel i allPoints coll.
Proof.
  revert i coll fuel'. induction fuel as [|fuel IH]; intros i coll fuel' Hlen Hle.
  - destruct fuel'; simpl; [done|].
    destruct (i <? length allPoints) eqn:E; [|done].
    apply Nat.ltb_lt in E. lia.
  - destruct fuel' as [|fuel']; [lia|]. simpl.
    destruct (i <? length allPoints); [|done].
    apply IH; unfold BATCH_SIZE; lia.
Qed.

(** The filter keeps one result per chunk key, and none whose key was
    seen before. *)
Lemma filter_unseen_keys seen l :
  NoDup (map chunk_key (filter_unseen seen l))
  /\ forall r, r ∈ filter_unseen seen l -> (chunk_key r ∉ seen) /\ r ∈ l.
Proof.
  revert seen. induction l as [|r l IH]; intros seen; simpl.
  - split; [constructor|]. intros r Hr. by apply elem_of_nil in Hr.
  - destruct (decide (chunk_key r ∈ seen)) as [Hin|Hnin].
    + destruct (IH seen) as [Hnd Hk]. split; [done|].
      intros r' Hr'. destruct (Hk r' Hr') as [? ?]. split; [done|].
      apply elem_of_cons. by right.
    + destruct (IH ({[chunk_key r]} ∪ seen)) as [Hnd Hk]. split.
      * simpl. apply NoDup_cons. split; [|done].
        change (map chunk_key ?x) with (chunk_key <$> x).
        intros Hr. apply list_elem_of_fmap in Hr as (r' & Heq & Hr').
        destruct (Hk r' Hr') as [Hnot _]. apply Hnot.
        apply elem_of_union. left. apply elem_of_singleton. done.
      * intros r' Hr'. apply elem_of_cons in Hr' as [->|Hr'].
        -- split; [done|]. apply elem_of_cons. by left.
        -- destruct (Hk r' Hr') as [Hnot ?]. split.
           ++ intros Hs. apply Hnot. apply elem_of_union. by right.
           ++ apply elem_of_cons. by right.
Qed.

(** The services of the examples: the embedding of a query is a vector
    that names it, every UUID is new, every upsert succeeds. *)
Definition embed_query (q : jsstring) : completion jsstring (list Q) :=
  Normal [if decide (q = js "x") then 1%Q else 0%Q].

Definition hit (idx : nat) (s : Q) : ScoredPoint :=
  {| sp_id := N.of_nat idx; score := s;
     sp_payload := {| p_url := js "https://docs.example/a";
                      chunk_id := js "https://docs.example/a#chunk-" ++ decimal idx;
                      p_content := js "text " ++ decimal idx;
                      timestamp := js "t" |} |}.

Definition search_hits (embedding : list Q) (limit : Z)
  : completion jsstring (list ScoredPoint) :=
  match embedding with
  | [q] => if Qeq_bool q 1 then Normal [hit 0 (1 # 2)]
           else Normal [hit 0 (9 # 10); hit 1 (3 # 10)]
  | _ => Normal []
  end.

(** C1 on multiQueryQdrantSearch: the queries "x" and "y" both return
    chunk 0 of one page and "y" also its chunk 1.  The result keeps two
    entries with the URL of that page, and for chunk 0 the score 0.5 of
    its first occurrence, not the 0.9 it received from "y". *)
Lemma multiQueryQdrantSearch_repeats_url :
  multiQueryQdrantSearch (Normal tt) embed_query search_hits [js "x"; js "y"] 5
  = Normal [hit 0 (1 # 2); hit 1 (3 # 10)]
  /\ ~ NoDup (map (fun r => p_url (sp_payload r)) [hit 0 (1 # 2); hit 1 (3 # 10)]).
Proof.
  split; [vm_compute; reflexivity|].
  intros H. apply NoDup_cons in H as [H _]. apply H.
  apply elem_of_cons. by left.
Qed.

Definition save_twice (u markdown : jsstring) : option (nat * nat) :=
  let save := saveChunksToQdrant (Normal tt) (fun _ => Normal [1%Q]) N.of_nat
                (fun _ => true) u markdown (js "t") in
  match save {| collection := ∅; uuids_drawn := 0 |} with
  | Normal st1 =>
      match save st1 with
      | Normal st2 =>
          Some (count_for_url (collection st1) u, count_for_url (collection st2) u)
      | Throw _ => None
      end
  | Throw _ => None
  end.

(** C3 on saveChunksToQdrant: a page of one chunk, saved twice with the
    same content, is stored as two points. *)
Lemma saveChunksToQdrant_twice_doubles :
  save_twice (js "https://docs.example/a") (js "hello world") = Some (1, 2).
Proof. vm_compute. reflexivity. Qed.

End QdrantFacts.

(* ================================================================== *)
(** ** The file-backed index *)
(* ================================================================== *)

Module IndexDbFacts.
Import IndexDb.

Lemma span_length p s :
  length (span p s).1 + length (span p s).2 = length s.
Proof.
  induction s as [|c s IH]; simpl; [done|].
  destruct (p c); simpl; [|done].
  destruct (span p s) as [a b]. simpl in *. lia.
Qed.

(** One unit of fuel per code unit is enough for the matcher. *)
Lemma match_sentences_fuel fuel s fuel' :
  length s <= fuel -> fuel <= fuel' ->
  match_sentences fuel' s = match_sentences fuel s.
Proof.
  revert s fuel'. induction fuel as [|fuel IH]; intros s fuel' Hs Hle.
  - destruct s; [|simpl in Hs; lia]. by destruct fuel'.
  - destruct fuel' as [|fuel']; [lia|]. simpl.
    pose proof (span_length is_terminator s) as H1.
    destruct (span is_terminator s) as [t0 s1]. simpl in H1.
    pose proof (span_length (fun c => negb (is_terminator c)) s1) as H2.
    destruct (span (fun c => negb (is_terminator c)) s1) as [body r]. simpl in H2.
    pose proof (span_length is_terminator r) as H3.
    destruct (span is_terminator r) as [terms r']. simpl in H3.
    destruct body as [|b body]; [done|]. destruct terms as [|t terms]; [done|].
    f_equal. apply IH; simpl in *; lia.
Qed.

Example splitIntoChunks_sentences :
  splitIntoChunks (js "One. Two!  Three") = [js "One.  Two!"]
  /\ splitIntoChunks (js "no terminator") = [js "no terminator"].
Proof. split; vm_compute; reflexivity. Qed.

(** Every chunk of a document carries the document's URL. *)
Lemma documentChunks_urls embed file document :
  map dc_url (documentChunks embed file document)
  = map (fun _ => doc_url document) (splitIntoChunks (doc_content document)).
Proof.
  unfold documentChunks. change (map dc_url ?l) with (dc_url <$> l).
  rewrite fmap_imap. rewrite <- imap_const. by apply imap_ext.
Qed.

(** What a page file contributes to [stored_urls]: nothing when it is
    skipped, else the URLs of its chunks under its index file name. *)
Definition url_entry (JSON_parse : jsstring -> option Document)
    (f : jsstring * jsstring) : option (jsstring * list jsstring) :=
  match parse_document JSON_parse f.2 with
  | None => None
  | Some document =>
      if trim (doc_content document) is [] then None
      else Some (index_file_name f.1,
                 map (fun _ => doc_url document)
                   (splitIntoChunks (doc_content document)))
  end.

Definition write_entry (m : gmap jsstring (list jsstring))
    (e : option (jsstring * list jsstring)) : gmap jsstring (list jsstring) :=
  match e with
  | None => m
  | Some (k, v) => <[k := v]> m
  end.

Definition read_entry (k : jsstring) (o : option (list jsstring))
    (e : option (jsstring * list jsstring)) : option (list jsstring) :=
  match e with
  | Some (k', v) => if decide (k' = k) then Some v else o
  | None => o
  end.

Lemma write_entries_lookup es m k :
  foldl write_entry m es !! k = foldl (read_entry k) (m !! k) es.
Proof.
  revert m. induction es as [|[[k' v]|] es IH]; intros m; simpl; [done| |apply IH].
  rewrite IH. f_equal. rewrite lookup_insert. by destruct (decide (k' = k)).
Qed.

Lemma read_entries_id_or_const k es :
  (forall o, foldl (read_entry k) o es = o)
  \/ (exists v, forall o, foldl (read_entry k) o es = Some v).
Proof.
  induction es as [|e es IH]; simpl; [by left|].
  destruct IH as [IH|[v IH]]; [|right; by exists v].
  destruct e as [[k' v]|]; simpl; [|by left].
  destruct (decide (k' = k)); [right; exists v|left]; intros o; by rewrite IH.
Qed.

(** Writing the same entries a second time changes nothing. *)
Lemma write_entries_idem es m :
  foldl write_entry (foldl write_entry m es) es = foldl write_entry m es.
Proof.
  apply map_eq. intros k. rewrite !write_entries_lookup.
  destruct (read_entries_id_or_const k es) as [H|[v H]]; by rewrite !H.
Qed.

Section Reindex.
Variable JSON_parse : jsstring -> option Document.

Lemma index_file_urls embed st f :
  stored_urls (index_file JSON_parse embed (fun _ => true) st f).1
  = write_entry (stored_urls st.1) (url_entry JSON_parse f).
Proof.
  unfold index_file, url_entry. destruct f as [file fileContent]. simpl.
  destruct (parse_document JSON_parse fileContent) as [document|]; [|done].
  destruct (trim (doc_content document)); [done|]. simpl.
  unfold stored_urls. rewrite fmap_insert. f_equal. apply documentChunks_urls.
Qed.

Lemma index_file_count embed st f :
  (index_file JSON_parse embed (fun _ => true) st f).2
  = st.2 + match url_entry JSON_parse f with
           | Some (_, v) => length v
           | None => 0
           end.
Proof.
  unfold index_file, url_entry. destruct f as [file fileContent]. simpl.
  destruct (parse_document JSON_parse fileContent) as [document|]; [|simpl; lia].
  destruct (trim (doc_content document)); [simpl; lia|]. simpl.
  rewrite length_map. unfold documentChunks. by rewrite length_imap.
Qed.

Lemma index_files_urls embed files st :
  stored_urls (foldl (index_file JSON_parse embed (fun _ => true)) st files).1
  = foldl write_entry (stored_urls st.1) (map (url_entry JSON_parse) files).
Proof.
  revert st. induction files as [|f files IH]; intros st; simpl; [done|].
  by rewrite IH, index_file_urls.
Qed.

Lemma index_files_count embed files st :
  (foldl (index_file JSON_parse embed (fun _ => true)) st files).2
  = foldl (fun n f => n + match url_entry JSON_parse f with
                          | Some (_, v) => length v
                          | None => 0
                          end) st.2 files.
Proof.
  revert st. induction files as [|f files IH]; intros st; simpl; [done|].
  by rewrite IH, index_file_count.
Qed.

(** C3, as the code has it.  With an index directory that takes every
    write, indexDocuments run a second time on the same page files
    leaves the number of chunks stored for every URL as the first run
    left it, and returns the same count; the embeddings the two runs
    obtain may differ. *)
Theorem indexDocuments_twice_same_count
    (embed1 embed2 : jsstring -> option (list Q))
    (sourceDir : list (jsstring * jsstring))
    (indexDir : gmap jsstring (list DocumentChunk)) (u : jsstring) :
  let first := indexDocuments JSON_parse embed1 (fun _ => true) sourceDir indexDir in
  let second := indexDocuments JSON_parse embed2 (fun _ => true) sourceDir first.1 in
  chunk_count second.1 u = chunk_count first.1 u /\ second.2 = first.2.
Proof.
  intros first second. split.
  - unfold chunk_count. do 5 f_equal.
    subst second first. unfold indexDocuments.
    rewrite !index_files_urls. simpl. rewrite index_files_urls. simpl.
    apply write_entries_idem.
  - subst second first. unfold indexDocuments.
    by rewrite !index_files_count.
Qed.
End Reindex.

Definition page_files : list (jsstring * jsstring) :=
  [(js "_docs.json", js "page"); (js "metadata.json", js "meta")].

Definition parse_page (fileContent : jsstring) : option Document :=
  if decide (fileContent = js "page") then
    Some {| doc_url := js "https://docs.example/docs"; doc_title := js "Docs";
            doc_content := js "First sentence. Second sentence." |}
  else Some {| doc_url := []; doc_title := []; doc_content := [] |}.

Example indexDocuments_page :
  let first := indexDocuments parse_page (fun _ => None) (fun _ => true) page_files ∅ in
  let second := indexDocuments parse_page (fun _ => Some [1%Q]) (fun _ => true)
                  page_files first.1 in
  first.2 = 1 /\ chunk_count first.1 (js "https://docs.example/docs") = 1
  /\ second.2 = 1 /\ chunk_count second.1 (js "https://docs.example/docs") = 1.
Proof. vm_compute. repeat split. Qed.

End IndexDbFacts.

(* ================================================================== *)
(** ** The recursive and the batched crawl *)
(* ================================================================== *)

Module CrawlingFacts.
Import Crawling.

Section CrawlFacts.
Variable crawlSingleUrl : jsstring -> option (jsstring * list jsstring).

(** The fetch of [u] succeeds. *)
Definition fetch_ok (u : jsstring) : Prop := is_Some (crawlSingleUrl u).

(** [st'] comes after [st] in a crawl with page cap [P]: the URLs tried
    in between are new to [visited] and distinct, they are what was
    added to [visited], the counter rose by the number of them that were
    fetched, and it did not rise above [P]. *)
Definition extends (P : nat) (st st' : CrawlState) : Prop :=
  exists new,
    attempts st' = attempts st ++ new
    /\ NoDup new
    /\ (forall u, u ∈ new -> u ∉ visited st)
    /\ (forall u, u ∈ visited st' <-> u ∈ new \/ u ∈ visited st)
    /\ pagesCrawled st' = pagesCrawled st + length (filter fetch_ok new)
    /\ pagesCrawled st' <= Nat.max (pagesCrawled st) P.

Lemma extends_refl P st : extends P st st.
Proof.
  exists []. rewrite app_nil_r. split; [done|]. split; [constructor|].
  split; [intros u Hu; by apply elem_of_nil in Hu|].
  split; [|simpl; lia].
  intros u. split; [by right|]. intros [Hu|Hu]; [by apply elem_of_nil in Hu | done].
Qed.

Lemma extends_trans P st1 st2 st3 :
  extends P st1 st2 -> extends P st2 st3 -> extends P st1 st3.
Proof.
  intros (n1 & Ha1 & Hn1 & Hd1 & Hv1 & Hp1 & Hb1) (n2 & Ha2 & Hn2 & Hd2 & Hv2 & Hp2 & Hb2).
  exists (n1 ++ n2). repeat split.
  - by rewrite Ha2, Ha1, app_assoc.
  - apply NoDup_app. repeat split; try done.
    intros u Hu1 Hu2. apply (Hd2 u Hu2). apply Hv1. by left.
  - intros u Hu. apply elem_of_app in Hu as [Hu|Hu]; [by apply Hd1|].
    intros Hv. apply (Hd2 u Hu). apply Hv1. by right.
  - rewrite Hv2, Hv1, elem_of_app. tauto.
  - rewrite Hv2, Hv1, elem_of_app. tauto.
  - rewrite filter_app, length_app. lia.
  - lia.
Qed.

Lemma foldl_extends P (f : CrawlState -> jsstring -> CrawlState) l st :
  (forall s u, extends P s (f s u)) -> extends P st (foldl f st l).
Proof.
  intros Hf. revert st. induction l as [|u l IH]; intros st; simpl.
  - apply extends_refl.
  - eapply extends_trans; [apply Hf | apply IH].
Qed.

Lemma crawlRecursive_extends fuel url depth maxDepth maxPages st :
  extends maxPages st
    (crawlRecursive crawlSingleUrl fuel url depth maxDepth maxPages st).
Proof.
  revert url depth st. induction fuel as [|fuel IH]; intros url depth st; simpl.
  { apply extends_refl. }
  destruct (decide (url ∈ visited st)) as [Hin|Hnin]; [apply extends_refl|].
  destruct (maxDepth <? depth); [apply extends_refl|].
  destruct (maxPages <=? pagesCrawled st) eqn:Hcap; [apply extends_refl|].
  apply Nat.leb_gt in Hcap.
  destruct (crawlSingleUrl url) as [[md discoveredUrls]|] eqn:Hfetch.
  - eapply extends_trans.
    2: { apply foldl_extends. intros s u.
         destruct (decide (u ∈ visited s)); [apply extends_refl | apply IH]. }
    exists [url]. simpl. repeat split; try done.
    + apply NoDup_singleton.
    + intros u Hu. apply list_elem_of_singleton in Hu. by subst.
    + intros Hu. apply elem_of_union in Hu as [Hu|Hu]; [left|by right].
      apply elem_of_singleton in Hu. subst. by apply list_elem_of_singleton.
    + intros [Hu|Hu]; apply elem_of_union; [left|by right].
      apply list_elem_of_singleton in Hu. by apply elem_of_singleton.
    + rewrite filter_cons_True by (unfold fetch_ok; by rewrite Hfetch).
      simpl. lia.
    + lia.
  - exists [url]. simpl. repeat split; try done.
    + apply NoDup_singleton.
    + intros u Hu. apply list_elem_of_singleton in Hu. by subst.
    + intros Hu. apply elem_of_union in Hu as [Hu|Hu]; [left|by right].
      apply elem_of_singleton in Hu. subst. by apply list_elem_of_singleton.
    + intros [Hu|Hu]; apply elem_of_union; [left|by right].
      apply list_elem_of_singleton in Hu. by apply elem_of_singleton.
    + rewrite filter_cons_False.
      * simpl. lia.
      * unfold fetch_ok. rewrite Hfetch. apply is_Some_None.
    + lia.
Qed.

Lemma foldl_ext_in {A B} (f g : A -> B -> A) l a :
  (forall a b, f a b = g a b) -> foldl f a l = foldl g a l.
Proof.
  intros H. revert a. induction l as [|b l IH]; intros a; simpl; [done|].
  by rewrite H, IH.
Qed.

(** The recursion enters at most [maxDepth + 1 - depth] levels below the
    call: more fuel changes nothing. *)
Lemma crawlRecursive_fuel fuel fuel' url depth maxDepth maxPages st :
  maxDepth + 2 <= fuel + depth -> fuel <= fuel' ->
  crawlRecursive crawlSingleUrl fuel' url depth maxDepth maxPages st
  = crawlRecursive crawlSingleUrl fuel url depth maxDepth maxPages st.
Proof.
  revert fuel' url depth st.
  induction fuel as [|fuel IH]; intros fuel' url depth st Hd Hle.
  - destruct fuel' as [|fuel']; simpl; [done|].
    destruct (decide (url ∈ visited st)); [done|].
    destruct (maxDepth <? depth) eqn:E; [done|].
    apply Nat.ltb_ge in E. lia.
  - destruct fuel' as [|fuel']; [lia|]. simpl.
    destruct (decide (url ∈ visited st)); [done|].
    destruct (maxDepth <? depth); [done|].
    destruct (maxPages <=? pagesCrawled st); [done|].
    destruct (crawlSingleUrl url) as [[md discoveredUrls]|]; [|done].
    apply foldl_ext_in. intros s u.
    destruct (decide (u ∈ visited s)); [done|]. apply IH; lia.
Qed.

(** What crawlWebsite ends in: no URL was tried twice, and the counter
    is the number of URLs fetched, the first page included. *)
Lemma crawlWebsite_state url st :
  crawlWebsite crawlSingleUrl url = Some st ->
  NoDup (attempts st)
  /\ length (filter fetch_ok (attempts st)) = pagesCrawled st
  /\ pagesCrawled st <= maxPages.
Proof.
  unfold crawlWebsite. generalize (maxDepth + 1). intros fuel.
  destruct (crawlSingleUrl url) as [[md discoveredUrls]|] eqn:Hfetch; [|done].
  intros [= <-].
  match goal with |- context [foldl ?f ?s ?l] =>
    destruct (foldl_extends maxPages f l s) as (new & Ha & Hn & Hd & Hv & Hp & Hb)
  end.
  { intros s u. apply crawlRecursive_extends. }
  simpl in *. rewrite Ha. split; [|split].
  - apply NoDup_cons. split; [|done].
    intros Hu. apply (Hd url Hu). by apply elem_of_singleton.
  - change (url :: new) with ([url] ++ new). rewrite filter_app, length_app.
    rewrite filter_cons_True by (unfold fetch_ok; by rewrite Hfetch).
    simpl. lia.
  - unfold maxPages in *. lia.
Qed.

Lemma crawl_loop_attempts_le fuel toVisit currentDepth st :
  length (attempts (CrawlingBatched.crawl_loop crawlSingleUrl fuel toVisit
                      currentDepth st))
  <= length (attempts st) + 50 * fuel.
Proof.
  revert toVisit currentDepth st.
  induction fuel as [|fuel IH]; intros toVisit currentDepth st; [simpl; lia|].
  cbn [CrawlingBatched.crawl_loop].
  destruct (_ && _ && _); [|lia].
  set (batch := filter (fun u => u ∉ visited st) (take 50 toVisit)).
  assert (Hb : length batch <= 50).
  { subst batch. etrans; [apply length_filter|]. rewrite length_take. lia. }
  destruct (bool_decide (batch = [])); [lia|].
  etrans; [apply IH|]. cbn [attempts]. rewrite length_app. lia.
Qed.

(** The first batch is no longer than [toVisit]. *)
Lemma crawl_loop_attempts fuel toVisit currentDepth st :
  length (attempts (CrawlingBatched.crawl_loop crawlSingleUrl fuel toVisit
                      currentDepth st))
  <= length (attempts st) + Nat.min 50 (length toVisit) + 50 * (fuel - 1).
Proof.
  destruct fuel as [|fuel]; [simpl; lia|].
  cbn [CrawlingBatched.crawl_loop].
  destruct (_ && _ && _); [|lia].
  set (batch := filter (fun u => u ∉ visited st) (take 50 toVisit)).
  assert (Hb : length batch <= Nat.min 50 (length toVisit)).
  { subst batch. etrans; [apply length_filter|]. by rewrite length_take. }
  destruct (bool_decide (batch = [])); [lia|].
  etrans; [apply crawl_loop_attempts_le|]. cbn [attempts]. rewrite length_app. lia.
Qed.

(** C5, as the code has it.  With page cap [P], crawlRecursive raises
    the counter by the number of URLs it fetched, and not above [P];
    crawlWebsite ends with the counter equal to the number of URLs
    fetched, at most [maxPages]; URLs whose fetch failed are tried and
    not counted.  The batched crawlWebsite tries at most 101 URLs, fewer
    than its cap. *)
Theorem crawl_fetched_pages_capped :
  (forall fuel url depth maxDepth P st,
      let st' := crawlRecursive crawlSingleUrl fuel url depth maxDepth P st in
      exists new,
        attempts st' = attempts st ++ new
        /\ pagesCrawled st' = pagesCrawled st + length (filter fetch_ok new)
        /\ pagesCrawled st' <= Nat.max (pagesCrawled st) P)
  /\ (forall url st,
        crawlWebsite crawlSingleUrl url = Some st ->
        length (filter fetch_ok (attempts st)) = pagesCrawled st
        /\ pagesCrawled st <= maxPages)
  /\ (forall url,
        length (attempts (CrawlingBatched.crawlWebsite crawlSingleUrl url)) <= 101
        /\ 101 <= maxPages).
Proof.
  split; [|split].
  - intros fuel url depth maxDepth P st st'.
    destruct (crawlRecursive_extends fuel url depth maxDepth P st)
      as (new & Ha & _ & _ & _ & Hp & Hb).
    by exists new.
  - intros url st H. by apply crawlWebsite_state in H as (_ & ? & ?).
  - intros url. split; [|unfold maxPages; lia].
    unfold CrawlingBatched.crawlWebsite.
    etrans; [apply crawl_loop_attempts|]. unfold maxDepth. simpl. lia.
Qed.

(** A URL that is new, within depth and under the cap, and whose fetch
    throws: it is added to [visited] and tried, and nothing is counted. *)
Lemma crawlRecursive_fetch_fails fuel url depth maxDepth P st :
  crawlSingleUrl url = None ->
  url ∉ visited st ->
  depth <= maxDepth ->
  pagesCrawled st < P ->
  crawlRecursive crawlSingleUrl (S fuel) url depth maxDepth P st
  = {| visited := {[url]} ∪ visited st;
       pagesCrawled := pagesCrawled st;
       attempts := attempts st ++ [url] |}.
Proof.
  intros Hf Hv Hd Hp. simpl. rewrite decide_False by done.
  apply Nat.ltb_ge in Hd. apply Nat.leb_gt in Hp. by rewrite Hd, Hp, Hf.
Qed.

(** The loop of crawlWebsite over links that are distinct, new, and all
    fail: every one of them is tried, whatever their number. *)
Lemma crawlWebsite_links_fail links : forall st,
  NoDup links ->
  (forall u, u ∈ links -> crawlSingleUrl u = None /\ u ∉ visited st) ->
  pagesCrawled st < maxPages ->
  let st' := foldl (fun s discoveredUrl =>
                      crawlRecursive crawlSingleUrl (maxDepth + 1) discoveredUrl 1
                        maxDepth maxPages s) st links in
  attempts st' = attempts st ++ links /\ pagesCrawled st' = pagesCrawled st.
Proof.
  change (maxDepth + 1) with (S maxDepth).
  induction links as [|u links IH]; intros st Hnd Hl Hp; cbn [foldl].
  - by rewrite app_nil_r.
  - apply NoDup_cons in Hnd as [Hu Hnd].
    destruct (Hl u) as [Hf Hv]; [by left|].
    rewrite (crawlRecursive_fetch_fails maxDepth u 1 maxDepth maxPages st Hf Hv)
      by (done || (unfold maxDepth; lia)).
    destruct (IH {| visited := {[u]} ∪ visited st;
                    pagesCrawled := pagesCrawled st;
                    attempts := attempts st ++ [u] |}) as [Ha Hc];
      [done| |done|].
    + intros v Hin. destruct (Hl v) as [Hfv Hvv]; [by right|].
      split; [done|]. cbn [visited]. intros Hv'.
      apply elem_of_union in Hv' as [Hv'|Hv']; [|done].
      apply elem_of_singleton in Hv'. by subst v.
    + cbv zeta in Ha, Hc. cbn [attempts pagesCrawled] in Ha, Hc.
      cbv zeta. split; [|done].
      by rewrite Ha, <- app_assoc.
Qed.

End CrawlFacts.

(** A site whose first page links to 500 pages that cannot be fetched. *)
Definition links_500 : list jsstring :=
  map (fun i => js "p" ++ decimal i) (seq 1 500).

Definition site_500 (u : jsstring) : option (jsstring * list jsstring) :=
  if decide (u = js "root") then Some ([], links_500) else None.

Lemma links_500_NoDup : NoDup links_500.
Proof.
  apply NoDup_fmap_2; [|apply NoDup_seq].
  intros i j H. apply app_inv_head in H. by apply JSFacts.decimal_inj.
Qed.

Lemma site_500_links u : u ∈ links_500 -> site_500 u = None /\ u <> js "root".
Proof.
  intros Hu. apply list_elem_of_fmap in Hu as (i & -> & _).
  assert (js "p" ++ decimal i <> js "root") as Hne by (intros H; discriminate H).
  split; [|done]. unfold site_500. by rewrite decide_False.
Qed.

Lemma crawlWebsite_site_500 :
  exists st,
    crawlWebsite site_500 (js "root") = Some st
    /\ attempts st = js "root" :: links_500 /\ pagesCrawled st = 1.
Proof.
  unfold crawlWebsite.
  assert (site_500 (js "root") = Some ([], links_500)) as ->
    by (unfold site_500; by rewrite decide_True).
  eexists. split; [reflexivity|].
  apply (crawlWebsite_links_fail site_500 links_500
           {| visited := {[js "root"]}; pagesCrawled := 1; attempts := [js "root"] |}).
  - apply links_500_NoDup.
  - intros u Hu. apply site_500_links in Hu as [Hf Hne].
    split; [done|]. simpl. by rewrite elem_of_singleton.
  - simpl. unfold maxPages. lia.
Qed.

(** C5 on crawlWebsite with its cap of 500: 501 URLs are tried, one of
    them fetched. *)
Lemma crawlWebsite_attempts_exceed_cap :
  (attempts <$> crawlWebsite site_500 (js "root")) ≫= (fun a => Some (length a))
  = Some 501
  /\ pagesCrawled <$> crawlWebsite site_500 (js "root") = Some 1
  /\ maxPages < 501.
Proof.
  destruct crawlWebsite_site_500 as (st & -> & Ha & Hc).
  cbn [fmap option_fmap option_map mbind option_bind].
  rewrite Ha, Hc. cbn [length]. unfold links_500.
  rewrite length_map, length_seq. split; [done|]. split; [done|].
  unfold maxPages. lia.
Qed.

(** A page cap of 2 and three links that fail: four URLs tried. *)
Example crawlRecursive_cap_2 :
  let site u := if decide (u = js "r") then Some ([], [js "a"; js "b"; js "c"]) else None in
  let st := crawlRecursive site 3 (js "r") 0 2 2
              {| visited := ∅; pagesCrawled := 0; attempts := [] |} in
  attempts st = [js "r"; js "a"; js "b"; js "c"] /\ pagesCrawled st = 1.
Proof. vm_compute. repeat split. Qed.

(** The batched crawl on a site where two pages of one batch link to the
    same page: the link joins [toVisit] twice and is crawled twice. *)
Example crawlWebsite_batched_repeats :
  let site u :=
    if decide (u = js "r") then Some ([], [js "a"; js "b"])
    else if bool_decide (u = js "a") || bool_decide (u = js "b") then Some ([], [js "c"])
    else Some ([], []) in
  attempts (CrawlingBatched.crawlWebsite site (js "r"))
  = [js "r"; js "a"; js "b"; js "c"; js "c"].
Proof. vm_compute. reflexivity. Qed.

Definition site_small (u : jsstring) : option (jsstring * list jsstring) :=
  if decide (u = js "r") then Some ([], [js "a"; js "b"; js "a"])
  else if decide (u = js "a") then Some ([], [js "r"; js "b"])
  else None.

Lemma crawl_fetched_pages_capped_witness :
  exists st,
    crawlWebsite site_small (js "r") = Some st
    /\ length (filter (fetch_ok site_small) (attempts st)) = pagesCrawled st
    /\ pagesCrawled st <= maxPages.
Proof.
  eexists. split; [vm_compute; reflexivity|].
  apply (proj1 (proj2 (crawl_fetched_pages_capped site_small)) (js "r")).
  vm_compute. reflexivity.
Defined.

End CrawlingFacts.

(* ================================================================== *)
(** ** WebsiteCrawler *)
(* ================================================================== *)

Module CrawlerFacts.
Import Url Crawler.

Section CrawlFacts.
Variable URL_href : jsstring -> jsstring -> completion jsstring jsstring.
Variable baseUrl : jsstring.
Variable fetch : jsstring -> completion jsstring (jsstring * jsstring * list jsstring).
Variable savePage_error : PageResult -> option jsstring.

Local Abbreviation start_task := (start_task URL_href baseUrl).
Local Abbreviation queue_add := (queue_add URL_href baseUrl).
Local Abbreviation add_links := (add_links URL_href baseUrl).
Local Abbreviation after_save := (after_save URL_href baseUrl savePage_error).
Local Abbreviation start_next := (start_next URL_href baseUrl).
Local Abbreviation settle := (settle URL_href baseUrl).
Local Abbreviation resume := (resume URL_href baseUrl fetch savePage_error).
Local Abbreviation run := (run URL_href baseUrl fetch savePage_error).

(** processPage returns a page for [u]. *)
Definition fetch_ok (u : jsstring) : bool :=
  match fetch u with
  | Normal _ => true
  | Throw _ => false
  end.

(** The started tasks that will still count a page. *)
Definition stage_ok (s : Stage) : nat :=
  match s with
  | AwaitPage _ u => if fetch_ok u then 1 else 0
  | AwaitSave _ _ => 1
  | Done => 0
  end.

Fixpoint inflight (p : list Stage) : nat :=
  match p with
  | [] => 0
  | s :: p' => stage_ok s + inflight p'
  end.

(** The counter and the started tasks account for the URLs fetched so
    far with a page; [k] is 1 between the increment of the counter and
    the end of the task that made it. *)
Definition counted (k : nat) (c : Crawler) : Prop :=
  pagesProcessed (job c) + inflight (pending c)
  = length (filter (fun u => fetch_ok u) (fetched c)) + k.

Lemma inflight_app p q : inflight (p ++ q) = inflight p + inflight q.
Proof. induction p as [|s p IH]; simpl; [done|]. rewrite IH. lia. Qed.

Lemma inflight_delete p i s :
  p !! i = Some s -> inflight (delete i p) + stage_ok s = inflight p.
Proof.
  revert i. induction p as [|s' p IH]; intros [|i] H; simpl in *; try done.
  - injection H as ->. lia.
  - specialize (IH i H). lia.
Qed.

Lemma inflight_insert p i s s' :
  p !! i = Some s -> inflight (<[i:=s']> p) + stage_ok s = inflight p + stage_ok s'.
Proof.
  revert i. induction p as [|s0 p IH]; intros [|i] H; simpl in *; try done.
  - injection H as ->. lia.
  - specialize (IH i H). lia.
Qed.

Lemma inflight_drop_done p : inflight (filter (fun s => s <> Done) p) = inflight p.
Proof.
  induction p as [|s p IH]; [done|]. rewrite filter_cons.
  destruct (decide (s <> Done)) as [Hs|Hs]; simpl; [by rewrite IH|].
  rewrite IH. destruct s; simpl; try done; exfalso; apply Hs; done.
Qed.

Lemma counted_visit_and_fetch k t url c :
  counted k c -> counted k (visit_and_fetch t url c).
Proof.
  unfold counted. simpl. intros H. rewrite inflight_app, filter_app, length_app.
  simpl. rewrite filter_cons. destruct (fetch_ok url) eqn:E; simpl; lia.
Qed.

Lemma counted_start_task k t c : counted k c -> counted k (start_task t c).
Proof.
  intros H. destruct t as [url depth| |link]; simpl;
    try (destruct (decide _); [|by apply counted_visit_and_fetch]);
    try (by apply counted_visit_and_fetch).
  all: unfold counted in *; simpl; rewrite inflight_app; simpl; lia.
Qed.

Lemma counted_queue_add k t c : counted k c -> counted k (queue_add t c).
Proof.
  intros H. unfold Crawler.queue_add. simpl.
  destruct (length (pending c) <? concurrency); [|exact H].
  destruct (queue c ++ [t]) as [|t' q]; [exact H|].
  by apply counted_start_task.
Qed.

Lemma counted_add_links k task_of links c :
  counted k c -> counted k (add_links task_of links c).
Proof.
  unfold Crawler.add_links. revert c.
  induction links as [|link links IH]; intros c H; simpl; [done|].
  apply IH. destruct (decide (link ∈ visited c)); [done|].
  by apply counted_queue_add.
Qed.

Lemma counted_after_save k t page c :
  counted k c -> counted (S k) (after_save t page c).
Proof.
  intros H. unfold Crawler.after_save.
  set (saved := match savePage_error page with
                | Some m => push_error m (job c) | None => job c end).
  assert (H1 : counted (S k) (set_job (count_page saved) c)).
  { unfold counted in *. simpl. subst saved.
    destruct (savePage_error page); simpl; lia. }
  destruct t as [url depth| |link]; [|by apply counted_add_links|done].
  destruct (depth <? MAX_DEPTH); [by apply counted_add_links|done].
Qed.

Lemma counted_drop_done k c : counted k c -> counted k (drop_done c).
Proof. unfold counted. simpl. by rewrite inflight_drop_done. Qed.

Lemma counted_start_next k fuel c : counted k c -> counted k (start_next fuel c).
Proof.
  revert c. induction fuel as [|fuel IH]; intros c H; simpl; [done|].
  destruct (length (pending c) <? concurrency); [|done].
  destruct (queue c) as [|t q] eqn:E; [done|].
  apply IH, counted_drop_done, counted_start_task. exact H.
Qed.

Lemma counted_settle k c : counted k c -> counted k (settle c).
Proof. intros H. apply counted_start_next, counted_drop_done, H. Qed.

(** Code that runs between two awaits only adds to the started tasks. *)
Lemma start_task_pending t c : pending c `prefix_of` pending (start_task t c).
Proof.
  destruct t as [url depth| |link]; simpl;
    try destruct (decide _); simpl; by apply prefix_app_r.
Qed.

Lemma queue_add_pending t c : pending c `prefix_of` pending (queue_add t c).
Proof.
  unfold Crawler.queue_add. simpl.
  destruct (length (pending c) <? concurrency); [|done].
  destruct (queue c ++ [t]) as [|t' q]; [done|].
  apply (start_task_pending t' (set_queue q (set_queue (t' :: q) c))).
Qed.

Lemma add_links_pending task_of links c :
  pending c `prefix_of` pending (add_links task_of links c).
Proof.
  unfold Crawler.add_links. revert c.
  induction links as [|link links IH]; intros c; simpl; [done|].
  etrans; [|apply IH]. destruct (decide (link ∈ visited c)); [done|].
  apply queue_add_pending.
Qed.

Lemma after_save_pending t page c :
  pending c `prefix_of` pending (after_save t page c).
Proof.
  unfold Crawler.after_save.
  destruct t as [url depth| |link]; [|apply (add_links_pending _ _ (set_job _ c))|done].
  destruct (depth <? MAX_DEPTH); [|done].
  apply (add_links_pending _ _ (set_job _ c)).
Qed.

Lemma counted_resume i c : counted 0 c -> counted 0 (resume i c).
Proof.
  intros H. unfold Crawler.resume.
  destruct (pending c !! i) as [[t url|t page|]|] eqn:Hi; try done.
  - destruct (fetch url) as [[[title content] links]|message] eqn:Hf.
    + unfold counted in *. simpl.
      pose proof (inflight_insert (pending c) i _
        (AwaitSave t {| pr_url := url; pr_title := title;
                        pr_content := content; pr_links := links |}) Hi) as Hs.
      simpl in Hs. unfold fetch_ok in Hs. rewrite Hf in Hs. lia.
    + apply counted_settle. unfold counted in *. simpl.
      pose proof (inflight_delete (pending c) i _ Hi) as Hs.
      simpl in Hs. unfold fetch_ok in Hs. rewrite Hf in Hs. lia.
  - apply counted_settle.
    pose proof (counted_after_save 0 t page c H) as H1.
    set (c' := after_save t page c) in *.
    assert (Hi' : pending c' !! i = Some (AwaitSave t page)).
    { eapply prefix_lookup_Some; [exact Hi | apply after_save_pending]. }
    unfold counted in *. simpl.
    pose proof (inflight_delete (pending c') i _ Hi') as Hs. simpl in Hs. lia.
Qed.

Lemma counted_run schedule c : counted 0 c -> counted 0 (run schedule c).
Proof.
  unfold Crawler.run. revert c.
  induction schedule as [|i schedule IH]; intros c H; simpl; [done|].
  by apply IH, counted_resume.
Qed.

Lemma counted_new_crawler : counted 0 new_crawler.
Proof. reflexivity. Qed.

(** C4.  When the schedule drains the queue and [onIdle] resolves, the
    job crawl() leaves is failed exactly when its page counter is zero
    and completed when the counter is at least one, whatever its error
    list holds; the counter is the number of URLs for which processPage
    returned a page. *)
Theorem crawl_puppeteer_status (schedule : list nat) (j : CrawlJob) :
  crawl_puppeteer URL_href baseUrl fetch savePage_error schedule (Normal tt) = Some j ->
  (status j = failed <-> pagesProcessed j = 0)
  /\ (1 <= pagesProcessed j -> status j = completed)
  /\ pagesProcessed j
     = length (filter (fun u => fetch_ok u)
                 (fetched (run schedule (start_puppeteer URL_href baseUrl)))).
Proof.
  unfold crawl_puppeteer.
  set (c := run schedule (start_puppeteer URL_href baseUrl)).
  assert (Hc : counted 0 c).
  { apply counted_run, counted_queue_add, counted_new_crawler. }
  destruct (idle c) eqn:Hidle; [|done]. intros [= <-].
  apply andb_true_iff in Hidle as [_ Hp]. apply bool_decide_eq_true in Hp.
  unfold counted in Hc. rewrite Hp in Hc. simpl in Hc.
  unfold finish_puppeteer.
  destruct (pagesProcessed (job c) =? 0) eqn:E; simpl.
  - apply Nat.eqb_eq in E. repeat split; try done; lia.
  - apply Nat.eqb_neq in E. repeat split; try done; lia.
Qed.

(** *** The later revision fetches no URL twice *)

Definition later_task (t : Task) : Prop :=
  match t with
  | ProcessUrl _ _ => True
  | _ => False
  end.

Definition later_stage (s : Stage) : Prop :=
  match s with
  | AwaitPage t _ | AwaitSave t _ => later_task t
  | Done => True
  end.

(** The URLs fetched are distinct and all in [visited], and every task
    is a [processUrl] of the later revision. *)
Definition fetched_once (c : Crawler) : Prop :=
  NoDup (fetched c)
  /\ (forall u, u ∈ fetched c -> u ∈ visited c)
  /\ Forall later_task (queue c)
  /\ Forall later_stage (pending c).

Lemma once_start_task t c :
  later_task t -> fetched_once c -> fetched_once (start_task t c).
Proof.
  intros Ht (Hnd & Hsub & Hq & Hp). destruct t as [url depth| |link]; try done.
  simpl. destruct (decide _) as [Hin|Hnin].
  - repeat split; try done. simpl. apply Forall_app. split; [done|].
    by apply Forall_singleton.
  - set (n := normalizeUrl_value URL_href url baseUrl) in *.
    repeat split; simpl; try done.
    + apply NoDup_app. repeat split; [done| |apply NoDup_singleton].
      intros u Hu Hu'. apply list_elem_of_singleton in Hu'. subst.
      by apply Hnin, Hsub.
    + intros u Hu. apply elem_of_app in Hu as [Hu|Hu].
      * apply elem_of_union. right. by apply Hsub.
      * apply list_elem_of_singleton in Hu. subst.
        apply elem_of_union. left. by apply elem_of_singleton.
    + apply Forall_app. split; [done|]. by apply Forall_singleton.
Qed.

Lemma once_queue_add t c :
  later_task t -> fetched_once c -> fetched_once (queue_add t c).
Proof.
  intros Ht (Hnd & Hsub & Hq & Hp). unfold Crawler.queue_add. simpl.
  assert (Hq' : Forall later_task (queue c ++ [t])).
  { apply Forall_app. split; [done|]. by apply Forall_singleton. }
  destruct (length (pending c) <? concurrency); [|by repeat split].
  destruct (queue c ++ [t]) as [|t' q]; [by repeat split|].
  apply Forall_cons in Hq' as [Ht' Hq'].
  apply once_start_task; [done|]. by repeat split.
Qed.

Lemma once_add_links depth links c :
  fetched_once c ->
  fetched_once (add_links (fun link => ProcessUrl link depth) links c).
Proof.
  unfold Crawler.add_links. revert c.
  induction links as [|link links IH]; intros c H; simpl; [done|].
  apply IH. destruct (decide (link ∈ visited c)); [done|].
  by apply once_queue_add.
Qed.

Lemma once_after_save t page c :
  later_task t -> fetched_once c -> fetched_once (after_save t page c).
Proof.
  intros Ht H. destruct t as [url depth| |link]; try done.
  unfold Crawler.after_save.
  assert (H1 : forall j, fetched_once (set_job j c)) by (intros j; exact H).
  destruct (depth <? MAX_DEPTH); [|apply H1]. apply once_add_links, H1.
Qed.

Lemma once_set_pending p c :
  Forall later_stage p -> fetched_once c -> fetched_once (set_pending p c).
Proof. intros Hp (Hnd & Hsub & Hq & _). by repeat split. Qed.

Lemma once_drop_done c : fetched_once c -> fetched_once (drop_done c).
Proof.
  intros H. apply once_set_pending; [|done].
  destruct H as (_ & _ & _ & Hp). apply Forall_forall. intros s Hs.
  apply list_elem_of_filter in Hs as [_ Hs].
  by eapply Forall_forall in Hp.
Qed.

Lemma once_start_next fuel c : fetched_once c -> fetched_once (start_next fuel c).
Proof.
  revert c. induction fuel as [|fuel IH]; intros c H; simpl; [done|].
  destruct (length (pending c) <? concurrency); [|done].
  destruct (queue c) as [|t q] eqn:E; [done|].
  destruct H as (Hnd & Hsub & Hq & Hp). rewrite E in Hq.
  apply Forall_cons in Hq as [Ht Hq].
  apply IH, once_drop_done, once_start_task; [done|]. by repeat split.
Qed.

Lemma once_settle c : fetched_once c -> fetched_once (settle c).
Proof. intros H. by apply once_start_next, once_drop_done. Qed.

Lemma once_resume i c : fetched_once c -> fetched_once (resume i c).
Proof.
  intros H. unfold Crawler.resume.
  destruct (pending c !! i) as [[t url|t page|]|] eqn:Hi; try done.
  - assert (Ht : later_task t).
    { destruct H as (_ & _ & _ & Hp). by apply (Forall_lookup_1 _ _ _ _ Hp Hi). }
    destruct (fetch url) as [[[title content] links]|message].
    + apply once_set_pending; [|done].
      apply Forall_insert; [by destruct H as (_ & _ & _ & Hp) | done].
    + apply once_settle.
      apply (once_set_pending _ (set_job _ c)); [|exact H].
      apply Forall_delete. by destruct H as (_ & _ & _ & Hp).
  - assert (Ht : later_task t).
    { destruct H as (_ & _ & _ & Hp). by apply (Forall_lookup_1 _ _ _ _ Hp Hi). }
    pose proof (once_after_save t page c Ht H) as H'.
    apply once_settle. apply once_set_pending; [|done].
    apply Forall_delete. by destruct H' as (_ & _ & _ & Hp).
Qed.

(** In the later revision every URL passed to processPage is passed
    once, whatever the order in which the tasks are resumed. *)
Lemma crawl_puppeteer_fetches_once schedule :
  NoDup (fetched (run schedule (start_puppeteer URL_href baseUrl))).
Proof.
  assert (H : fetched_once (run schedule (start_puppeteer URL_href baseUrl))).
  { unfold Crawler.run.
    assert (H0 : fetched_once (start_puppeteer URL_href baseUrl)).
    { apply once_queue_add; [done|]. repeat split; try constructor.
      intros u Hu. by apply elem_of_nil in Hu. }
    revert H0. generalize (start_puppeteer URL_href baseUrl).
    induction schedule as [|i schedule IH]; intros c H0; simpl; [done|].
    by apply IH, once_resume. }
  by destruct H.
Qed.

End CrawlFacts.

(** A site of three pages: the first links to the second once and to the
    third twice. *)
Definition docs_base : jsstring := js "https://docs.example/".

Definition docs_pages (u : jsstring)
  : completion jsstring (jsstring * jsstring * list jsstring) :=
  if decide (u = js "https://docs.example") then
    Normal (js "Docs", js "home",
            [js "https://docs.example/a"; js "https://docs.example/b";
             js "https://docs.example/b"])
  else if decide (u = js "https://docs.example/a") then Normal (js "A", js "a", [])
  else if decide (u = js "https://docs.example/b") then Normal (js "B", js "b", [])
  else Throw (js "not found").

(** The same site with a third page that cannot be fetched. *)
Definition docs_pages_b_down (u : jsstring)
  : completion jsstring (jsstring * jsstring * list jsstring) :=
  if decide (u = js "https://docs.example/b") then Throw (js "timeout")
  else docs_pages u.

(** C6 on the first revision of crawl(): a link is tested against
    [visited] when it is queued and added to [visited] when its task
    starts, so the link that the first page repeats is queued twice and
    "https://docs.example/b" is passed to processPage twice; the job
    counts four pages for a site of three. *)
Theorem crawl_axios_fetches_link_twice :
  crawl_axios href_model docs_base docs_pages (fun _ => None)
    [0; 0; 0; 0; 0; 0; 0; 0] (Normal tt)
  = Some ({| status := completed; pagesProcessed := 4; errors := [] |},
          [js "https://docs.example"; js "https://docs.example/a";
           js "https://docs.example/b"; js "https://docs.example/b"]).
Proof. vm_compute. reflexivity. Qed.

(** The same under another order of completion. *)
Example crawl_axios_other_schedule :
  snd <$> crawl_axios href_model docs_base docs_pages (fun _ => None)
            [0; 0; 1; 1; 0; 0; 0; 0] (Normal tt)
  = Some [js "https://docs.example"; js "https://docs.example/a";
          js "https://docs.example/b"; js "https://docs.example/b"].
Proof. vm_compute. reflexivity. Qed.

(** The later revision on the same site. *)
Example crawl_puppeteer_docs :
  fetched (run href_model docs_base docs_pages (fun _ => None) [0; 0; 0; 0; 0; 0]
             (start_puppeteer href_model docs_base))
  = [js "https://docs.example"; js "https://docs.example/a";
     js "https://docs.example/b"].
Proof. vm_compute. reflexivity. Qed.

(** A crawl with one page that fails: completed, with an error listed. *)
Lemma crawl_puppeteer_status_witness :
  exists j,
    crawl_puppeteer href_model docs_base docs_pages_b_down (fun _ => None)
      [0; 0; 0; 0; 0] (Normal tt) = Some j
    /\ (status j = failed <-> pagesProcessed j = 0)
    /\ (1 <= pagesProcessed j -> status j = completed)
    /\ pagesProcessed j
       = length (filter (fun u => fetch_ok docs_pages_b_down u)
                   (fetched (run href_model docs_base docs_pages_b_down
                               (fun _ => None) [0; 0; 0; 0; 0]
                               (start_puppeteer href_model docs_base)))).
Proof.
  eexists. split; [vm_compute; reflexivity|].
  apply crawl_puppeteer_status. vm_compute. reflexivity.
Defined.

Example crawl_puppeteer_b_down :
  crawl_puppeteer href_model docs_base docs_pages_b_down (fun _ => None)
    [0; 0; 0; 0; 0] (Normal tt)
  = Some {| status := completed; pagesProcessed := 2;
            errors := [js "Failed to process https://docs.example/b: timeout"] |}.
Proof. vm_compute. reflexivity. Qed.

(** No page at all: the later revision fails the job, the first one
    completes it. *)
Example crawl_no_page :
  crawl_puppeteer href_model docs_base (fun _ => Throw (js "down")) (fun _ => None)
    [0] (Normal tt)
  = Some {| status := failed; pagesProcessed := 0;
            errors := [js "Failed to process https://docs.example: down"] |}
  /\ fst <$> crawl_axios href_model docs_base (fun _ => Throw (js "down"))
               (fun _ => None) [0] (Normal tt)
     = Some {| status := completed; pagesProcessed := 0;
               errors := [js "Failed to process https://docs.example: down"] |}.
Proof. split; vm_compute; reflexivity. Qed.

End CrawlerFacts.

(* ================================================================== *)
(** ** Strings *)
(* ================================================================== *)

Module StringFacts.

Lemma trimStart_suffix s : trimStart s `suffix_of` s.
Proof.
  induction s as [|c s IH]; simpl; [done|].
  destruct (is_space c); [by apply suffix_cons_r | done].
Qed.

Lemma length_trimStart s : length (trimStart s) <= length s.
Proof. apply suffix_length, trimStart_suffix. Qed.

Lemma length_trim s : length (trim s) <= length s.
Proof.
  unfold trim. rewrite length_rev.
  etrans; [apply length_trimStart|]. rewrite length_rev. apply length_trimStart.
Qed.

(** A string that ends in a space loses it when trimmed. *)
Lemma length_trim_snoc_space x : length (trim (x ++ [32%N])) <= length x.
Proof.
  unfold trim. rewrite length_rev.
  destruct (trimStart_suffix (x ++ [32%N])) as [p Hp]. revert Hp.
  generalize (trimStart (x ++ [32%N])). intros t.
  destruct t as [|c t _] using rev_ind; [simpl; lia|]. intros Hp.
  rewrite app_assoc in Hp. apply app_inj_tail in Hp as [-> <-].
  rewrite rev_unit. simpl.
  etrans; [apply length_trimStart|]. rewrite length_rev, length_app. lia.
Qed.

Lemma trimStart_blank s : forallb is_space s = true -> trimStart s = [].
Proof.
  induction s as [|c s IH]; simpl; [done|].
  intros H. apply andb_true_iff in H as [Hc Hs]. rewrite Hc. by apply IH.
Qed.

Lemma trimStart_nil s : trimStart s = [] -> forallb is_space s = true.
Proof.
  induction s as [|c s IH]; simpl; [done|].
  destruct (is_space c); [simpl; apply IH | done].
Qed.

(** [s.trim()] is empty exactly when [s] is made of white space. *)
Lemma trim_nil s : trim s = [] <-> forallb is_space s = true.
Proof.
  unfold trim. split.
  - intros H. destruct (forallb is_space s) eqn:E; [done|]. exfalso.
    apply (f_equal (@rev N)) in H. rewrite rev_involutive in H. simpl in H.
    apply trimStart_nil in H. rewrite forallb_forall in H.
    destruct (trimStart_suffix s) as [p Hp].
    destruct (trimStart s) as [|c t] eqn:Et.
    + apply trimStart_nil in Et. congruence.
    + assert (is_space c = false) as Hc.
      { clear -Et. induction s as [|d s IH]; simpl in Et; [done|].
        destruct (is_space d) eqn:Ed; [by apply IH|]. by injection Et as -> _. }
      rewrite (H c) in Hc; [done|]. apply in_rev. rewrite rev_involutive. by left.
  - intros H. by rewrite (trimStart_blank s H).
Qed.

End StringFacts.

(* ================================================================== *)
(** ** The excerpt of a search result *)
(* ================================================================== *)

Module FormatFacts.
Import Format.

Lemma lastIndexOf_from_range text searchString k :
  (-1 <= lastIndexOf_from text searchString k <= Z.of_nat k)%Z.
Proof.
  induction k as [|k IH]; simpl.
  - destruct (startsWith _ _); lia.
  - destruct (startsWith _ _); lia.
Qed.

Lemma lastIndexOf_range text searchString position :
  (-1 <= lastIndexOf text searchString position <= Z.of_nat position)%Z.
Proof.
  unfold lastIndexOf. destruct (_ <? _); [lia|].
  pose proof (lastIndexOf_from_range text searchString
                (Nat.min position (length text - length searchString))).
  lia.
Qed.

(** An index that lastIndexOf returns is one at which the string occurs. *)
Lemma lastIndexOf_from_occurs text searchString k i :
  lastIndexOf_from text searchString k = Z.of_nat i ->
  startsWith (drop i text) searchString = true.
Proof.
  induction k as [|k IH]; simpl.
  - destruct (startsWith (drop 0 text) searchString) eqn:E; [|lia]. intros H.
    by replace i with 0 by lia.
  - destruct (startsWith (drop (S k) text) searchString) eqn:E; [|apply IH].
    intros H. by replace i with (S k) by lia.
Qed.

(** The sentence end the loop settles on is one within the range, or -1. *)
Lemma sentenceBreakIndex_range text n lo ends start :
  (start = -1 \/ lo <= start <= Z.of_nat n)%Z ->
  let r := fold_left
             (fun sentenceBreakIndex endChar =>
                let index := lastIndexOf text endChar n in
                if (sentenceBreakIndex <? index)%Z && (lo <=? index)%Z
                then index else sentenceBreakIndex)
             ends start in
  (r = -1 \/ lo <= r <= Z.of_nat n)%Z.
Proof.
  revert start. induction ends as [|e ends IH]; intros start Hs; [done|].
  cbn [fold_left]. apply IH.
  pose proof (lastIndexOf_range text e n).
  destruct (Z.ltb_spec start (lastIndexOf text e n)); [|done].
  destruct (Z.leb_spec lo (lastIndexOf text e n)); [|done].
  cbn [andb]. lia.
Qed.

(** The break point lies between four fifths of the target position and
    two code units past it. *)
Lemma findNaturalBreakpoint_range text n :
  n <= length text ->
  (Z.of_nat (n - n / 5) <= findNaturalBreakpoint text n <= Z.of_nat n + 2)%Z.
Proof.
  intros Hn. unfold findNaturalBreakpoint. rewrite Nat.min_l by done.
  pose proof (lastIndexOf_range text [10; 10]%N n) as Hp.
  pose proof (lastIndexOf_range text (js ". ") n) as H1.
  pose proof (lastIndexOf_range text (js "! ") n) as H2.
  pose proof (lastIndexOf_range text (js "? ") n) as H3.
  pose proof (lastIndexOf_range text (js " ") n) as Hw.
  assert (n / 10 <= n / 5 /\ 3 * n / 20 <= n / 5 /\ n / 5 <= n) as (Ha & Hb & Hc).
  { pose proof (Nat.div_mod_eq n 10). pose proof (Nat.div_mod_eq n 5).
    pose proof (Nat.div_mod_eq (3 * n) 20).
    pose proof (Nat.mod_upper_bound n 10). pose proof (Nat.mod_upper_bound n 5).
    pose proof (Nat.mod_upper_bound (3 * n) 20). lia. }
  cbv zeta.
  set (sbi := fold_left _ sentence_ends _).
  assert (sbi = -1 \/ Z.of_nat n - Z.of_nat (3 * n / 20) <= sbi <= Z.of_nat n)%Z as Hs.
  { apply (sentenceBreakIndex_range text n
             (Z.of_nat n - Z.of_nat (3 * n / 20)) sentence_ends (-1)). by left. }
  clearbody sbi. revert sbi Hs.
  intros sbi Hs. revert Ha Hb Hc Hs.
  generalize (n / 5) (3 * n / 20) (n / 10). intros a b c Ha Hb Hc Hs.
  destruct (Z.leb_spec (Z.of_nat n - Z.of_nat a) (lastIndexOf text [10; 10]%N n));
    [lia|].
  destruct (Z.ltb_spec 0 sbi); [lia|].
  destruct (Z.leb_spec (Z.of_nat n - Z.of_nat c) (lastIndexOf text (js " ") n));
    lia.
Qed.

Example limitContent_exceeds_by_two :
  limitContent 3 (js "abc" ++ [10; 10]%N ++ js "xyz") = js "abc" ++ [10; 10]%N.
Proof. vm_compute. reflexivity. Qed.

Example limitContent_sentence :
  limitContent 20 (js "One two three four. Five six seven.") = js "One two three four."
  /\ limitContent 20 (js "One two three. Four five six seven.") = js "One two three. Four".
Proof. split; vm_compute; reflexivity. Qed.

(** X1 (formatSearchResult, findNaturalBreakpoint): the content of a
    formatted result is a prefix of the content it was given, and it is
    that content itself when this is no longer than [maxContentLength]. *)
Theorem limitContent_prefix (maxContentLength k : nat) (content : jsstring) :
  limitContent maxContentLength content `prefix_of` content
  /\ limitContent (length content + k) content = content.
Proof.
  unfold limitContent. split.
  - destruct (_ <? _); [apply prefix_take | done].
  - destruct (Nat.ltb_spec (length content + k) (length content)); [lia | done].
Qed.

(** X2 (formatSearchResult, findNaturalBreakpoint): a content longer
    than [maxContentLength] is cut to a length between four fifths of
    [maxContentLength] and [maxContentLength + 2]: the two code units of
    a paragraph break at the target position are kept. *)
Theorem limitContent_length (maxContentLength : nat) (content : jsstring) :
  Nat.min (length content) (maxContentLength - maxContentLength / 5)
  <= length (limitContent maxContentLength content)
  <= maxContentLength + 2.
Proof.
  unfold limitContent. destruct (Nat.ltb_spec maxContentLength (length content)) as [H|H].
  - pose proof (findNaturalBreakpoint_range content maxContentLength) as Hr.
    rewrite length_take. lia.
  - lia.
Qed.

End FormatFacts.

(* ================================================================== *)
(** ** The excerpt that matches the queries *)
(* ================================================================== *)

Module RelevantFacts.
Import Relevant Format StringFacts.

Section ExtractRelevantChunkFacts.
Variable toLowerCase : jsstring -> jsstring.

(** The chunk the [while] loop leaves is the one it started from, or it
    ends in the space that follows its last sentence and is within
    [maxChunkSize] without it. *)
Lemma gather_shape sentences chunk :
  gather sentences chunk = chunk
  \/ exists x, gather sentences chunk = x ++ [32%N] /\ length x <= maxChunkSize.
Proof.
  revert chunk. induction sentences as [|s rest IH]; intros chunk; simpl; [by left|].
  destruct (Nat.leb_spec (length chunk + length s) maxChunkSize) as [H|H]; [|by left].
  right. destruct (IH (chunk ++ s ++ js " ")) as [->|(x & -> & Hx)].
  - exists (chunk ++ s). split; [by rewrite <- app_assoc|]. by rewrite length_app.
  - by exists x.
Qed.

Lemma length_trim_gather sentences :
  length (trim (gather sentences [])) <= maxChunkSize.
Proof.
  destruct (gather_shape sentences []) as [->|(x & -> & Hx)].
  - simpl. lia.
  - etrans; [apply length_trim_snoc_space | done].
Qed.

Lemma scan_length queries sentences best :
  length best.1 <= maxChunkSize ->
  length (scan toLowerCase queries sentences best).1 <= maxChunkSize.
Proof.
  revert best. induction sentences as [|s rest IH]; intros best Hb; [done|].
  cbn [scan]. apply IH. destruct (_ <? _); [|done].
  apply (length_trim_gather (s :: rest)).
Qed.

Lemma extractRelevantChunk_bound (content : jsstring) (queries : list jsstring) :
  length (extractRelevantChunk toLowerCase content queries) <= maxChunkSize.
Proof.
  unfold extractRelevantChunk.
  pose proof (scan_length queries (IndexDb.match_sentences (length content) content)
                ([], 0)) as H.
  destruct (scan _ _ _ _).1 as [|c b] eqn:E.
  - unfold slice. rewrite length_take. lia.
  - apply H. simpl. lia.
Qed.

(** X3 (extractRelevantChunk): the excerpt never has more than
    [maxChunkSize] = 1500 code units, whatever the content and the
    queries. *)
Theorem extractRelevantChunk_length (content : jsstring) (queries : list jsstring) :
  length (extractRelevantChunk toLowerCase content queries) <= 1500.
Proof. apply extractRelevantChunk_bound. Qed.

(** X4 (handleSearchWebsite, formatSearchResult): formatSearchResult
    applied to a result whose content is the excerpt of
    extractRelevantChunk returns that excerpt whole. *)
Theorem formatSearchResult_keeps_excerpt (result : Tools.RankedResult)
    (queries : list jsstring) :
  let relevantChunk :=
    extractRelevantChunk toLowerCase (Tools.content result) queries in
  Tools.f_content
    (formatSearchResult
       {| Tools.url := Tools.url result; Tools.title := Tools.title result;
          Tools.content := relevantChunk; Tools.distance := Tools.distance result;
          Tools.relevance := Tools.relevance result;
          Tools.matchedQueries := Tools.matchedQueries result |})
  = relevantChunk.
Proof.
  intros relevantChunk. unfold formatSearchResult, Tools.formatSearchResult. simpl.
  unfold limitContent.
  pose proof (extractRelevantChunk_bound (Tools.content result) queries) as H.
  fold relevantChunk in H. unfold maxChunkSize in H. unfold maxContentLength.
  destruct (Nat.ltb_spec 1500 (length relevantChunk)); [lia | done].
Qed.

End ExtractRelevantChunkFacts.

Example extractRelevantChunk_example :
  extractRelevantChunk (fun s => s)
    (js "Install the package. Configure the server! Then run it.")
    [js "configure server"]
  = js "Install the package.  Configure the server!  Then run it.".
Proof. vm_compute. reflexivity. Qed.

End RelevantFacts.

(* ================================================================== *)
(** ** Sorting *)
(* ================================================================== *)

Module SortFacts.

Section Sort.
Context {A : Type} (before : A -> A -> bool) (R : A -> A -> Prop).
Hypothesis before_R : forall x y, before x y = true -> R x y.
Hypothesis not_before_R : forall x y, before x y = false -> R y x.
Hypothesis R_trans : forall x y z, R x y -> R y z -> R x z.

Lemma insert_sorted_sorted x l :
  StronglySorted R l -> StronglySorted R (insert_sorted before x l).
Proof.
  induction l as [|y l IH]; intros Hl; simpl.
  - constructor; [constructor | constructor].
  - apply StronglySorted_inv in Hl as [Hl Hy].
    destruct (before x y) eqn:E.
    + constructor; [by constructor|]. constructor; [by apply before_R|].
      eapply Forall_impl; [exact Hy|]. intros z Hz. simpl in Hz.
      eapply R_trans; [|exact Hz]. by apply before_R.
    + constructor; [by apply IH|].
      rewrite (RuntimeFacts.insert_sorted_perm before x l).
      constructor; [by apply not_before_R | done].
Qed.

(** [arr.sort(cmp)] leaves the array in the order of [cmp]. *)
Lemma stable_sort_sorted l : StronglySorted R (stable_sort before l).
Proof.
  induction l as [|x l IH]; simpl; [constructor|].
  by apply insert_sorted_sorted.
Qed.
End Sort.

End SortFacts.

(* ================================================================== *)
(** ** The chunker: number of chunks, overlap, white space *)
(* ================================================================== *)

Module ChunkerShape.
Import Chunker ChunkerFacts.

Section Windows.
Variables (W O : nat).
Hypothesis HOW : O < W.

(** The loop makes one more window for every started [W - O] words
    beyond the first [W]. *)
Lemma window_loop_length fuel words start :
  start < length words -> length words <= start + fuel ->
  length (window_loop W O fuel words start)
  = S ((length words - start - W + (W - O - 1)) / (W - O)).
Proof.
  revert start. induction fuel as [|fuel IH]; intros start Hs Hf; [lia|].
  cbn [window_loop]. destruct (Nat.ltb_spec start (length words)); [|lia].
  cbv zeta.
  destruct (Nat.eqb_spec (Nat.min (start + W) (length words)) (length words)) as [E|E].
  - simpl. f_equal. symmetry. apply Nat.div_small. lia.
  - cbn [length]. f_equal. rewrite IH by lia.
    set (step := W - O) in *. set (n := length words) in *.
    assert (0 < step) by (unfold step; lia).
    destruct (Nat.le_gt_cases step (n - start - W)) as [Hd|Hd].
    + replace (n - start - W + (step - 1))
        with ((n - (start + step) - W + (step - 1)) + 1 * step) by lia.
      rewrite Nat.div_add by lia. lia.
    + replace (n - (start + step) - W) with 0 by lia.
      rewrite (Nat.div_small (0 + (step - 1))) by lia.
      apply (Nat.div_unique _ _ _ (n - start - W - 1)); lia.
Qed.

(** A window that is not the last one is full. *)
Lemma window_loop_next fuel words start i w :
  window_loop W O fuel words start !! S i = Some w ->
  start + i * (W - O) + W < length words.
Proof.
  clear HOW. revert start i.
  induction fuel as [|fuel IH]; intros start i; [done|].
  cbn [window_loop]. destruct (Nat.ltb_spec start (length words)); [|done].
  cbv zeta.
  destruct (Nat.eqb_spec (Nat.min (start + W) (length words)) (length words)) as [E|E];
    [done|].
  destruct i as [|i]; [intros _; simpl; lia|].
  intros Hi. apply IH in Hi. simpl. lia.
Qed.

(** Two windows in a row: the first is full, and its last [O] words are
    the first [O] words of the second, which brings at least one more. *)
Lemma windows_overlap words i a b :
  windows W O words !! i = Some a ->
  windows W O words !! S i = Some b ->
  length a = W /\ take O b = drop (W - O) a /\ O < length b.
Proof.
  unfold windows. intros Ha Hb.
  pose proof (window_loop_next _ _ _ _ _ Hb) as Hfull.
  apply window_loop_lookup in Ha as [_ ->].
  apply window_loop_lookup in Hb as [Hlt ->].
  simpl in *. unfold slice.
  rewrite !Nat.min_l by lia.
  replace (i * (W - O) + W - i * (W - O)) with W by lia.
  set (s := i * (W - O)) in *.
  set (k := Nat.min (W - O + s + W) (length words) - (W - O + s)).
  assert (O < k) by (unfold k; lia).
  repeat split.
  - rewrite length_take, length_drop. lia.
  - rewrite take_take, Nat.min_l by lia.
    rewrite (take_drop_commute _ O (W - O + s)).
    rewrite (take_drop_commute _ W s), drop_drop.
    f_equal; [lia | f_equal; lia].
  - rewrite length_take, length_drop. lia.
Qed.
End Windows.

Lemma words_ok_nospace ws : words_ok ws -> Forall nospace ws.
Proof.
  destruct ws as [|w rest]; [done|]. intros [Hw Hrest].
  constructor; [done|]. clear w Hw.
  induction rest as [|w rest IH]; [constructor|].
  apply tail_ok_inv in Hrest as [Hw Hrest]. constructor; [done | by apply IH].
Qed.

Lemma join_space_spaces ws :
  Forall nospace ws ->
  Forall (fun c => is_space c = true -> c = 32%N) (join_space ws).
Proof.
  induction ws as [|w rest IH]; intros H; [constructor|].
  apply Forall_cons in H as [Hw Hrest].
  assert (Forall (fun c => is_space c = true -> c = 32%N) w) as Hw'.
  { unfold nospace in Hw. rewrite forallb_forall in Hw. apply Forall_forall.
    intros c Hc Hsp. apply list_elem_of_In in Hc. apply Hw in Hc.
    rewrite Hsp in Hc. done. }
  destruct rest as [|w' rest']; [done|].
  change (join_space (w :: w' :: rest')) with (w ++ 32%N :: join_space (w' :: rest')).
  apply Forall_app. split; [done|]. constructor; [done | by apply IH].
Qed.

Lemma chunk_words_lookup markdown i c :
  chunkMarkdownSlidingWindow markdown !! i = Some c ->
  windows chunkSize overlap (split_ws markdown) !! i = Some (split_ws c).
Proof.
  unfold chunkMarkdownSlidingWindow, chunk_words. intros H.
  change (map join_space ?l) with (join_space <$> l) in H.
  rewrite list_lookup_fmap in H.
  destruct (windows chunkSize overlap (split_ws markdown) !! i) as [a|] eqn:E; [|done].
  injection H as <-. f_equal. symmetry. apply split_join.
  pose proof (windows_words_ok chunkSize overlap (split_ws markdown)) as Hw.
  rewrite Forall_lookup in Hw. eapply Hw; [unfold chunkSize; lia | apply split_ws_words_ok | done].
Qed.

(** X5 (chunkMarkdownSlidingWindow): a text of [n] words gives one chunk
    when [n] is at most 500 and one more for every started 435 words
    beyond 500; a text without words still gives one (empty) chunk. *)
Theorem chunkMarkdownSlidingWindow_count (markdown : jsstring) :
  length (chunkMarkdownSlidingWindow markdown)
  = S ((length (split_ws markdown) - 500 + 434) / 435).
Proof.
  unfold chunkMarkdownSlidingWindow, chunk_words, windows.
  change (map join_space ?l) with (join_space <$> l). rewrite length_fmap.
  pose proof (split_go_nonempty false markdown) as Hne. fold (split_ws markdown) in Hne.
  rewrite (window_loop_length chunkSize overlap overlap_lt_chunkSize) by
    (destruct (split_ws markdown); simpl in *; [done | lia]).
  rewrite Nat.sub_0_r. reflexivity.
Qed.

(** X6 (chunkMarkdownSlidingWindow): of two chunks in a row the first
    has exactly 500 words, its last 65 words are the first 65 words of
    the second, and the second has more than 65 words. *)
Theorem chunk_overlap (markdown : jsstring) (i : nat) (c d : jsstring) :
  chunkMarkdownSlidingWindow markdown !! i = Some c ->
  chunkMarkdownSlidingWindow markdown !! S i = Some d ->
  length (split_ws c) = 500
  /\ take 65 (split_ws d) = drop 435 (split_ws c)
  /\ 65 < length (split_ws d).
Proof.
  intros Hc Hd. apply chunk_words_lookup in Hc, Hd.
  exact (windows_overlap chunkSize overlap overlap_lt_chunkSize _ _ _ _ Hc Hd).
Qed.

Lemma chunk_overlap_witness :
  let markdown := join_space (repeat (js "w") 600) in
  exists c d,
    chunkMarkdownSlidingWindow markdown !! 0 = Some c
    /\ chunkMarkdownSlidingWindow markdown !! 1 = Some d
    /\ length (split_ws c) = 500
    /\ take 65 (split_ws d) = drop 435 (split_ws c)
    /\ 65 < length (split_ws d).
Proof.
  intros markdown.
  exists (join_space (repeat (js "w") 500)), (join_space (repeat (js "w") 165)).
  assert (chunkMarkdownSlidingWindow markdown !! 0
          = Some (join_space (repeat (js "w") 500))) as H0
    by (vm_compute; reflexivity).
  assert (chunkMarkdownSlidingWindow markdown !! 1
          = Some (join_space (repeat (js "w") 165))) as H1
    by (vm_compute; reflexivity).
  split; [exact H0|]. split; [exact H1|].
  exact (chunk_overlap markdown 0 _ _ H0 H1).
Defined.

(** X7 (chunkMarkdownSlidingWindow): the only white space in a chunk is
    the single space U+0020 that joins two words; line feeds, tabs and
    the other white space of the text are not kept. *)
Theorem chunk_white_space (markdown : jsstring) :
  Forall (fun chunk => Forall (fun c => is_space c = true -> c = 32%N) chunk)
    (chunkMarkdownSlidingWindow markdown).
Proof.
  unfold chunkMarkdownSlidingWindow, chunk_words.
  change (map join_space ?l) with (join_space <$> l). apply Forall_fmap.
  pose proof (windows_words_ok chunkSize overlap (split_ws markdown)) as Hw.
  eapply Forall_impl; [apply Hw; [unfold chunkSize; lia | apply split_ws_words_ok]|].
  intros ws Hws. simpl. by apply join_space_spaces, words_ok_nospace.
Qed.

Example chunk_line_feeds :
  chunkMarkdownSlidingWindow (js "# Title" ++ [10; 10]%N ++ js "- item" ++ [10%N] ++ js "- item")
  = [js "# Title - item - item"].
Proof. vm_compute. reflexivity. Qed.

End ChunkerShape.

(* ================================================================== *)
(** ** The Qdrant-backed index and search: results and stored points *)
(* ================================================================== *)

Module QdrantSearchFacts.
Import Chunker Qdrant QdrantFacts.

Lemma mapC_Normal {E A B} (f : A -> completion E B) xs ys :
  mapC f xs = Normal ys -> Forall2 (fun x y => f x = Normal y) xs ys.
Proof.
  revert ys. induction xs as [|x xs IH]; intros ys; simpl.
  - intros [= <-]. constructor.
  - destruct (f x) as [y|e] eqn:Ex; simpl; [|done].
    destruct (mapC f xs) as [ys'|e] eqn:Exs; simpl; [|done].
    intros [= <-]. constructor; [done | by apply IH].
Qed.

Lemma mapC_Throw {E A B} (f : A -> completion E B) xs e :
  mapC f xs = Throw e -> exists x, x ∈ xs /\ f x = Throw e.
Proof.
  induction xs as [|x xs IH]; simpl; [done|].
  destruct (f x) as [y|e'] eqn:Ex; simpl.
  - destruct (mapC f xs) as [ys'|e'] eqn:Exs; simpl; [done|].
    intros [= ->]. destruct IH as (x' & Hx' & Hf); [done|].
    exists x'. split; [by right | done].
  - intros [= ->]. exists x. split; [by left | done].
Qed.

Lemma mapC_all_Normal {E A B} (f : A -> completion E B) xs :
  (forall x, x ∈ xs -> exists y, f x = Normal y) ->
  exists ys, mapC f xs = Normal ys.
Proof.
  induction xs as [|x xs IH]; intros H; simpl; [by eexists|].
  destruct (H x) as [y ->]; [by left|]. simpl.
  destruct IH as [ys ->]; [intros x' Hx'; apply H; by right|]. simpl. by eexists.
Qed.

(** Every hit leaves its key in the filtered list, unless the key was
    seen before. *)
Lemma filter_unseen_complete seen l h :
  h ∈ l ->
  chunk_key h ∈ seen \/ chunk_key h ∈ map chunk_key (filter_unseen seen l).
Proof.
  revert seen. induction l as [|r l IH]; intros seen Hh; [by apply elem_of_nil in Hh|].
  simpl. apply elem_of_cons in Hh as [->|Hh].
  - destruct (decide (chunk_key r ∈ seen)); [by left|]. right. simpl. by left.
  - destruct (decide (chunk_key r ∈ seen)); [by apply IH|].
    destruct (IH ({[chunk_key r]} ∪ seen) Hh) as [H|H].
    + apply elem_of_union in H as [H|H]; [|by left].
      apply elem_of_singleton in H. right. simpl. rewrite H. by left.
    + right. simpl. by right.
Qed.

Section Services.
Variable loadEmbedder : completion jsstring unit.
Variable embedChunk : jsstring -> completion jsstring (list Q).
Variable searchQdrantByEmbedding : list Q -> Z -> completion jsstring (list ScoredPoint).
Variable randomUUID : nat -> N.

(** X8 (multiQueryQdrantSearch): a search that returns gives the hits
    of all the queries by descending score, one hit per chunk key, with
    no key of any hit missing; a search that throws throws what loading
    the embedder, embedding a query or searching for it threw. *)
Theorem multiQueryQdrantSearch_result (queries : list jsstring) (perQueryLimit : Z) :
  match multiQueryQdrantSearch loadEmbedder embedChunk searchQdrantByEmbedding
          queries perQueryLimit with
  | Normal results =>
      StronglySorted (fun a b => (score b <= score a)%Q) results
      /\ NoDup (map chunk_key results)
      /\ exists hits,
           Forall2 (fun query h =>
                      exists embedding,
                        embedChunk query = Normal embedding
                        /\ searchQdrantByEmbedding embedding perQueryLimit = Normal h)
                   queries hits
           /\ (forall r, r ∈ results -> r ∈ concat hits)
           /\ (forall h, h ∈ concat hits -> chunk_key h ∈ map chunk_key results)
  | Throw e =>
      loadEmbedder = Throw e
      \/ exists query, query ∈ queries
           /\ (embedChunk query = Throw e
               \/ exists embedding,
                    embedChunk query = Normal embedding
                    /\ searchQdrantByEmbedding embedding perQueryLimit = Throw e)
  end.
Proof.
  unfold multiQueryQdrantSearch.
  destruct loadEmbedder as [[]|e]; simpl; [|by left].
  destruct (mapC _ queries) as [hits|e] eqn:Em; simpl.
  - assert (stable_sort (fun a b => Qle_bool (score b) (score a))
              (filter_unseen ∅ (concat hits))
            ≡ₚ filter_unseen ∅ (concat hits)) as Hperm
      by apply RuntimeFacts.stable_sort_perm.
    destruct (filter_unseen_keys ∅ (concat hits)) as [Hnd Hin].
    split; [|split; [|exists hits; split; [|split]]].
    + apply SortFacts.stable_sort_sorted.
      * intros x y H. by apply Qle_bool_iff in H.
      * intros x y H. apply Qlt_le_weak, Qnot_le_lt. intros Hle.
        apply Qle_bool_iff in Hle. congruence.
      * intros x y z Hxy Hyz. eapply Qle_trans; eassumption.
    + change (map chunk_key ?l) with (chunk_key <$> l) in *. by rewrite Hperm.
    + apply mapC_Normal in Em. eapply Forall2_impl; [exact Em|].
      intros query h H. simpl in H.
      destruct (embedChunk query) as [embedding|]; simpl in H; [|done].
      by exists embedding.
    + intros r Hr. rewrite Hperm in Hr. by apply Hin.
    + intros h Hh. change (map chunk_key ?l) with (chunk_key <$> l). rewrite Hperm.
      destruct (filter_unseen_complete ∅ _ _ Hh) as [H|H]; [|done].
      by apply elem_of_empty in H.
  - right. apply mapC_Throw in Em as (query & Hq & Hf). exists query. split; [done|].
    destruct (embedChunk query) as [embedding|e']; simpl in Hf.
    + right. by exists embedding.
    + left. congruence.
Qed.

(** With every upsert succeeding, the batches of 20 store what one
    upsert of all the points stores. *)
Lemma upsert_loop_all fuel i allPoints coll :
  length allPoints <= i + fuel ->
  upsert_loop (fun _ => true) fuel i allPoints coll = upsert (drop i allPoints) coll.
Proof.
  revert i coll. induction fuel as [|fuel IH]; intros i coll Hf.
  - simpl. by rewrite drop_ge by lia.
  - cbn [upsert_loop]. destruct (Nat.ltb_spec i (length allPoints)) as [Hi|Hi].
    + rewrite IH by (unfold BATCH_SIZE; lia). unfold upsert, slice.
      replace (i + BATCH_SIZE - i) with BATCH_SIZE by lia.
      rewrite <- foldl_app, <- (drop_drop _ BATCH_SIZE i), take_drop. done.
    + by rewrite drop_ge by lia.
Qed.

(** With every upsert failing nothing is stored. *)
Lemma upsert_loop_none fuel i allPoints coll :
  upsert_loop (fun _ => false) fuel i allPoints coll = coll.
Proof.
  revert i. induction fuel as [|fuel IH]; intros i; [done|].
  cbn [upsert_loop]. destruct (_ <? _); [apply IH | done].
Qed.

Lemma count_for_url_insert coll (p : Point) u :
  coll !! point_id p = None ->
  count_for_url (<[point_id p := p]> coll) u
  = count_for_url coll u + (if decide (p_url (payload p) = u) then 1 else 0).
Proof.
  intros H. unfold count_for_url.
  rewrite (map_to_list_insert coll (point_id p) p H). rewrite filter_cons. simpl.
  destruct (decide (p_url (payload p) = u)); simpl; lia.
Qed.

(** Points with new, distinct ids are all added. *)
Lemma upsert_fresh pts : forall coll,
  NoDup (map point_id pts) ->
  (forall p, p ∈ pts -> coll !! point_id p = None) ->
  (forall u, count_for_url (upsert pts coll) u
             = count_for_url coll u
               + length (filter (fun p => p_url (payload p) = u) pts))
  /\ (forall p, p ∈ pts -> upsert pts coll !! point_id p = Some p)
  /\ (forall k, k ∉ map point_id pts -> upsert pts coll !! k = coll !! k).
Proof.
  induction pts as [|p pts IH]; intros coll Hnd Hf.
  - repeat split; [intros u; simpl; lia | intros p Hp; by apply elem_of_nil in Hp].
  - simpl in Hnd. apply NoDup_cons in Hnd as [Hp Hnd].
    destruct (IH (<[point_id p := p]> coll) Hnd) as (Hc & Hs & Ho).
    { intros q Hq. rewrite lookup_insert_ne; [apply Hf; by right|].
      intros E. apply Hp. rewrite E.
      change (map point_id pts) with (point_id <$> pts). by apply list_elem_of_fmap_2. }
    unfold upsert in *. simpl. repeat split.
    + intros u. rewrite Hc, count_for_url_insert by (apply Hf; by left).
      rewrite filter_cons. destruct (decide (p_url (payload p) = u)); simpl; lia.
    + intros q Hq. apply elem_of_cons in Hq as [->|Hq]; [|by apply Hs].
      rewrite Ho by done. by rewrite lookup_insert_eq.
    + intros k Hk. apply not_elem_of_cons in Hk as [Hk1 Hk2].
      rewrite Ho by done. by rewrite lookup_insert_ne.
Qed.

(** The points saveChunksToQdrant builds. *)
Definition allPoints (url timestamp_ : jsstring) (chunks : list jsstring)
    (drawn : nat) (chunkEmbeddings : list (list Q)) : list Point :=
  imap (fun idx embedding =>
          {| point_id := randomUUID (drawn + idx);
             vector := embedding;
             payload := {| p_url := url;
                           chunk_id := url ++ js "#chunk-" ++ decimal idx;
                           p_content := default [] (chunks !! idx);
                           timestamp := timestamp_ |} |})
       chunkEmbeddings.

Lemma allPoints_ids url timestamp_ chunks drawn embs :
  map point_id (allPoints url timestamp_ chunks drawn embs)
  = map (fun idx => randomUUID (drawn + idx)) (seq 0 (length embs)).
Proof.
  unfold allPoints. apply list_eq. intros i.
  change (map ?f ?l) with (f <$> l).
  rewrite !list_lookup_fmap, list_lookup_imap.
  destruct (embs !! i) as [e|] eqn:E; simpl.
  - rewrite lookup_seq_lt by (by eapply lookup_lt_Some). done.
  - rewrite lookup_seq_ge by (by apply lookup_ge_None). done.
Qed.

Lemma allPoints_urls url timestamp_ chunks drawn embs :
  filter (fun p => p_url (payload p) = url) (allPoints url timestamp_ chunks drawn embs)
  = allPoints url timestamp_ chunks drawn embs.
Proof.
  assert (Forall (fun p => p_url (payload p) = url)
            (allPoints url timestamp_ chunks drawn embs)) as H.
  { apply Forall_forall. intros p Hp.
    apply list_elem_of_lookup in Hp as [i Hi]. unfold allPoints in Hi.
    rewrite list_lookup_imap in Hi. destruct (embs !! i); simpl in Hi; [|done].
    by injection Hi as <-. }
  induction H as [|p pts Hp _ IH]; [done|].
  by rewrite filter_cons_True, IH.
Qed.

(** X9 (saveChunksToQdrant): when the embeddings and the upserts
    succeed and the UUIDs drawn are new and distinct, every chunk of the
    page is stored as a point of its own under the id drawn for it, with
    the chunk id [url#chunk-idx] and the chunk as content, and the
    number of points stored for the URL grows by the number of chunks. *)
Theorem saveChunksToQdrant_adds_chunks (url markdown timestamp_ : jsstring)
    (st : QState) :
  let chunks := chunkMarkdownSlidingWindow markdown in
  loadEmbedder = Normal tt ->
  (forall chunk, chunk ∈ chunks -> exists embedding, embedChunk chunk = Normal embedding) ->
  (forall i j, i < length chunks -> j < length chunks ->
     randomUUID (uuids_drawn st + i) = randomUUID (uuids_drawn st + j) -> i = j) ->
  (forall i, i < length chunks ->
     collection st !! randomUUID (uuids_drawn st + i) = None) ->
  exists st',
    saveChunksToQdrant loadEmbedder embedChunk randomUUID (fun _ => true)
      url markdown timestamp_ st = Normal st'
    /\ count_for_url (collection st') url
       = count_for_url (collection st) url + length chunks
    /\ forall idx chunk, chunks !! idx = Some chunk ->
         exists embedding,
           embedChunk chunk = Normal embedding
           /\ collection st' !! randomUUID (uuids_drawn st + idx)
              = Some {| point_id := randomUUID (uuids_drawn st + idx);
                        vector := embedding;
                        payload := {| p_url := url;
                                      chunk_id := url ++ js "#chunk-" ++ decimal idx;
                                      p_content := chunk;
                                      timestamp := timestamp_ |} |}.
Proof.
  intros chunks Hload Hemb Hinj Hfresh. unfold saveChunksToQdrant.
  rewrite Hload. simpl. fold chunks.
  destruct (mapC_all_Normal embedChunk chunks Hemb) as [embs Hembs].
  rewrite Hembs. simpl. eexists. split; [reflexivity|]. simpl.
  apply mapC_Normal in Hembs. pose proof (Forall2_length _ _ _ Hembs) as Hlen.
  fold (allPoints url timestamp_ chunks (uuids_drawn st) embs).
  rewrite upsert_loop_all by lia.
  rewrite drop_0.
  destruct (upsert_fresh (allPoints url timestamp_ chunks (uuids_drawn st) embs)
              (collection st)) as (Hc & Hs & _).
  { rewrite allPoints_ids. change (map ?f ?l) with (f <$> l).
    apply NoDup_fmap_2_strong; [|apply NoDup_seq].
    intros i j Hi Hj E. apply elem_of_seq in Hi, Hj. apply Hinj; [lia | lia | done]. }
  { intros p Hp. apply list_elem_of_lookup in Hp as [i Hi]. unfold allPoints in Hi.
    rewrite list_lookup_imap in Hi. destruct (embs !! i) eqn:E; simpl in Hi; [|done].
    injection Hi as <-. simpl. apply Hfresh. rewrite Hlen. by eapply lookup_lt_Some. }
  split.
  - rewrite Hc, allPoints_urls. unfold allPoints. rewrite length_imap. lia.
  - intros idx chunk Hidx.
    destruct (Forall2_lookup_l _ _ _ _ _ Hembs Hidx) as (embedding & He & Hf).
    exists embedding. split; [done|].
    apply (Hs {| point_id := randomUUID (uuids_drawn st + idx);
                 vector := embedding;
                 payload := {| p_url := url;
                               chunk_id := url ++ js "#chunk-" ++ decimal idx;
                               p_content := chunk;
                               timestamp := timestamp_ |} |}).
    apply list_elem_of_lookup. exists idx. unfold allPoints.
    rewrite list_lookup_imap, He. cbn [fmap option_fmap option_map].
    do 3 f_equal. exact (f_equal (default []) Hidx).
Qed.

(** X10 (saveChunksToQdrant): a failing upsert is logged and nothing
    else: whether the call throws, and what, does not depend on the
    upserts, and when they all fail the call returns with the collection
    as it was. *)
Theorem saveChunksToQdrant_swallows_upsert_errors (upsert_ok : list Point -> bool)
    (url markdown timestamp_ : jsstring) (st : QState) :
  match saveChunksToQdrant loadEmbedder embedChunk randomUUID upsert_ok
          url markdown timestamp_ st,
        saveChunksToQdrant loadEmbedder embedChunk randomUUID (fun _ => false)
          url markdown timestamp_ st with
  | Normal st1, Normal st0 =>
      collection st0 = collection st /\ uuids_drawn st1 = uuids_drawn st0
  | Throw e1, Throw e0 => e1 = e0
  | _, _ => False
  end.
Proof.
  unfold saveChunksToQdrant. destruct loadEmbedder as [[]|e]; simpl; [|done].
  destruct (mapC embedChunk _) as [embs|e]; simpl; [|done].
  split; [apply upsert_loop_none | done].
Qed.
End Services.

Lemma saveChunksToQdrant_adds_chunks_witness :
  let url := js "https://docs.example/a" in
  exists st',
    saveChunksToQdrant (Normal tt) (fun _ => Normal [1%Q]) N.of_nat (fun _ => true)
      url (js "hello world") (js "t") {| collection := ∅; uuids_drawn := 0 |}
    = Normal st'
    /\ count_for_url (collection st') url = 0 + 1.
Proof.
  intros url.
  destruct (saveChunksToQdrant_adds_chunks (Normal tt) (fun _ => Normal [1%Q]) N.of_nat
              url (js "hello world") (js "t") {| collection := ∅; uuids_drawn := 0 |})
    as (st' & Hs & Hc & _).
  - reflexivity.
  - intros chunk _. by eexists.
  - simpl. intros i j _ _ E. by apply Nat2N.inj in E.
  - intros i _. apply lookup_empty.
  - exists st'. split; [exact Hs | exact Hc].
Defined.

End QdrantSearchFacts.

(* ================================================================== *)
(** ** The recursive crawl: what is tried, and how far from the start *)
(* ================================================================== *)

Module CrawlingReach.
Import Crawling CrawlingFacts.

Section Reach.
Variable crawlSingleUrl : jsstring -> option (jsstring * list jsstring).

(** [v] is among the URLs discovered on the page [u], which was fetched. *)
Definition links_to (u v : jsstring) : Prop :=
  exists markdown discoveredUrls,
    crawlSingleUrl u = Some (markdown, discoveredUrls) /\ v ∈ discoveredUrls.

(** [v] is [u] or is reached from it over at most [k] links of fetched
    pages. *)
Inductive within : nat -> jsstring -> jsstring -> Prop :=
| within_here k u : within k u u
| within_link k u m v : links_to u m -> within k m v -> within (S k) u v.

Lemma within_mono k k' u v : k <= k' -> within k u v -> within k' u v.
Proof.
  intros Hk H. revert k' Hk. induction H as [k u|k u m v Hl H IH]; intros k' Hk.
  - constructor.
  - destruct k' as [|k']; [lia|]. econstructor; [exact Hl|]. apply IH. lia.
Qed.

(** What a call of crawlRecursive tries lies within the depth it has
    left. *)
Lemma crawlRecursive_within fuel url depth maxDepth maxPages st v :
  v ∈ attempts (crawlRecursive crawlSingleUrl fuel url depth maxDepth maxPages st) ->
  v ∈ attempts st \/ (depth <= maxDepth /\ within (maxDepth - depth) url v).
Proof.
  revert url depth st. induction fuel as [|fuel IH]; intros url depth st; simpl;
    [by left|].
  destruct (decide (url ∈ visited st)); [by left|].
  destruct (Nat.ltb_spec maxDepth depth) as [Hd|Hd]; [by left|].
  destruct (maxPages <=? pagesCrawled st); [by left|].
  destruct (crawlSingleUrl url) as [[markdown discoveredUrls]|] eqn:Hfetch.
  - assert (forall l s,
              (forall d, d ∈ l -> links_to url d) ->
              v ∈ attempts
                    (foldl (fun s discoveredUrl =>
                              if decide (discoveredUrl ∈ visited s) then s
                              else crawlRecursive crawlSingleUrl fuel discoveredUrl
                                     (depth + 1) maxDepth maxPages s) s l) ->
              v ∈ attempts s \/ within (maxDepth - depth) url v) as Hfold.
    { induction l as [|d l IHl]; intros s Hl; simpl; [by left|]. intros Hv.
      apply IHl in Hv; [|intros d' Hd'; apply Hl; by right].
      destruct Hv as [Hv|Hv]; [|by right].
      destruct (decide (d ∈ visited s)); [by left|].
      apply IH in Hv as [Hv|[Hle Hw]]; [by left|]. right.
      replace (maxDepth - depth) with (S (maxDepth - (depth + 1))) by lia.
      econstructor; [apply Hl; by left | exact Hw]. }
    intros Hv. apply Hfold in Hv.
    + destruct Hv as [Hv|Hv]; [|by right]. simpl in Hv.
      apply elem_of_app in Hv as [Hv|Hv]; [by left|].
      apply list_elem_of_singleton in Hv as ->. right. split; [done | constructor].
    + intros d Hd'. by exists markdown, discoveredUrls.
  - simpl. intros Hv. apply elem_of_app in Hv as [Hv|Hv]; [by left|].
    apply list_elem_of_singleton in Hv as ->. right. split; [done | constructor].
Qed.

(** X11 (crawlWebsite, crawlRecursive): a crawl whose first page is
    fetched hands no URL to crawlSingleUrl twice, and the URLs it has
    handed to it are those of [visited]. *)
Theorem crawlWebsite_tries_once (url : jsstring) :
  match crawlWebsite crawlSingleUrl url with
  | Some st =>
      NoDup (attempts st) /\ forall u, u ∈ attempts st <-> u ∈ visited st
  | None => True
  end.
Proof.
  unfold crawlWebsite. generalize (maxDepth + 1). intros fuel.
  destruct (crawlSingleUrl url) as [[md discoveredUrls]|] eqn:Hfetch; [|done].
  match goal with |- context [foldl ?f ?s ?l] =>
    destruct (foldl_extends crawlSingleUrl maxPages f l s)
      as (new & Ha & Hn & Hd & Hv & Hp & Hb)
  end.
  { intros s u. apply crawlRecursive_extends. }
  simpl in *. rewrite Ha. split.
  - apply NoDup_cons. split; [|done].
    intros Hu. apply (Hd url Hu). by apply elem_of_singleton.
  - intros u. rewrite Hv, elem_of_cons, elem_of_singleton. tauto.
Qed.

(** X12 (crawlWebsite, crawlRecursive): every URL a crawl tries is the
    start URL or is reached from it over at most [maxDepth] = 2 links,
    each found on a page that was fetched. *)
Theorem crawlWebsite_within_depth (url : jsstring) :
  match crawlWebsite crawlSingleUrl url with
  | Some st => Forall (within 2 url) (attempts st)
  | None => True
  end.
Proof.
  unfold crawlWebsite. generalize (maxDepth + 1). intros fuel.
  destruct (crawlSingleUrl url) as [[md discoveredUrls]|] eqn:Hfetch; [|done].
  apply Forall_forall. intros v.
  assert (forall l s,
            (forall d, d ∈ l -> links_to url d) ->
            v ∈ attempts
                  (foldl (fun s discoveredUrl =>
                            crawlRecursive crawlSingleUrl fuel discoveredUrl 1
                              maxDepth maxPages s) s l) ->
            v ∈ attempts s \/ within 2 url v) as Hfold.
  { induction l as [|d l IHl]; intros s Hl; simpl; [by left|]. intros Hv.
    apply IHl in Hv; [|intros d' Hd'; apply Hl; by right].
    destruct Hv as [Hv|Hv]; [|by right].
    apply crawlRecursive_within in Hv as [Hv|[_ Hw]]; [by left|]. right.
    econstructor; [apply Hl; by left | exact Hw]. }
  intros Hv. apply Hfold in Hv.
  - destruct Hv as [Hv|Hv]; [|done]. simpl in Hv.
    apply list_elem_of_singleton in Hv as ->. constructor.
  - intros d Hd. by exists md, discoveredUrls.
Qed.
End Reach.

(** A chain of four pages: the crawl stops two links from the start. *)
Example crawlWebsite_chain :
  let site u :=
    if decide (u = js "p0") then Some ([], [js "p1"])
    else if decide (u = js "p1") then Some ([], [js "p2"])
    else if decide (u = js "p2") then Some ([], [js "p3"])
    else Some ([], []) in
  attempts <$> crawlWebsite site (js "p0") = Some [js "p0"; js "p1"; js "p2"].
Proof. vm_compute. reflexivity. Qed.

End CrawlingReach.

(* ================================================================== *)
(** ** WebsiteCrawler, later revision: each URL once, depth at most 2 *)
(* ================================================================== *)

Module CrawlerDepth.
Import Url Crawler CrawlerFacts.

(** A [processUrl] task within [MAX_DEPTH]. *)
Definition task_depth_ok (t : Task) : Prop :=
  match t with
  | ProcessUrl _ depth => depth <= MAX_DEPTH
  | _ => False
  end.

Definition stage_depth_ok (s : Stage) : Prop :=
  match s with
  | AwaitPage t _ | AwaitSave t _ => task_depth_ok t
  | Done => True
  end.

(** Every task that waits or is started is within [MAX_DEPTH]. *)
Definition depth_ok (c : Crawler) : Prop :=
  Forall task_depth_ok (queue c) /\ Forall stage_depth_ok (pending c).

Section CrawlDepth.
Variable URL_href : jsstring -> jsstring -> completion jsstring jsstring.
Variable baseUrl : jsstring.
Variable fetch : jsstring -> completion jsstring (jsstring * jsstring * list jsstring).
Variable savePage_error : PageResult -> option jsstring.

Lemma depth_start_task t c :
  task_depth_ok t -> depth_ok c -> depth_ok (start_task URL_href baseUrl t c).
Proof.
  intros Ht [Hq Hp]. destruct t as [url depth| |link]; try done.
  simpl. destruct (decide _).
  - split; [done|]. simpl. apply Forall_app. split; [done|]. by apply Forall_singleton.
  - split; [done|]. simpl. apply Forall_app. split; [done|]. by apply Forall_singleton.
Qed.

Lemma depth_queue_add t c :
  task_depth_ok t -> depth_ok c -> depth_ok (queue_add URL_href baseUrl t c).
Proof.
  intros Ht [Hq Hp]. unfold queue_add. simpl.
  assert (Hq' : Forall task_depth_ok (queue c ++ [t])).
  { apply Forall_app. split; [done|]. by apply Forall_singleton. }
  destruct (length (pending c) <? concurrency); [|by split].
  destruct (queue c ++ [t]) as [|t' q]; [by split|].
  apply Forall_cons in Hq' as [Ht' Hq'].
  apply depth_start_task; [done|]. by split.
Qed.

Lemma depth_add_links depth links c :
  depth <= MAX_DEPTH -> depth_ok c ->
  depth_ok (add_links URL_href baseUrl (fun link => ProcessUrl link depth) links c).
Proof.
  intros Hd. unfold add_links. revert c.
  induction links as [|link links IH]; intros c H; simpl; [done|].
  apply IH. destruct (decide (link ∈ visited c)); [done|].
  by apply depth_queue_add.
Qed.

Lemma depth_after_save t page c :
  task_depth_ok t -> depth_ok c ->
  depth_ok (after_save URL_href baseUrl savePage_error t page c).
Proof.
  intros Ht H. destruct t as [url depth| |link]; try done.
  unfold after_save.
  assert (H1 : forall j, depth_ok (set_job j c)) by (intros j; exact H).
  destruct (Nat.ltb_spec depth MAX_DEPTH); [|apply H1].
  apply depth_add_links; [lia | apply H1].
Qed.

Lemma depth_drop_done c : depth_ok c -> depth_ok (drop_done c).
Proof.
  intros [Hq Hp]. split; [done|]. simpl. apply Forall_forall. intros s Hs.
  apply list_elem_of_filter in Hs as [_ Hs]. by eapply Forall_forall in Hp.
Qed.

Lemma depth_start_next fuel c :
  depth_ok c -> depth_ok (start_next URL_href baseUrl fuel c).
Proof.
  revert c. induction fuel as [|fuel IH]; intros c H; simpl; [done|].
  destruct (length (pending c) <? concurrency); [|done].
  destruct (queue c) as [|t q] eqn:E; [done|].
  destruct H as [Hq Hp]. rewrite E in Hq. apply Forall_cons in Hq as [Ht Hq].
  apply IH, depth_drop_done, depth_start_task; [done|]. by split.
Qed.

Lemma depth_settle c : depth_ok c -> depth_ok (settle URL_href baseUrl c).
Proof. intros H. by apply depth_start_next, depth_drop_done. Qed.

Lemma depth_resume i c :
  depth_ok c -> depth_ok (resume URL_href baseUrl fetch savePage_error i c).
Proof.
  intros H. unfold resume.
  destruct (pending c !! i) as [[t url|t page|]|] eqn:Hi; try done.
  - assert (Ht : task_depth_ok t).
    { destruct H as [_ Hp]. by apply (Forall_lookup_1 _ _ _ _ Hp Hi). }
    destruct (fetch url) as [[[title content] links]|message].
    + destruct H as [Hq Hp]. split; [done|]. simpl. by apply Forall_insert.
    + apply depth_settle. destruct H as [Hq Hp]. split; [done|]. simpl.
      by apply Forall_delete.
  - assert (Ht : task_depth_ok t).
    { destruct H as [_ Hp]. by apply (Forall_lookup_1 _ _ _ _ Hp Hi). }
    destruct (depth_after_save t page c Ht H) as [Hq Hp].
    apply depth_settle. split; [done|]. simpl. by apply Forall_delete.
Qed.

Lemma fetched_once_run schedule :
  fetched_once (run URL_href baseUrl fetch savePage_error schedule
                  (start_puppeteer URL_href baseUrl)).
Proof.
  unfold run.
  assert (H0 : fetched_once (start_puppeteer URL_href baseUrl)).
  { apply once_queue_add; [done|]. repeat split; try constructor.
    intros u Hu. by apply elem_of_nil in Hu. }
  revert H0. generalize (start_puppeteer URL_href baseUrl).
  induction schedule as [|i schedule IH]; intros c H0; simpl; [done|].
  by apply IH, once_resume.
Qed.

(** X13 (WebsiteCrawler.crawl, later revision): whatever the order in
    which the tasks of the queue complete, no URL is passed to
    processPage twice, and every URL passed to it is in [visited]. *)
Theorem crawl_puppeteer_each_url_once (schedule : list nat) :
  let c := run URL_href baseUrl fetch savePage_error schedule
             (start_puppeteer URL_href baseUrl) in
  NoDup (fetched c) /\ Forall (fun u => u ∈ visited c) (fetched c).
Proof.
  intros c. destruct (fetched_once_run schedule) as (Hnd & Hsub & _).
  split; [done|]. by apply Forall_forall.
Qed.

(** X14 (WebsiteCrawler.crawl, later revision): whatever the order in
    which the tasks of the queue complete, every task that waits in the
    queue or has been started is a [processUrl] of depth at most
    [MAX_DEPTH] = 2: the links of a page at depth 2 are not followed. *)
Theorem crawl_puppeteer_depth (schedule : list nat) :
  let c := run URL_href baseUrl fetch savePage_error schedule
             (start_puppeteer URL_href baseUrl) in
  Forall (fun t => exists url depth, t = ProcessUrl url depth /\ depth <= 2) (queue c)
  /\ Forall (fun s => match s with
                      | AwaitPage t _ | AwaitSave t _ =>
                          exists url depth, t = ProcessUrl url depth /\ depth <= 2
                      | Done => True
                      end) (pending c).
Proof.
  intros c.
  assert (H : depth_ok c).
  { unfold c, run.
    assert (H0 : depth_ok (start_puppeteer URL_href baseUrl)).
    { apply depth_queue_add; [simpl; unfold MAX_DEPTH; lia|]. split; constructor. }
    revert H0. generalize (start_puppeteer URL_href baseUrl).
    induction schedule as [|i schedule IH]; intros c0 H0; simpl; [done|].
    by apply IH, depth_resume. }
  assert (Ht : forall t, task_depth_ok t ->
                 exists url depth, t = ProcessUrl url depth /\ depth <= 2).
  { intros [url depth| |link] Hd; try done. by exists url, depth. }
  destruct H as [Hq Hp]. split.
  - eapply Forall_impl; [exact Hq | exact Ht].
  - eapply Forall_impl; [exact Hp|]. intros [t url|t page|]; simpl; auto.
Qed.
End CrawlDepth.

End CrawlerDepth.

(* ================================================================== *)
(** ** The file-backed index: sentences and chunks *)
(* ================================================================== *)

Module IndexChunks.
Import IndexDb IndexDbFacts StringFacts.

(** *** The prefix a predicate holds on *)

Lemma span_spec p s :
  s = (span p s).1 ++ (span p s).2
  /\ forallb p (span p s).1 = true
  /\ match (span p s).2 with
     | [] => True
     | c :: _ => p c = false
     end.
Proof.
  induction s as [|c s (IH1 & IH2 & IH3)]; simpl; [done|].
  destruct (p c) eqn:E; simpl; [|done].
  destruct (span p s) as [a b]. simpl in *. rewrite E. repeat split; try done.
  by f_equal.
Qed.

Lemma span_app_rest p s t :
  (span p s).2 <> [] -> span p (s ++ t) = ((span p s).1, (span p s).2 ++ t).
Proof.
  induction s as [|c s IH]; simpl; [done|].
  destruct (p c) eqn:E; simpl; [|done].
  destruct (span p s) as [a b]. simpl in *. intros H. by rewrite (IH H).
Qed.

Lemma span_app_all p s t :
  (span p s).2 = [] -> span p (s ++ t) = (s ++ (span p t).1, (span p t).2).
Proof.
  induction s as [|c s IH]; simpl; [by destruct (span p t)|].
  destruct (p c) eqn:E; simpl; [|done].
  destruct (span p s) as [a b]. simpl in *. intros H. by rewrite (IH H).
Qed.

Lemma span_all p t : forallb p t = true -> span p t = (t, []).
Proof.
  induction t as [|c t IH]; simpl; [done|]. intros H.
  apply andb_true_iff in H as [-> H]. by rewrite (IH H).
Qed.

Lemma span_none p t : forallb (fun c => negb (p c)) t = true -> span p t = ([], t).
Proof.
  destruct t as [|c t]; simpl; [done|]. intros H.
  apply andb_true_iff in H as [H _]. apply negb_true_iff in H. by rewrite H.
Qed.

(** *** One match of [/[^.!?]+[.!?]+/] *)

(** The first match in [s] and what follows it. *)
Definition next_sentence (s : jsstring) : option (jsstring * jsstring) :=
  let '(_, s1) := span is_terminator s in
  let '(body, r) := span (fun c => negb (is_terminator c)) s1 in
  let '(terms, r') := span is_terminator r in
  match body, terms with
  | _ :: _, _ :: _ => Some (body ++ terms, r')
  | _, _ => None
  end.

Lemma match_sentences_step fuel s :
  match_sentences (S fuel) s
  = match next_sentence s with
    | Some (m, r') => m :: match_sentences fuel r'
    | None => []
    end.
Proof.
  unfold next_sentence. cbn [match_sentences].
  destruct (span is_terminator s) as [t0 s1].
  destruct (span (fun c => negb (is_terminator c)) s1) as [body r].
  destruct (span is_terminator r) as [terms r'].
  destruct body; [done|]. by destruct terms.
Qed.

(** Text without a terminator, put after [s], adds no match. *)
Lemma next_sentence_tail s t :
  forallb (fun c => negb (is_terminator c)) t = true ->
  next_sentence (s ++ t)
  = match next_sentence s with
    | Some (m, r') => Some (m, r' ++ t)
    | None => None
    end.
Proof.
  intros Ht. unfold next_sentence.
  destruct (span is_terminator s) as [a1 s1] eqn:E1.
  destruct s1 as [|c1 s1].
  - rewrite span_app_all by (by rewrite E1). rewrite (span_none _ t Ht). simpl.
    rewrite (span_all _ t Ht). simpl. by destruct t.
  - rewrite span_app_rest by (by rewrite E1). rewrite E1. cbn [fst snd].
    destruct (span (fun c => negb (is_terminator c)) (c1 :: s1)) as [body r] eqn:E2.
    destruct r as [|c2 r].
    + rewrite span_app_all by (by rewrite E2). rewrite (span_all _ t Ht). simpl.
      by destruct body.
    + rewrite span_app_rest by (by rewrite E2). rewrite E2. cbn [fst snd].
      destruct (span is_terminator (c2 :: r)) as [terms r'] eqn:E3.
      destruct r' as [|c3 r'].
      * rewrite span_app_all by (by rewrite E3). rewrite (span_none _ t Ht).
        cbn [fst snd]. rewrite app_nil_r.
        destruct (span_spec is_terminator (c2 :: r)) as (Hs & _ & _).
        rewrite E3 in Hs. simpl in Hs. rewrite app_nil_r in Hs. rewrite <- Hs.
        by destruct body.
      * rewrite span_app_rest by (by rewrite E3). rewrite E3. cbn [fst snd].
        destruct body; [done|]. by destruct terms.
Qed.

Lemma match_sentences_tail fuel s t :
  forallb (fun c => negb (is_terminator c)) t = true ->
  match_sentences fuel (s ++ t) = match_sentences fuel s.
Proof.
  intros Ht. revert s. induction fuel as [|fuel IH]; intros s; [done|].
  rewrite !match_sentences_step, (next_sentence_tail s t Ht).
  destruct (next_sentence s) as [[m r']|]; [|done]. by rewrite IH.
Qed.

(** *** Sentences hold more than white space *)

(** [s] has a code unit that is not white space. *)
Definition solid (s : jsstring) : Prop := forallb is_space s = false.

Lemma terminator_not_space c : is_terminator c = true -> is_space c = false.
Proof.
  unfold is_terminator. simpl. rewrite !orb_true_iff.
  intros [H|[H|[H|H]]]; try done; apply N.eqb_eq in H; by subst.
Qed.

Lemma solid_app_l a b : solid a -> solid (a ++ b).
Proof. unfold solid. rewrite forallb_app. by intros ->. Qed.

Lemma solid_app_r a b : solid b -> solid (a ++ b).
Proof. unfold solid. rewrite forallb_app. intros ->. apply andb_false_r. Qed.

Lemma solid_trim s : solid s -> trim s <> [].
Proof. unfold solid. intros H E. apply trim_nil in E. congruence. Qed.

Lemma next_sentence_solid s m r : next_sentence s = Some (m, r) -> solid m.
Proof.
  unfold next_sentence.
  destruct (span is_terminator s) as [a1 s1].
  destruct (span (fun c => negb (is_terminator c)) s1) as [body r0].
  destruct (span_spec is_terminator r0) as (_ & Hall & _).
  destruct (span is_terminator r0) as [terms r'].
  destruct body as [|b body]; [done|]. destruct terms as [|t0 terms]; [done|].
  intros [= <- <-]. apply (solid_app_r (b :: body) (t0 :: terms)). simpl in Hall.
  apply andb_true_iff in Hall as [Ht0 _]. unfold solid. simpl.
  by rewrite (terminator_not_space t0 Ht0).
Qed.

Lemma match_sentences_solid fuel s : Forall solid (match_sentences fuel s).
Proof.
  revert s. induction fuel as [|fuel IH]; intros s; [constructor|].
  rewrite match_sentences_step.
  destruct (next_sentence s) as [[m r']|] eqn:E; [|constructor].
  constructor; [by eapply next_sentence_solid | apply IH].
Qed.

(** White space holds no sentence. *)
Lemma match_sentences_blank fuel s :
  forallb is_space s = true -> match_sentences fuel s = [].
Proof.
  intros H. destruct fuel as [|fuel]; [done|]. rewrite match_sentences_step.
  assert (forallb (fun c => negb (is_terminator c)) s = true) as Hn.
  { apply forallb_forall. intros c Hc. rewrite forallb_forall in H.
    specialize (H c Hc). destruct (is_terminator c) eqn:E; [|done].
    apply terminator_not_space in E. congruence. }
  unfold next_sentence. rewrite (span_none _ s Hn), (span_all _ s Hn). simpl.
  by destruct s.
Qed.

(** *** The chunks *)

(** The sentences splitIntoChunks packs: the matches, or the text itself
    when there is none. *)
Definition sentences (text : jsstring) : list jsstring :=
  match match_sentences (length text) text with
  | [] => [text]
  | ms => ms
  end.

Lemma splitIntoChunks_pack text :
  splitIntoChunks text = pack_sentences (60 * 100) (sentences text) [].
Proof. reflexivity. Qed.

Lemma pack_chunks_nonempty maxChunkSize ss currentChunk :
  Forall solid ss -> currentChunk = [] \/ solid currentChunk ->
  Forall (fun chunk => chunk <> []) (pack_sentences maxChunkSize ss currentChunk).
Proof.
  revert currentChunk. induction ss as [|s ss IH]; intros cur Hss Hcur; simpl.
  - destruct (trim cur) eqn:E; [constructor|]. by constructor.
  - apply Forall_cons in Hss as [Hs Hss].
    destruct (_ && _) eqn:Hc.
    + apply andb_true_iff in Hc as [_ Hc]. apply Nat.ltb_lt in Hc.
      constructor.
      * destruct Hcur as [->|Hcur]; [simpl in Hc; lia | by apply solid_trim].
      * apply IH; [done|]. right. by apply solid_app_l.
    + apply IH; [done|]. right. by apply solid_app_r, solid_app_l.
Qed.

Lemma pack_some maxChunkSize ss currentChunk :
  Forall solid ss -> ss <> [] \/ solid currentChunk ->
  pack_sentences maxChunkSize ss currentChunk <> [].
Proof.
  revert currentChunk. induction ss as [|s ss IH]; intros cur Hss Hcur; simpl.
  - destruct Hcur as [|Hcur]; [done|]. apply solid_trim in Hcur.
    by destruct (trim cur).
  - apply Forall_cons in Hss as [Hs Hss]. destruct (_ && _); [done|].
    apply IH; [done|]. right. by apply solid_app_r, solid_app_l.
Qed.

Lemma blank_snoc_space text :
  forallb is_space (text ++ js " ") = forallb is_space text.
Proof. rewrite forallb_app. simpl. apply andb_true_r. Qed.

Lemma splitIntoChunks_nil text :
  (splitIntoChunks text = [] <-> forallb is_space text = true)
  /\ Forall (fun chunk => chunk <> []) (splitIntoChunks text).
Proof.
  rewrite splitIntoChunks_pack. unfold sentences.
  pose proof (match_sentences_solid (length text) text) as Hsolid.
  destruct (match_sentences (length text) text) as [|m ms] eqn:E.
  - cbn [pack_sentences length app]. change (0 <? 0) with false.
    rewrite andb_false_r. pose proof (trim_nil (text ++ js " ")) as Ht.
    rewrite blank_snoc_space in Ht.
    destruct (trim (text ++ js " ")) as [|c t] eqn:Et.
    + split; [|constructor]. split; [intros _; by apply Ht | done].
    + split; [|by constructor]. split; [done|]. intros Hb. by apply Ht in Hb.
  - split.
    + split.
      * intros H. by apply pack_some in H; [|done|left].
      * intros Hb. rewrite (match_sentences_blank _ _ Hb) in E. done.
    + apply pack_chunks_nonempty; [done | by left].
Qed.

(** X15 (IndexDatabase.splitIntoChunks): a text of white space only
    (the empty text among them) gives no chunk, every other text gives
    at least one, and no chunk is empty. *)
Theorem splitIntoChunks_blank (text : jsstring) :
  (splitIntoChunks text = [] <-> forallb is_space text = true)
  /\ Forall (fun chunk => chunk <> []) (splitIntoChunks text).
Proof. apply splitIntoChunks_nil. Qed.

(** X16 (IndexDatabase.splitIntoChunks): text that follows the last
    sentence terminator of a text with at least one sentence is in no
    chunk: the chunks are those of the text without it. *)
Theorem splitIntoChunks_drops_tail (s t : jsstring) :
  match_sentences (length s) s <> [] ->
  forallb (fun c => negb (is_terminator c)) t = true ->
  splitIntoChunks (s ++ t) = splitIntoChunks s.
Proof.
  intros Hs Ht. rewrite !splitIntoChunks_pack. unfold sentences.
  rewrite (match_sentences_tail _ s t Ht).
  rewrite (match_sentences_fuel (length s) s (length (s ++ t)))
    by (rewrite ?length_app; lia).
  by destruct (match_sentences (length s) s).
Qed.

Lemma splitIntoChunks_drops_tail_witness :
  splitIntoChunks (js "Install it. " ++ js "then run the server")
  = splitIntoChunks (js "Install it. ").
Proof.
  apply splitIntoChunks_drops_tail; [vm_compute; discriminate | vm_compute; reflexivity].
Defined.

Example splitIntoChunks_tail_lost :
  splitIntoChunks (js "Install it. then run the server") = [js "Install it."].
Proof. vm_compute. reflexivity. Qed.

(** The chunk under construction is empty, or it ends in the space that
    follows its last sentence and is, without it, within the size or a
    single sentence of [ss]. *)
Lemma pack_bound (all : list jsstring) maxChunkSize ss currentChunk :
  (forall s, s ∈ ss -> s ∈ all) ->
  currentChunk = []
  \/ (exists x, currentChunk = x ++ [32%N]
        /\ (length x <= maxChunkSize \/ exists s, s ∈ all /\ length x <= length s)) ->
  Forall (fun chunk => length chunk <= maxChunkSize
                       \/ exists s, s ∈ all /\ length chunk <= length s)
    (pack_sentences maxChunkSize ss currentChunk).
Proof.
  assert (forall cur,
            cur = [] \/ (exists x, cur = x ++ [32%N]
               /\ (length x <= maxChunkSize \/ exists s, s ∈ all /\ length x <= length s)) ->
            length (trim cur) <= maxChunkSize
            \/ exists s, s ∈ all /\ length (trim cur) <= length s) as Htrim.
  { intros cur [->|(x & -> & Hx)]; [left; simpl; lia|].
    pose proof (length_trim_snoc_space x) as Hl.
    destruct Hx as [Hx|(s & Hs & Hx)]; [left; lia|]. right. exists s. split; [done | lia]. }
  revert currentChunk. induction ss as [|s ss IH]; intros cur Hall Hcur; simpl.
  - destruct (trim cur) eqn:E; [constructor|]. constructor; [|constructor].
    rewrite <- E. by apply Htrim.
  - destruct (_ && _) eqn:Hc.
    + constructor; [by apply Htrim|].
      apply IH; [intros s' Hs'; apply Hall; by right|]. right.
      exists s. split; [done|]. right. exists s. split; [apply Hall; by left | done].
    + apply IH; [intros s' Hs'; apply Hall; by right|]. right.
      exists (cur ++ s). split; [by rewrite <- app_assoc|].
      apply andb_false_iff in Hc as [Hc|Hc].
      * apply Nat.ltb_ge in Hc. by left.
      * apply Nat.ltb_ge in Hc. destruct cur; [|simpl in Hc; lia].
        right. exists s. split; [apply Hall; by left | done].
Qed.

(** X17 (IndexDatabase.splitIntoChunks): a chunk has at most
    [maxChunkSize] = 6000 code units, unless it is a single sentence
    that is longer. *)
Theorem splitIntoChunks_size (text : jsstring) :
  Forall (fun chunk => length chunk <= 60 * 100
                       \/ exists s, s ∈ sentences text /\ length chunk <= length s)
    (splitIntoChunks text).
Proof.
  rewrite splitIntoChunks_pack.
  apply (pack_bound (sentences text) (60 * 100) (sentences text) []); [done | by left].
Qed.

(** *** Embeddings and stored chunks *)

Section Database.
Variable embed : jsstring -> option (list Q).

Lemma createEmbeddings_cases text :
  Forall2 (fun chunk e => embed chunk = Some e) (splitIntoChunks text)
    (createEmbeddings embed text)
  \/ (Exists (fun chunk => embed chunk = None) (splitIntoChunks text)
      /\ createEmbeddings embed text
         = map (fun _ => repeat 0%Q 1536) (splitIntoChunks text)).
Proof.
  unfold createEmbeddings.
  destruct (mapM embed (splitIntoChunks text)) as [embeddings|] eqn:E.
  - left. by apply mapM_Some.
  - right. split; [by apply mapM_None | done].
Qed.

Lemma length_createEmbeddings text :
  length (createEmbeddings embed text) = length (splitIntoChunks text).
Proof.
  destruct (createEmbeddings_cases text) as [H|[_ ->]].
  - symmetry. by eapply Forall2_length.
  - by rewrite length_map.
Qed.

(** X18 (IndexDatabase.createEmbeddings, indexDocuments): a text gets
    one embedding per chunk: the embeddings of the service when it
    answers for every chunk, and the zero vector of 1536 dimensions for
    every chunk when it fails for one of them; so every chunk that
    indexDocuments stores has an embedding. *)
Theorem createEmbeddings_all_or_zero (text file : jsstring) (document : Document) :
  length (createEmbeddings embed text) = length (splitIntoChunks text)
  /\ (Forall2 (fun chunk e => embed chunk = Some e) (splitIntoChunks text)
        (createEmbeddings embed text)
      \/ (Exists (fun chunk => embed chunk = None) (splitIntoChunks text)
          /\ createEmbeddings embed text
             = map (fun _ => repeat 0%Q 1536) (splitIntoChunks text)))
  /\ Forall (fun chunk => is_Some (dc_embedding chunk))
       (documentChunks embed file document).
Proof.
  split; [apply length_createEmbeddings|]. split; [apply createEmbeddings_cases|].
  unfold documentChunks. apply Forall_forall. intros d Hd.
  apply list_elem_of_lookup in Hd as [i Hi]. rewrite list_lookup_imap in Hi.
  destruct (splitIntoChunks (doc_content document) !! i) as [chunk|] eqn:E;
    simpl in Hi; [|done].
  injection Hi as <-. simpl. apply lookup_lt_is_Some.
  rewrite length_createEmbeddings. by eapply lookup_lt_Some.
Qed.

(** X19 (IndexDatabase.indexDocuments): the chunks of a document have
    distinct ids. *)
Theorem documentChunks_ids (file : jsstring) (document : Document) :
  NoDup (map dc_id (documentChunks embed file document)).
Proof.
  apply NoDup_alt. intros i j x Hi Hj. unfold documentChunks in Hi, Hj.
  change (map dc_id ?l) with (dc_id <$> l) in Hi, Hj.
  rewrite list_lookup_fmap, list_lookup_imap in Hi, Hj.
  destruct (splitIntoChunks (doc_content document) !! i);
    cbn [fmap option_fmap option_map dc_id] in Hi; [|done].
  destruct (splitIntoChunks (doc_content document) !! j);
    cbn [fmap option_fmap option_map dc_id] in Hj; [|done].
  rewrite <- Hi in Hj. apply (inj Some) in Hj.
  apply app_inv_head in Hj. apply app_inv_head in Hj.
  symmetry. by apply JSFacts.decimal_inj.
Qed.
End Database.

End IndexChunks.

(* ================================================================== *)
(** ** Search in the file-backed index *)
(* ================================================================== *)

Module IndexSearchFacts.
Import IndexDb IndexSearch IndexChunks.

Lemma StronglySorted_take {A} (R : A -> A -> Prop) n l :
  StronglySorted R l -> StronglySorted R (take n l).
Proof.
  revert n. induction l as [|x l IH]; intros n H; [by destruct n|].
  destruct n as [|n]; [constructor|]. apply StronglySorted_inv in H as [H Hx].
  simpl. constructor; [by apply IH|].
  apply Forall_forall. intros y Hy. rewrite Forall_forall in Hx. apply Hx.
  by eapply (subseteq_take n l).
Qed.


Lemma Q2R_zero : Q2R 0 = 0%R.
Proof. unfold Q2R. simpl. lra. Qed.

(** A zero vector has similarity 0 with every vector. *)
Lemma cosine_loop_zero (a : list R) b d m1 m2 :
  Forall (fun x => x = 0%R) a ->
  (Cosine.cosine_loop a b (d, m1, m2)).1.2 = m1.
Proof.
  intros Ha. revert b d m1 m2. induction Ha as [|x a -> _ IH]; intros b d m1 m2.
  - by destruct b.
  - destruct b as [|y b]; [done|]. simpl. rewrite IH. lra.
Qed.

Lemma zeros_Forall n : Forall (fun x => x = 0%R) (map Q2R (repeat 0%Q n)).
Proof. induction n as [|n IH]; simpl; constructor; [apply Q2R_zero | done]. Qed.

Lemma computeCosineSimilarity_zero (a b : list R) :
  Forall (fun x => x = 0%R) a -> Cosine.computeCosineSimilarity a b = 0%R.
Proof.
  intros Ha. unfold Cosine.computeCosineSimilarity.
  pose proof (cosine_loop_zero a b 0 0 0 Ha) as H.
  destruct (Cosine.cosine_loop a b (0%R, 0%R, 0%R)) as [[d m1] m2]. simpl in H. subst m1.
  rewrite sqrt_0. by destruct (Req_dec_T 0 0).
Qed.

Section SearchFacts.
Variable embed : jsstring -> option (list Q).

Lemma allChunks_elem q baseUrl indexFiles c :
  c ∈ allChunks q baseUrl indexFiles ->
  exists chunk, usable baseUrl chunk = true /\ c = with_similarity q chunk.
Proof.
  unfold allChunks. intros Hc. apply list_elem_of_In, in_flat_map in Hc as (f & _ & Hc).
  destruct f.2 as [chunks|]; [|done]. apply list_elem_of_In in Hc.
  change (map ?g ?l) with (g <$> l) in Hc.
  apply list_elem_of_fmap in Hc as (chunk & -> & Hchunk).
  apply list_elem_of_filter in Hchunk as [Hu _]. by exists chunk.
Qed.


(** What [search] returns when it gets that far: the chosen chunks with
    their similarity. *)
Lemma search_cases query limit baseUrl indexDir :
  search embed query limit baseUrl indexDir = []
  \/ exists q0 rest files,
       createEmbeddings embed query = q0 :: rest
       /\ search embed query limit baseUrl indexDir
          = imap (fun index (chunk : DocumentChunk * R) =>
                    {| res_id := dc_id chunk.1; res_url := dc_url chunk.1;
                       res_title := dc_title chunk.1;
                       res_content := dc_content chunk.1;
                       res_distance := (1 - chunk.2)%R;
                       res_chunkIndex := index |})
              (slice0 limit
                 (stable_sort (fun a b => Rle_bool b.2 a.2)
                    (allChunks q0 baseUrl files))).
Proof.
  unfold search. destruct (createEmbeddings embed query) as [|q0 rest]; [by left|].
  destruct indexDir as [files|]; [|by left].
  destruct (filter _ files) as [|f fs] eqn:E; [by left|]. right.
  exists q0, rest, (f :: fs). done.
Qed.


Lemma search_blank_query query limit baseUrl indexDir :
  forallb is_space query = true ->
  search embed query limit baseUrl indexDir = [].
Proof.
  intros Hb. unfold search, createEmbeddings.
  destruct (splitIntoChunks_nil query) as [[_ Hnil] _]. by rewrite (Hnil Hb).
Qed.

(** X21 (IndexDatabase.search): a query of white space only (the empty
    query among them) has no chunk to embed, and the search returns no
    result whatever the index holds. *)
Theorem search_blank (query : jsstring) (limit : Z) (baseUrl : option jsstring)
    (indexDir : option (list (jsstring * option (list DocumentChunk)))) :
  forallb is_space query = true ->
  search embed query limit baseUrl indexDir = [].
Proof. apply search_blank_query. Qed.
End SearchFacts.

(** X22 (IndexDatabase.search, createEmbeddings): when the embedding
    service fails, the query is searched with the zero vector: the
    search does not fail, and every result it returns has distance 1. *)
Theorem search_without_embeddings (query : jsstring) (limit : Z)
    (baseUrl : option jsstring)
    (indexDir : option (list (jsstring * option (list DocumentChunk)))) :
  Forall (fun r => res_distance r = 1%R)
    (search (fun _ => None) query limit baseUrl indexDir).
Proof.
  destruct (search_cases (fun _ => None) query limit baseUrl indexDir)
    as [->|(q0 & rest & files & Hq & ->)]; [constructor|].
  assert (q0 = repeat 0%Q 1536) as ->.
  { unfold createEmbeddings in Hq.
    destruct (splitIntoChunks query) as [|c cs]; [done|]. simpl in Hq.
    by injection Hq as <- _. }
  apply Forall_forall. intros r Hr. apply list_elem_of_lookup in Hr as [i Hi].
  rewrite list_lookup_imap in Hi.
  destruct (slice0 limit _ !! i) as [c|] eqn:E; simpl in Hi; [|done].
  injection Hi as <-. cbn [res_distance].
  assert (c ∈ allChunks (repeat 0%Q 1536) baseUrl files) as Hc.
  { rewrite <- (RuntimeFacts.stable_sort_perm
                  (fun a b : DocumentChunk * R => Rle_bool b.2 a.2)).
    eapply elem_of_sublist; [|apply RuntimeFacts.slice0_sublist].
    by eapply list_elem_of_lookup_2. }
  apply allChunks_elem in Hc as (chunk & _ & ->). unfold with_similarity.
  cbn [snd]. rewrite computeCosineSimilarity_zero; [lra | apply zeros_Forall].
Qed.

Lemma search_blank_witness :
  search (fun _ => Some [1%Q]) (js "  ") 5 None (Some []) = [].
Proof. apply search_blank. reflexivity. Defined.

End IndexSearchFacts.

(* ================================================================== *)
(** ** The links of a page *)
(* ================================================================== *)

Module BrowserFacts.
Import Browser.

Lemma set_add_elem x s u : u ∈ set_add x s <-> u = x \/ u ∈ s.
Proof.
  unfold set_add. destruct (decide (x ∈ s)) as [Hx|Hx].
  - split; [by right|]. by intros [->|H].
  - rewrite elem_of_app, list_elem_of_singleton. tauto.
Qed.

Lemma set_add_NoDup x s : NoDup s -> NoDup (set_add x s).
Proof.
  unfold set_add. intros H. destruct (decide (x ∈ s)) as [Hx|Hx]; [done|].
  apply NoDup_app. repeat split; [done | | apply NoDup_singleton].
  intros y Hy Hy'. apply list_elem_of_singleton in Hy'. by subst.
Qed.

Section ExtractFacts.
Variable URL_new : jsstring -> option jsstring -> completion jsstring ParsedUrl.

(** The link [href_] of the page at [url] resolves to [u], a URL of the
    origin [baseOrigin] with the protocol http or https. *)
Definition resolves_to (url baseOrigin href_ u : jsstring) : Prop :=
  trim href_ <> []
  /\ exists resolvedUrl,
       URL_new (trim href_) (Some url) = Normal resolvedUrl
       /\ same_origin baseOrigin resolvedUrl = true
       /\ href resolvedUrl = u.

(** X23 (extractAllUrlsWithSameBaseUrl): when the URL of the page
    parses, the result holds no URL twice, and it holds exactly the
    URLs that the links of the page resolve to within the origin of the
    page; a link that is empty, blank or does not parse is skipped.
    When the URL of the page does not parse, the function throws. *)
Theorem extractAllUrlsWithSameBaseUrl_unique (url : jsstring) (links : list jsstring) :
  match extractAllUrlsWithSameBaseUrl URL_new url links with
  | Normal urls =>
      NoDup urls
      /\ exists base,
           URL_new url None = Normal base
           /\ forall u, u ∈ urls <->
                exists href_, href_ ∈ links /\ resolves_to url (origin base) href_ u
  | Throw e => URL_new url None = Throw e
  end.
Proof.
  unfold extractAllUrlsWithSameBaseUrl.
  destruct (URL_new url None) as [base|e]; simpl; [|done].
  set (step := fun (uniqueUrls : list jsstring) (href_ : jsstring) => _).
  assert (forall l acc,
            NoDup acc ->
            NoDup (fold_left step l acc)
            /\ forall u, u ∈ fold_left step l acc <->
                 u ∈ acc \/ exists href_, href_ ∈ l
                                          /\ resolves_to url (origin base) href_ u) as H.
  { induction l as [|h l IH]; intros acc Hacc; simpl.
    - split; [done|]. intros u. split; [by left|].
      intros [H|(h & Hh & _)]; [done | by apply elem_of_nil in Hh].
    - assert (NoDup (step acc h)
              /\ forall u, u ∈ step acc h <->
                   u ∈ acc \/ resolves_to url (origin base) h u) as [Hnd Hel].
      { unfold step, resolves_to. destruct (trim h) as [|c t] eqn:Et.
        { split; [done|]. intros u. split; [by left|]. by intros [H|[H _]]. }
        destruct (URL_new (c :: t) (Some url)) as [r|e] eqn:Er.
        2: { split; [done|]. intros u. split; [by left|].
             by intros [H|(_ & r & H & _)]. }
        destruct (same_origin (origin base) r) eqn:Eo.
        - split; [by apply set_add_NoDup|]. intros u. rewrite set_add_elem. split.
          + intros [->|H]; [|by left]. right. split; [done|]. by exists r.
          + intros [H|(_ & r' & Hr' & _ & Hu)]; [by right|].
            left. injection Hr' as <-. done.
        - split; [done|]. intros u. split; [by left|].
          intros [H|(_ & r' & Hr' & Ho & _)]; [done|].
          injection Hr' as <-. congruence. }
      destruct (IH (step acc h) Hnd) as [Hnd' Hel']. split; [done|].
      intros u. rewrite Hel', Hel. split.
      + intros [[H|H]|(h' & Hh' & H)]; [by left | right; exists h; split; [by left | done] |].
        right. exists h'. split; [by right | done].
      + intros [H|(h' & Hh' & H)]; [by left; left|].
        apply elem_of_cons in Hh' as [->|Hh']; [by left; right|].
        right. by exists h'. }
  destruct (H links [] (NoDup_nil_2)) as [Hnd Hel]. split; [done|].
  exists base. split; [done|]. intros u. rewrite Hel. split.
  - intros [Hu|Hu]; [by apply elem_of_nil in Hu | done].
  - intros Hu. by right.
Qed.
End ExtractFacts.

(** A parser for the example: every link resolves to itself on the
    origin of the page, but "mailto:x". *)
Definition parse_example (input : jsstring) (base : option jsstring)
  : completion jsstring ParsedUrl :=
  if decide (input = js "mailto:x") then
    Normal {| protocol := js "mailto:"; origin := js "null"; href := input |}
  else if decide (input = js "http://[") then Throw (js "Invalid URL")
  else Normal {| protocol := js "https:"; origin := js "https://docs.example";
                 href := input |}.

Example extractAllUrlsWithSameBaseUrl_example :
  extractAllUrlsWithSameBaseUrl parse_example (js "https://docs.example/")
    [js "https://docs.example/a"; js "  "; js "mailto:x"; js "http://[";
     js " https://docs.example/a "; js "https://docs.example/a#top"]
  = Normal [js "https://docs.example/a"; js "https://docs.example/a#top"].
Proof. vm_compute. reflexivity. Qed.

End BrowserFacts.

(* ================================================================== *)
(** ** The file of a page *)
(* ================================================================== *)

Module PagesFacts.
Import Pages IndexDb.

Lemma startsWith_app p s : startsWith (p ++ s) p = true.
Proof. induction p as [|c p IH]; simpl; [by destruct s|]. by rewrite N.eqb_refl. Qed.

Lemma endsWith_app s p : endsWith (s ++ p) p = true.
Proof. unfold endsWith. rewrite rev_app_distr. apply startsWith_app. Qed.

Lemma page_stem_nonempty urlPath : page_stem urlPath <> [].
Proof. unfold page_stem. by destruct (replace_slashes urlPath). Qed.

Lemma replace_slashes_idem s : replace_slashes (replace_slashes s) = replace_slashes s.
Proof.
  unfold replace_slashes. rewrite map_map. apply map_ext. intros c.
  destruct (c =? 47)%N eqn:E; [done|]. by rewrite E.
Qed.

Lemma replace_slashes_no_slash s : 47%N ∉ replace_slashes s.
Proof.
  unfold replace_slashes. intros H. change (map ?f ?l) with (f <$> l) in H.
  apply list_elem_of_fmap in H as (c & Hc & _).
  destruct (c =? 47)%N eqn:E; [done|]. apply N.eqb_neq in E. congruence.
Qed.

(** X24 (WebsiteCrawler.savePage, IndexDatabase.indexDocuments): the
    name of the file of a page holds no "/", so the file lies in the
    output directory itself; paths that differ only in "/" against "_"
    share one file; and the file is one that indexDocuments reads, its
    chunks going to the index file named after it. *)
Theorem page_file_name_indexed (urlPath : jsstring) :
  (47%N ∉ page_file_name urlPath)
  /\ page_file_name (replace_slashes urlPath) = page_file_name urlPath
  /\ indexed_extension (page_file_name urlPath) = true
  /\ index_file_name (page_file_name urlPath) = page_stem urlPath ++ js ".index.json".
Proof.
  unfold page_file_name. repeat split.
  - intros H. apply elem_of_app in H as [H|H].
    + unfold page_stem in H. destruct (replace_slashes urlPath) as [|c s] eqn:E.
      * vm_compute in H. by repeat (apply elem_of_cons in H as [H|H]; [done|]);
          apply elem_of_nil in H.
      * rewrite <- E in H. by apply replace_slashes_no_slash in H.
    + vm_compute in H. by repeat (apply elem_of_cons in H as [H|H]; [done|]);
        apply elem_of_nil in H.
  - unfold page_stem. by rewrite replace_slashes_idem.
  - unfold indexed_extension. by rewrite endsWith_app.
  - unfold index_file_name.
    assert (endsWith (page_stem urlPath ++ js ".json") (js ".jsonX") = false) as ->.
    { unfold endsWith. rewrite rev_app_distr. reflexivity. }
    unfold basename. rewrite endsWith_app.
    pose proof (page_stem_nonempty urlPath) as Hne.
    assert ((length (js ".json") <? length (page_stem urlPath ++ js ".json")) = true)
      as ->.
    { apply Nat.ltb_lt. rewrite length_app.
      destruct (page_stem urlPath); [done | simpl; lia]. }
    cbn [andb]. by rewrite length_app, Nat.add_sub, take_app_length.
Qed.

Example page_file_name_examples :
  page_file_name (js "/") = js "_.json"
  /\ page_file_name (js "/docs/api") = js "_docs_api.json"
  /\ page_file_name (js "/docs_api") = js "_docs_api.json".
Proof. repeat split; vm_compute; reflexivity. Qed.

End PagesFacts.

(* ================================================================== *)
(** ** search_website, recrawl_website and the tool dispatch *)
(* ================================================================== *)

Module SearchWebsiteFacts.
Import Tools RuntimeFacts SearchWebsite.

Lemma StronglySorted_map_in {A B} (R : A -> A -> Prop) (R' : B -> B -> Prop)
    (f : A -> B) l :
  (forall a b, a ∈ l -> b ∈ l -> R a b -> R' (f a) (f b)) ->
  StronglySorted R l -> StronglySorted R' (map f l).
Proof.
  induction l as [|x l IH]; intros Hf H; [constructor|].
  apply StronglySorted_inv in H as [H Hx]. simpl. constructor.
  - apply IH; [|done]. intros a b Ha Hb. apply Hf; by right.
  - change (map f l) with (f <$> l). apply Forall_fmap, Forall_forall.
    intros y Hy. simpl. apply Hf; [by left | by right|].
    rewrite Forall_forall in Hx. by apply Hx.
Qed.

(** What the Map of the reduce holds once the results [seen] have been
    folded in: one entry per URL seen, a result of that URL whose
    relevance is the greatest among them. *)
Definition best_inv (seen : list RankedResult) (m : list (jsstring * RankedResult))
  : Prop :=
  NoDup (map fst m)
  /\ (forall h, h ∈ seen -> is_Some (map_get (url h) m))
  /\ forall k v, map_get k m = Some v ->
       url v = k /\ v ∈ seen
       /\ forall h, h ∈ seen -> url h = k -> (relevance h <= relevance v)%Z.

Lemma keep_best_inv seen m r :
  best_inv seen m -> best_inv (seen ++ [r]) (keep_best m r).
Proof.
  intros (Hnd & Hall & Hget). unfold keep_best.
  assert (Hset : best_inv (seen ++ [r]) (map_set (url r) r m)
                 \/ exists e, map_get (url r) m = Some e
                              /\ ~ (relevance e < relevance r)%Z).
  { destruct (map_get (url r) m) as [e|] eqn:Ee.
    - destruct (Z.lt_ge_cases (relevance e) (relevance r)) as [Hlt|Hge];
        [|right; exists e; split; [done | lia]].
      left. split; [by apply map_set_NoDup|]. split.
      + intros h Hh. rewrite map_get_set. destruct (decide (url r = url h)); [done|].
        apply elem_of_app in Hh as [Hh|Hh]; [by apply Hall|].
        apply list_elem_of_singleton in Hh. by subst.
      + intros k v. rewrite map_get_set. destruct (decide (url r = k)) as [<-|Hk].
        * intros [= <-]. split; [done|]. split; [apply elem_of_app; right; by left|].
          intros h Hh Hu. apply elem_of_app in Hh as [Hh|Hh].
          -- destruct (Hget _ _ Ee) as (_ & _ & Hmax). specialize (Hmax h Hh Hu). lia.
          -- apply list_elem_of_singleton in Hh. subst. lia.
        * intros Hv. destruct (Hget _ _ Hv) as (Hu & Hin & Hmax).
          split; [done|]. split; [apply elem_of_app; by left|].
          intros h Hh Hhu. apply elem_of_app in Hh as [Hh|Hh]; [by apply Hmax|].
          apply list_elem_of_singleton in Hh. by subst.
    - left. split; [by apply map_set_NoDup|]. split.
      + intros h Hh. rewrite map_get_set. destruct (decide (url r = url h)); [done|].
        apply elem_of_app in Hh as [Hh|Hh]; [by apply Hall|].
        apply list_elem_of_singleton in Hh. by subst.
      + intros k v. rewrite map_get_set. destruct (decide (url r = k)) as [<-|Hk].
        * intros [= <-]. split; [done|]. split; [apply elem_of_app; right; by left|].
          intros h Hh Hu. apply elem_of_app in Hh as [Hh|Hh].
          -- destruct (Hall h Hh) as [x Hx]. rewrite Hu, Ee in Hx. done.
          -- apply list_elem_of_singleton in Hh. subst. lia.
        * intros Hv. destruct (Hget _ _ Hv) as (Hu & Hin & Hmax).
          split; [done|]. split; [apply elem_of_app; by left|].
          intros h Hh Hhu. apply elem_of_app in Hh as [Hh|Hh]; [by apply Hmax|].
          apply list_elem_of_singleton in Hh. by subst. }
  destruct (map_get (url r) m) as [e|] eqn:Ee.
  - destruct (Z.ltb_spec (relevance e) (relevance r)) as [Hlt|Hge].
    + destruct Hset as [H|(e' & [= <-] & Hn)]; [done | lia].
    + split; [done|]. split.
      * intros h Hh. apply elem_of_app in Hh as [Hh|Hh]; [by apply Hall|].
        apply list_elem_of_singleton in Hh. subst. by rewrite Ee.
      * intros k v Hv. destruct (Hget _ _ Hv) as (Hu & Hin & Hmax).
        split; [done|]. split; [apply elem_of_app; by left|].
        intros h Hh Hhu. apply elem_of_app in Hh as [Hh|Hh]; [by apply Hmax|].
        apply list_elem_of_singleton in Hh. subst h. subst k.
        rewrite <- Hhu, Ee in Hv. injection Hv as <-. lia.
  - destruct Hset as [H|(e' & He' & _)]; [done | done].
Qed.

Lemma keep_best_fold_inv rest seen m :
  best_inv seen m -> best_inv (seen ++ rest) (fold_left keep_best rest m).
Proof.
  revert seen m. induction rest as [|r rest IH]; intros seen m H; simpl.
  - by rewrite app_nil_r.
  - replace (seen ++ r :: rest) with ((seen ++ [r]) ++ rest)
      by (by rewrite <- app_assoc).
    apply IH. by apply keep_best_inv.
Qed.

Section HandlerFacts.
Variables DATA_ROOT_DIR WEBSITES_DIR INDEX_DIR : jsstring.
Variable ensureDirectory : jsstring -> completion exn unit.
Variable getWebsiteDirectory : jsstring -> option jsstring.
Variable getWebsiteStoragePath : jsstring -> jsstring.
Variable getInstance : completion exn unit.
Variable search : jsstring -> Z -> list SearchResult.
Variable toLowerCase : jsstring -> jsstring.

Local Abbreviation handle crawl writeMetadata indexDocuments :=
  (handleSearchWebsite DATA_ROOT_DIR WEBSITES_DIR INDEX_DIR ensureDirectory
     getWebsiteDirectory getWebsiteStoragePath crawl writeMetadata getInstance
     indexDocuments search toLowerCase).

(** The arguments pass the check at the head of the handler. *)
Definition valid_args (args : SearchWebsiteArgs) (url_ : jsstring)
    (queries : list jsstring) : Prop :=
  truthy (a_url args) = Some url_ /\ a_queries args = Some queries
  /\ 3 <= length queries.

Lemma allResults_ranked h queries limit :
  h ∈ SearchWebsite.allResults search queries limit <->
  exists q s, q ∈ queries /\ s ∈ search q limit /\ h = ranked s.
Proof.
  unfold SearchWebsite.allResults. rewrite list_elem_of_In, in_flat_map. split.
  - intros (q & Hq & Hh). apply in_map_iff in Hh as (s & <- & Hs).
    exists q, s. by rewrite !list_elem_of_In.
  - intros (q & s & Hq & Hs & ->). exists q. rewrite <- list_elem_of_In.
    split; [done|]. apply in_map_iff. exists s. by rewrite <- list_elem_of_In.
Qed.

(** The results the handler returns, read off its deduplicated list. *)
Lemma uniqueResults_best queries limit :
  let unique := SearchWebsite.uniqueResults search queries limit in
  NoDup (map url unique)
  /\ StronglySorted (fun a b => (relevance b <= relevance a)%Z) unique
  /\ (forall n, limit = Z.of_nat n -> length unique <= n)
  /\ forall r, r ∈ unique ->
       (exists q s, q ∈ queries /\ s ∈ search q limit /\ r = ranked s)
       /\ forall q s, q ∈ queries -> s ∈ search q limit -> sr_url s = url r ->
            (relevance_of (sr_distance s) <= relevance r)%Z.
Proof.
  intros unique. unfold SearchWebsite.uniqueResults in unique.
  set (l := SearchWebsite.allResults search queries limit) in *.
  set (m := fold_left keep_best l []) in *.
  set (sorted := stable_sort _ _) in *.
  assert (best_inv [] []) as H0.
  { split; [constructor|]. split; [intros h Hh; by apply elem_of_nil in Hh | done]. }
  destruct (keep_best_fold_inv l [] [] H0) as (Hnd & Hall & Hget).
  rewrite app_nil_l in Hall, Hget. fold m in Hnd, Hall, Hget.
  assert (Hsub : unique `sublist_of` sorted) by apply slice0_sublist.
  assert (Hperm : sorted ≡ₚ map_values m) by apply stable_sort_perm.
  assert (Hkeys : map url (map_values m) = map fst m).
  { apply ToolsFacts.map_values_keys. intros k v Hin.
    apply (elem_map_get _ _ _ Hnd) in Hin. by apply Hget in Hin as [? _]. }
  assert (Hsorted : StronglySorted (fun a b => (relevance b <= relevance a)%Z) sorted).
  { apply SortFacts.stable_sort_sorted.
    - intros x y H. by apply Z.leb_le in H.
    - intros x y H. apply Z.leb_gt in H. lia.
    - intros x y z Hxy Hyz. lia. }
  split; [|split; [|split]].
  - assert (Hs : NoDup (map url sorted)).
    { change (map url sorted) with (url <$> sorted). rewrite Hperm.
      change (url <$> map_values m) with (map url (map_values m)).
      by rewrite Hkeys. }
    apply (sublist_NoDup _ _ Hs).
    change (map url ?x) with (url <$> x). by apply fmap_sublist.
  - unfold unique, slice0. by apply IndexSearchFacts.StronglySorted_take.
  - intros n ->. unfold unique, slice0.
    destruct (Z.ltb_spec (Z.of_nat n) 0); [lia|].
    rewrite Nat2Z.id, length_take. lia.
  - intros r Hr.
    assert (Hrm : r ∈ map_values m).
    { rewrite <- Hperm. by eapply elem_of_sublist. }
    unfold map_values in Hrm. change (map snd m) with (snd <$> m) in Hrm.
    apply list_elem_of_fmap in Hrm as ([k v] & -> & Hin). simpl.
    apply (elem_map_get _ _ _ Hnd) in Hin.
    destruct (Hget _ _ Hin) as (Hu & Hv & Hmax).
    split; [by apply allResults_ranked|].
    intros q s Hq Hs Hus. apply (Hmax (ranked s)).
    + apply allResults_ranked. by exists q, s.
    + simpl. by rewrite Hus.
Qed.

Section Crawl.
Variable crawl : jsstring -> jsstring -> completion exn (option Crawler.CrawlJob).
Variable writeMetadata : jsstring -> jsstring -> nat -> completion exn unit.
Variable indexDocuments : jsstring -> completion exn nat.

(** The outcomes of the handler: the check of the arguments, then every
    error wrapped. *)
Lemma handleSearchWebsite_cases args :
  (handle crawl writeMetadata indexDocuments args = Throw invalid_search_website
   /\ ~ exists url_ queries, valid_args args url_ queries)
  \/ exists url_ queries,
       valid_args args url_ queries
       /\ (handle crawl writeMetadata indexDocuments args
           = Normal (map (output toLowerCase queries)
                       (SearchWebsite.uniqueResults search queries
                          (default 5%Z (a_limit args))))
           \/ exists error,
                handle crawl writeMetadata indexDocuments args
                = Throw (new_McpError InternalError
                           (js "Search operation failed: " ++ error_message error))).
Proof.
  unfold handleSearchWebsite, valid_args.
  destruct (truthy (a_url args)) as [url_|] eqn:Eu.
  2: { left. split; [done|]. by intros (u & q & H & _). }
  destruct (a_queries args) as [queries|] eqn:Eq.
  2: { left. split; [done|]. by intros (u & q & _ & H & _). }
  destruct (Nat.ltb_spec (length queries) 3) as [Hl|Hl].
  { left. split; [done|]. intros (u & q & _ & [= <-] & H). lia. }
  right. exists url_, queries. split; [done|].
  match goal with |- context [try_catch ?b ?h] => destruct b as [results|error] eqn:E end.
  - left. simpl. f_equal.
    repeat match type of E with
           | bind ?c _ = Normal _ => destruct c; simpl in E; [|done]
           end.
    by injection E as <-.
  - right. by exists error.
Qed.

(** X25 (handleSearchWebsite): the results a search returns hold no URL
    twice and come by descending relevance, at most [limit] of them; the
    relevance reported for a URL is that of a hit of this URL and the
    greatest that the queries gave it. *)
Theorem handleSearchWebsite_results (args : SearchWebsiteArgs) :
  match handle crawl writeMetadata indexDocuments args with
  | Normal results =>
      let limit := default 5%Z (a_limit args) in
      NoDup (map f_url results)
      /\ StronglySorted (fun a b => (f_relevance b <= f_relevance a)%Z) results
      /\ (forall n, limit = Z.of_nat n -> length results <= n)
      /\ exists queries,
           a_queries args = Some queries
           /\ forall r, r ∈ results ->
                (exists q s, q ∈ queries /\ s ∈ search q limit
                             /\ sr_url s = f_url r
                             /\ f_relevance r = relevance_of (sr_distance s))
                /\ forall q s, q ∈ queries -> s ∈ search q limit ->
                     sr_url s = f_url r ->
                     (relevance_of (sr_distance s) <= f_relevance r)%Z
  | Throw _ => True
  end.
Proof.
  destruct (handleSearchWebsite_cases args)
    as [[-> _]|(url_ & queries & (Hu & Hq & Hl) & [->|[error ->]])]; [done| |done].
  intros limit.
  destruct (uniqueResults_best queries limit) as (Hnd & Hs & Hlen & Hr).
  fold limit. set (unique := SearchWebsite.uniqueResults search queries limit) in *.
  assert (Hout : forall r, r ∈ unique ->
            f_url (output toLowerCase queries r) = url r
            /\ f_relevance (output toLowerCase queries r) = relevance r).
  { intros r Hin. destruct (Hr r Hin) as [(q & s & _ & _ & ->) _]. done. }
  split; [|split; [|split]].
  - rewrite map_map. erewrite map_ext_in; [exact Hnd|].
    intros r Hin. apply list_elem_of_In in Hin. by apply Hout.
  - eapply StronglySorted_map_in; [|exact Hs]. intros a b Ha Hb Hab. simpl in Hab.
    destruct (Hout a Ha) as [_ ->]. by destruct (Hout b Hb) as [_ ->].
  - intros n Hn. rewrite length_map. by apply Hlen.
  - exists queries. split; [done|]. intros r Hin.
    change (map ?f ?l) with (f <$> l) in Hin.
    apply list_elem_of_fmap in Hin as (r0 & -> & Hin).
    destruct (Hout r0 Hin) as [-> ->]. destruct (Hr r0 Hin) as [(q & s & Hq' & Hs' & Heq) Hmax].
    split; [|done]. exists q, s. subst r0. done.
Qed.

End Crawl.

(** X27 (handleSearchWebsite): for a site that has its directory and
    without [forceCrawl], the outcome does not depend on the crawler, on
    the metadata file or on indexDocuments: none of them is used. *)
Theorem handleSearchWebsite_uses_cache (args : SearchWebsiteArgs)
    (url_ websiteDir : jsstring)
    (crawl crawl' : jsstring -> jsstring -> completion exn (option Crawler.CrawlJob))
    (writeMetadata writeMetadata' : jsstring -> jsstring -> nat -> completion exn unit)
    (indexDocuments indexDocuments' : jsstring -> completion exn nat) :
  truthy (a_url args) = Some url_ ->
  getWebsiteDirectory url_ = Some websiteDir ->
  default false (a_forceCrawl args) = false ->
  handle crawl writeMetadata indexDocuments args
  = handle crawl' writeMetadata' indexDocuments' args.
Proof.
  intros Hu Hd Hf. unfold handleSearchWebsite. rewrite Hu, Hd, Hf. reflexivity.
Qed.

End HandlerFacts.

(** X29 (server.ts, CallTool handler): a tool call returns only for
    one of the four tool names; whatever the handlers throw, the call
    throws an McpError, and for a name that is none of the four it is
    MethodNotFound with the message "Unknown tool: " and the name. *)
Theorem callTool_errors
    (search_website list_crawled_websites recrawl_website search_existing_data
       : completion exn jsstring) (name : jsstring) :
  match callTool search_website list_crawled_websites recrawl_website
          search_existing_data name with
  | Normal text =>
      name ∈ [js "search_website"; js "list_crawled_websites"; js "recrawl_website";
              js "search_existing_data"]
  | Throw e =>
      (exists code message_, e = McpError code message_)
      /\ (name ∉ [js "search_website"; js "list_crawled_websites";
                  js "recrawl_website"; js "search_existing_data"] ->
          e = new_McpError MethodNotFound (js "Unknown tool: " ++ name))
  end.
Proof.
  unfold callTool.
  repeat (case_bool_decide; cbv iota);
    try (subst name;
         match goal with
         | |- context [try_catch ?h _] => destruct h as [text|[code m|m]]
         end; simpl;
         [ repeat constructor
         | split; [by eexists _, _ | intros H'; exfalso; apply H'; repeat constructor] .. ]).
  simpl. split; [by eexists _, _ | done].
Qed.

Lemma handleSearchWebsite_uses_cache_witness :
  let args := {| a_url := Some (js "https://docs.example");
                 a_queries := Some [js "install"; js "configure"; js "deploy"];
                 a_limit := None; a_forceCrawl := None |} in
  let handle crawl :=
    handleSearchWebsite (js "data") (js "data/websites") (js "data/index")
      (fun _ => Normal tt) (fun _ => Some (js "data/websites/docs_example_0a1b2c3d"))
      (fun _ => js "data/websites/docs_example_0a1b2c3d") crawl
      (fun _ _ _ => Normal tt) (Normal tt) (fun _ => Normal 0)
      (fun _ _ => []) (fun s => s) args in
  handle (fun _ _ => Throw (OtherError (js "offline")))
  = handle (fun _ _ => Normal None).
Proof.
  intros args handle.
  apply (handleSearchWebsite_uses_cache (js "data") (js "data/websites") (js "data/index")
           (fun _ => Normal tt) (fun _ => Some (js "data/websites/docs_example_0a1b2c3d"))
           (fun _ => js "data/websites/docs_example_0a1b2c3d") (Normal tt)
           (fun _ _ => []) (fun s => s) args (js "https://docs.example")
           (js "data/websites/docs_example_0a1b2c3d")); reflexivity.
Defined.

End SearchWebsiteFacts.

(* ================================================================== *)
(** ** search_existing_data: the outcomes of the handler *)
(* ================================================================== *)

Module SearchExistingFacts.
Import Tools RuntimeFacts.

Section HandlerFacts.
Variable getWebsiteDirectory : jsstring -> option jsstring.
Variable listCrawledWebsites : completion exn unit.
Variable getInstance : completion exn unit.
Variable search : jsstring -> Z -> list SearchResult.
Variable limitContent : jsstring -> jsstring.

(** Every result of [uniqueResults] has the URL of a result that passed
    the filter. *)
Lemma uniqueResults_filtered queries url_ limit r :
  r ∈ uniqueResults search queries url_ limit ->
  exists h, h ∈ filteredResults search queries url_ limit /\ url h = url r.
Proof.
  unfold uniqueResults.
  set (l := filteredResults search queries url_ limit).
  set (m := fold_left dedupe_step l []). intros Hr.
  destruct (ToolsFacts.dedupe_fold_inv l [] [] ToolsFacts.dedupe_inv_nil)
    as (Hnd & _ & Hget).
  rewrite app_nil_l in Hget. fold m in Hnd, Hget.
  assert (Hrm : r ∈ map_values m).
  { rewrite <- (stable_sort_perm (fun a b => (relevance b <=? relevance a)%Z)).
    eapply elem_of_sublist; [exact Hr | apply slice0_sublist]. }
  unfold map_values in Hrm. change (map snd m) with (snd <$> m) in Hrm.
  apply list_elem_of_fmap in Hrm as ([k v] & -> & Hin). simpl.
  apply (elem_map_get _ _ _ Hnd) in Hin.
  destruct (Hget _ _ Hin) as (Hu & (h0 & Hh0 & Hh0u & _) & _).
  exists h0. split; [done|]. by rewrite Hu.
Qed.

Lemma length_uniqueResults queries url_ n :
  length (uniqueResults search queries url_ (Z.of_nat n)) <= n.
Proof.
  unfold uniqueResults, slice0. destruct (Z.ltb_spec (Z.of_nat n) 0); [lia|].
  rewrite Nat2Z.id, length_take. lia.
Qed.

(** X30 (handleSearchExistingData): a search of the stored data returns
    at most [limit] results and, when a URL is given, only results whose
    URL starts with it, of a site that has its directory; it throws
    InvalidParams for missing or empty queries and wraps every other
    failure as InternalError "Search operation failed: ...". *)
Theorem handleSearchExistingData_outcomes (args : SearchExistingArgs) :
  match handleSearchExistingData getWebsiteDirectory listCrawledWebsites getInstance
          search limitContent args with
  | Normal results =>
      (exists q queries, arg_queries args = Some (q :: queries))
      /\ (forall n, default 5%Z (arg_limit args) = Z.of_nat n -> length results <= n)
      /\ (forall u, truthy (arg_url args) = Some u ->
            is_Some (getWebsiteDirectory u)
            /\ Forall (fun r => startsWith (f_url r) u = true) results)
  | Throw e =>
      (e = new_McpError InvalidParams (js "At least one search query is required")
       /\ (arg_queries args = None \/ arg_queries args = Some []))
      \/ ((exists q queries, arg_queries args = Some (q :: queries))
          /\ exists error,
               e = new_McpError InternalError
                     (js "Search operation failed: " ++ error_message error))
  end.
Proof.
  unfold handleSearchExistingData.
  destruct (arg_queries args) as [[|q queries]|] eqn:Eq;
    [left; split; [done | by right] | | left; split; [done | by left]].
  match goal with |- context [try_catch ?b ?h] => destruct b as [results|error] eqn:E end.
  2: { right. split; [by exists q, queries | by exists error]. }
  simpl. split; [by exists q, queries|].
  assert (Hres : results = map (formatSearchResult limitContent)
                   (uniqueResults search (q :: queries) (arg_url args)
                      (default 5%Z (arg_limit args)))
                 /\ forall u, truthy (arg_url args) = Some u ->
                      is_Some (getWebsiteDirectory u)).
  { destruct (truthy (arg_url args)) as [u|].
    - destruct (getWebsiteDirectory u) as [d|] eqn:Ed.
      + simpl in E. destruct getInstance; simpl in E; [|done].
        injection E as <-. split; [done|]. intros u' [= <-]. by rewrite Ed.
      + destruct listCrawledWebsites; simpl in E; done.
    - simpl in E. destruct getInstance; simpl in E; [|done].
      injection E as <-. split; [done | done]. }
  destruct Hres as [-> Hdir]. split.
  - intros n ->. rewrite length_map. apply length_uniqueResults.
  - intros u Hu. split; [by apply Hdir|].
    change (map ?f ?l) with (f <$> l). apply Forall_fmap, Forall_forall.
    intros r Hr. simpl.
    apply uniqueResults_filtered in Hr as (h & Hh & <-).
    apply ToolsFacts.filteredResults_elem in Hh as [_ Hpass]. by rewrite Hu in Hpass.
Qed.
End HandlerFacts.

End SearchExistingFacts.
